(** * Table dependency tracer: lineage enumeration, writer lookup, row shaping

    A shallow embedding of [TableDependencyTracer.py].  Python [str] values
    are byte strings (the UTF-8 encoding of the text), [Set[str]] is
    [gset string], [Dict[str, List[WriterInfo]]] is
    [gmap string (list WriterInfo)] and a row [Dict[str, str]] is
    [gmap string string].  The Python standard library ([re], [str]
    methods, [os], [int]) and the disk are interfaces ([Runtime],
    [FileSystem]); the order in which Python iterates over a set is the
    interface [SetOrder].  The functions of the script are defined over these
    interfaces, statement by statement. *)

From stdpp Require Import gmap strings list sorting pretty.
From Stdlib Require Import Ascii.

(** ** Data *)

(** [@dataclass class WriterInfo]: a script or view that writes a table. *)
Record WriterInfo : Type := mkWriterInfo {
  file_path : string;
  kind : string  (* 'spark' or 'view' *)
}.

#[global] Instance WriterInfo_eq_dec : EqDecision WriterInfo.
Proof. solve_decision. Defined.

(** ** Regular expressions of the script, as syntax trees *)

Inductive cls_item : Type :=
| CChar (c : ascii)            (* a literal character *)
| CRange (lo hi : ascii)       (* lo-hi *)
| CSpace.                      (* \s *)

Inductive regex : Type :=
| Lit (s : string)             (* literal text, every character escaped *)
| Cls (items : list cls_item)  (* [...] *)
| Bol                          (* ^ *)
| Eol                          (* $ *)
| WordB                        (* \b *)
| Seq (r1 r2 : regex)
| Alt (r1 r2 : regex)          (* r1|r2 *)
| Star (r : regex)             (* r*, greedy *)
| Opt (r : regex)              (* r?, greedy *)
| Group (r : regex)            (* (r), capturing *)
| Look (r : regex).            (* (?=r) *)

Definition Plus (r : regex) : regex := Seq r (Star r).
Definition Seqs (rs : list regex) : regex := foldr Seq (Lit "") rs.
Definition Alts (r : regex) (rs : list regex) : regex := foldl Alt r rs.

Definition dquote : ascii := "034"%char.

(** The classes \s, [a-z0-9_] and the quote class (single or double quote)
    as they occur in the patterns.  In the comments below Q stands for the
    double-quote character. *)
Definition re_s : regex := Cls [CSpace].
Definition re_ident : regex :=
  Cls [CRange "a" "z"; CRange "0" "9"; CChar "_"]%char.
Definition re_quote : regex := Cls [CChar "'"%char; CChar dquote].

(** [RE_CREATE_VIEW_L = \bcreate\s+view\s+([a-z0-9_]+(?:\.[a-z0-9_]+)?)\b] *)
Definition RE_CREATE_VIEW_L : regex :=
  Seqs [WordB; Lit "create"; Plus re_s; Lit "view"; Plus re_s;
        Group (Seq (Plus re_ident) (Opt (Seq (Lit ".") (Plus re_ident))));
        WordB].

(** [RE_SPARK_TABLE_L =
     spark\.table\(\s*['Q]([a-z0-9_]+)\.([a-z0-9_]+)['Q]\s*\)] *)
Definition RE_SPARK_TABLE_L : regex :=
  Seqs [Lit "spark.table("; Star re_s; re_quote;
        Group (Plus re_ident); Lit "."; Group (Plus re_ident);
        re_quote; Star re_s; Lit ")"].

(** [RE_FROM_JOIN_L = \b(?:from|join)\s+([a-z0-9_]+)\.([a-z0-9_]+)\b] *)
Definition RE_FROM_JOIN_L : regex :=
  Seqs [WordB; Alt (Lit "from") (Lit "join"); Plus re_s;
        Group (Plus re_ident); Lit "."; Group (Plus re_ident); WordB].

(** [RE_INSERT_INTO_L =
     \.insertinto\(\s*['Q]([a-z0-9_]+)\.([a-z0-9_]+)['Q]\s*,] *)
Definition RE_INSERT_INTO_L : regex :=
  Seqs [Lit ".insertinto("; Star re_s; re_quote;
        Group (Plus re_ident); Lit "."; Group (Plus re_ident);
        re_quote; Star re_s; Lit ","].

(** [RE_FQTN_INLINE_L = \b([a-z0-9_]+)\.([a-z0-9_]+)(?=[\s,;)\]#\-]|$)] *)
Definition RE_FQTN_INLINE_L : regex :=
  Seqs [WordB; Group (Plus re_ident); Lit "."; Group (Plus re_ident);
        Look (Alt (Cls [CSpace; CChar ","; CChar ";"; CChar ")"; CChar "]";
                        CChar "#"; CChar "-"]%char) Eol)].

(** [word_boundary_pattern_fqtn]: [\b] + [re.escape(fqtn)] + [\b]. *)
Definition word_boundary_pattern_fqtn (fqtn : string) : regex :=
  Seqs [WordB; Lit fqtn; WordB].

(** The punctuation class [[:：\-–—]]: colon, full-width colon,
    hyphen, en dash, em dash.  The three characters outside ASCII are
    literals of their UTF-8 bytes. *)
Definition fullwidth_colon : string :=
  String "239" (String "188" (String "154" "")).
Definition en_dash : string := String "226" (String "128" (String "147" "")).
Definition em_dash : string := String "226" (String "128" (String "148" "")).
Definition re_label_punct : regex :=
  Alts (Cls [CChar ":"; CChar "-"]%char)
       [Lit fullwidth_colon; Lit en_dash; Lit em_dash].

Definition re_hashes5 : regex :=
  Seqs [Lit "#####"; Star (Lit "#")].                      (* #{5,} *)

(** The two patterns of [_is_comment_or_blank]:
    [^\s*(#|//|/\*|\*|--)] and [^\s*#{5,}\s*$]. *)
Definition RE_COMMENT_START : regex :=
  Seqs [Bol; Star re_s;
        Group (Alts (Lit "#") [Lit "//"; Lit "/*"; Lit "*"; Lit "--"])].
Definition RE_BANNER : regex := Seqs [Bol; Star re_s; re_hashes5; Star re_s; Eol].

(** The pattern of the substitution in [_normalize_line]: [^[\s#/\*\-\|>]+]. *)
Definition RE_LEADING_CLUTTER : regex :=
  Seqs [Bol; Plus (Cls [CSpace; CChar "#"; CChar "/"; CChar "*"; CChar "-";
                        CChar "|"; CChar ">"]%char)].

(** The two patterns of [_is_output_header]:
    [^output\s+table(?:s)?( \s*[:：\-–—]\s* )?$] (spaces added around the
    group) and
    [^output\s+table(?:s)?\b]. *)
Definition RE_OUTPUT_HEADER_1 : regex :=
  Seqs [Bol; Lit "output"; Plus re_s; Lit "table"; Opt (Lit "s");
        Opt (Group (Seqs [Star re_s; re_label_punct; Star re_s])); Eol].
Definition RE_OUTPUT_HEADER_2 : regex :=
  Seqs [Bol; Lit "output"; Plus re_s; Lit "table"; Opt (Lit "s"); WordB].

(** The second and third patterns of [_is_section_break]:
    [^(input|job|...|view)\b] and
    [^[a-z][a-z0-9 _/\-\(\)]*\s*[:：\-–—]\s*$]. *)
Definition RE_SECTION_WORD : regex :=
  Seqs [Bol;
        Group (Alts (Lit "input")
                 [Lit "job"; Lit "jobs"; Lit "user"; Lit "used"; Lit "usage";
                  Lit "purpose"; Lit "revision"; Lit "revisions";
                  Lit "history"; Lit "company"; Lit "author"; Lit "date";
                  Lit "data"; Lit "datastage"; Lit "sas"; Lit "view"]);
        WordB].
Definition RE_SECTION_LABEL : regex :=
  Seqs [Bol; Cls [CRange "a" "z"]%char;
        Star (Cls [CRange "a" "z"; CRange "0" "9"; CChar " "; CChar "_";
                   CChar "/"; CChar "-"; CChar "("; CChar ")"]%char);
        Star re_s; re_label_punct; Star re_s; Eol].

(** ** Interfaces to the Python library, the disk and the set order *)

(** The [str] methods, [re] functions, [os.path] functions and [int] that the
    script calls.  No property of them is assumed. *)
Class Runtime : Type := {
  str_lower : string → string;                      (* s.lower() *)
  str_strip : string → string;                      (* s.strip() *)
  str_rstrip : string → string;                     (* s.rstrip() *)
  str_replace : string → string → string → string;  (* s.replace(old, new), as [str_replace old new s] *)
  str_splitlines : string → list string;            (* s.splitlines() *)
  str_split : string → list string;                 (* s.split() *)
  py_int : string → option Z;                       (* int(s); None is ValueError *)
  re_match : regex → string → bool;                 (* re.match(p, s) is not None *)
  re_search : regex → string → bool;                (* p.search(s) is not None *)
  re_search1 : regex → string → option string;      (* m = p.search(s); m.group(1) *)
  re_findall2 : regex → string → list (string * string);  (* p.findall(s), two groups *)
  re_sub : regex → string → string → string;        (* re.sub(p, repl, s), as [re_sub p repl s] *)
  path_splitext_ext : string → string;              (* os.path.splitext(p)[1] *)
  path_join : string → string → string              (* os.path.join(a, b) *)
}.

(** The disk during one run: what [os.walk(root)] yields (the base directory
    and the file names of each directory) and what [read_text] returns for a
    path ([None] when the file cannot be read or decoded). *)
Class FileSystem : Type := {
  os_walk : string → list (string * list string);
  read_text : string → option string
}.

(** The order in which this run of the interpreter iterates over a set of
    strings.  Python fixes no order (it follows the hashes of the strings,
    which change from process to process); every element comes exactly
    once. *)
Class SetOrder : Type := {
  iter_set : gset string → list string;
  iter_set_perm : ∀ s, iter_set s ≡ₚ elements s
}.

(** ** String helpers with a fixed meaning on byte strings *)

(** Membership of the dot: [s] contains the character '.'. *)
Fixpoint contains_dot (s : string) : bool :=
  match s with
  | EmptyString => false
  | String c s' => if decide (c = "."%char) then true else contains_dot s'
  end.

(** [k.startswith(p)] and [k.endswith(suffix)] *)
Definition startswith (k p : string) : bool := String.prefix p k.
Definition endswith (k suffix : string) : bool :=
  let n := String.length k in
  let m := String.length suffix in
  if decide (m ≤ n) then bool_decide (String.substring (n - m) m k = suffix)
  else false.

(** [s.split(',')] *)
Fixpoint split_comma (s : string) : list string :=
  match s with
  | EmptyString => [EmptyString]
  | String c s' =>
      if decide (c = ","%char) then EmptyString :: split_comma s'
      else match split_comma s' with
           | w :: ws => String c w :: ws
           | [] => [String c EmptyString]
           end
  end.

(** A list without its repeated elements, each kept where it first occurs:
    [list({key(w): w for w in ws}.values())] for records that are their own
    key. *)
Fixpoint dedup_first {A} `{EqDecision A} (l : list A) : list A :=
  match l with
  | [] => []
  | x :: l' => x :: filter (λ y, y ≠ x) (dedup_first l')
  end.

(** ** The functions of the script *)

Section Tracer.
Context `{RT : Runtime} `{FS : FileSystem}.

(** [to_fqtn]: lower-cased fully-qualified name [db.tbl]. *)
Definition to_fqtn (db tbl : string) : string :=
  str_lower db +:+ "." +:+ str_lower tbl.

Definition fqtn_of_pair (m : string * string) : string := to_fqtn m.1 m.2.

(** [list_code_files]: the [.py] and [.sql] files under [root]. *)
Definition list_code_files (root : string) : list string :=
  flat_map (λ d : string * list string,
    flat_map (λ f,
      let ext := str_lower (path_splitext_ext f) in
      if bool_decide (ext ∈ [".py"; ".sql"]) then [path_join d.1 f] else [])
    d.2) (os_walk root).

(** [_is_comment_or_blank] *)
Definition _is_comment_or_blank (raw_line : string) : bool :=
  if bool_decide (str_strip raw_line = "") then true
  else re_match RE_COMMENT_START raw_line || re_match RE_BANNER raw_line.

(** The characters replaced by [_normalize_line]: byte order mark U+FEFF,
    no-break space U+00A0, zero-width space U+200B. *)
Definition u_bom : string := String "239" (String "187" (String "191" "")).
Definition u_nbsp : string := String "194" (String "160" "").
Definition u_zwsp : string := String "226" (String "128" (String "139" "")).

(** [_normalize_line] *)
Definition _normalize_line (s : string) : string :=
  let s := str_replace u_bom "" s in
  let s := str_replace u_nbsp " " s in
  let s := str_replace u_zwsp "" s in
  let s := str_rstrip (str_lower s) in
  re_sub RE_LEADING_CLUTTER "" s.

(** [_is_output_header] *)
Definition _is_output_header (norm_line : string) : bool :=
  re_match RE_OUTPUT_HEADER_1 norm_line || re_match RE_OUTPUT_HEADER_2 norm_line.

(** [_is_section_break] *)
Definition _is_section_break (norm_line : string) : bool :=
  if re_match RE_BANNER norm_line then true
  else if re_match RE_SECTION_WORD norm_line then true
  else if re_match RE_SECTION_LABEL norm_line then true
  else false.

(** The two nested loops of [parse_output_tables_from_header] over the lines
    (raw, normalised).  [in_section] says whether the inner loop is running:
    it consumes comment lines that are no section break (or are another
    output header) and collects their [db.tbl] tokens; the line that ends it
    is looked at again by the outer loop, which only looks for a header. *)
Fixpoint scan_output_sections (in_section : bool)
    (lines : list (string * string)) : list string :=
  match lines with
  | [] => []
  | (raw, norm) :: rest =>
      if in_section && _is_comment_or_blank raw
         && negb (_is_section_break norm && negb (_is_output_header norm))
      then ((λ m : string * string, m.1 +:+ "." +:+ m.2)
              <$> re_findall2 RE_FQTN_INLINE_L norm)
           ++ scan_output_sections true rest
      else if _is_output_header norm then scan_output_sections true rest
      else scan_output_sections false rest
  end.

(** [parse_output_tables_from_header] *)
Definition parse_output_tables_from_header (text : string) : gset string :=
  let raw_lines := str_splitlines text in
  let norm_lines := _normalize_line <$> raw_lines in
  list_to_set (scan_output_sections false (zip raw_lines norm_lines)).

(** [parse_insertinto_targets] *)
Definition parse_insertinto_targets (text : string) : gset string :=
  let t := str_lower text in
  list_to_set (fqtn_of_pair <$> re_findall2 RE_INSERT_INTO_L t).

(** [parse_view_name] *)
Definition parse_view_name (text : string) : option string :=
  let t := str_lower text in
  re_search1 RE_CREATE_VIEW_L t.

(** [index[k].append(w)] on a [defaultdict(list)]. *)
Definition index_append (index : gmap string (list WriterInfo))
    (k : string) (w : WriterInfo) : gmap string (list WriterInfo) :=
  <[k := default [] (index !! k) ++ [w]]> index.

(** The body of the loop of [index_writers] for one file [p]. *)
Definition index_file `{SetOrder} (index : gmap string (list WriterInfo))
    (p : string) : gmap string (list WriterInfo) :=
  match read_text p with
  | None => index
  | Some text =>
      let ext := str_lower (path_splitext_ext p) in
      let outs := parse_output_tables_from_header text
                  ∪ parse_insertinto_targets text in
      let index :=
        foldl (λ idx fqtn,
                 if contains_dot fqtn
                 then index_append idx fqtn (mkWriterInfo p "spark")
                 else idx) index (iter_set outs) in
      if bool_decide (ext = ".sql") then
        match parse_view_name text with
        | Some v =>
            if bool_decide (v ≠ "") && contains_dot v
            then index_append index v (mkWriterInfo p "view")
            else index
        | None => index
        end
      else index
  end.

(** [index_writers] *)
Definition index_writers `{SetOrder} (files : list string)
    : gmap string (list WriterInfo) :=
  foldl index_file ∅ files.

(** [extract_upstreams_from_spark], [extract_upstreams_from_view] *)
Definition extract_upstreams_from_spark (text : string) : gset string :=
  let t := str_lower text in
  list_to_set (fqtn_of_pair <$> re_findall2 RE_SPARK_TABLE_L t).

Definition extract_upstreams_from_view (text : string) : gset string :=
  let t := str_lower text in
  list_to_set (fqtn_of_pair <$> re_findall2 RE_FROM_JOIN_L t).

(** [get_upstreams_for_writer] *)
Definition get_upstreams_for_writer (writer : WriterInfo) : gset string :=
  match read_text (file_path writer) with
  | None => ∅
  | Some text =>
      if bool_decide (kind writer = "spark") then extract_upstreams_from_spark text
      else if bool_decide (kind writer = "view") then extract_upstreams_from_view text
      else ∅
  end.

(** [filter_candidate_files_by_name] *)
Definition filter_candidate_files_by_name (files : list string)
    (fqtn : string) : list string :=
  let pat := word_boundary_pattern_fqtn fqtn in
  List.filter (λ p,
    match read_text p with
    | None => false
    | Some text => re_search pat (str_lower text)
    end) files.

(** The fallback loop of [find_writers_for_table] over the candidates. *)
Definition direct_parse (fqtn : string) (p : string) : list WriterInfo :=
  match read_text p with
  | None => []
  | Some text =>
      let outs := parse_output_tables_from_header text
                  ∪ parse_insertinto_targets text in
      if bool_decide (fqtn ∈ outs) then [mkWriterInfo p "spark"]
      else if bool_decide (parse_view_name text = Some fqtn)
           then [mkWriterInfo p "view"]
           else []
  end.

(** [find_writers_for_table] *)
Definition find_writers_for_table (fqtn : string) (all_files : list string)
    (global_index : gmap string (list WriterInfo)) : list WriterInfo :=
  let fqtn := str_lower fqtn in
  let candidates := filter_candidate_files_by_name all_files fqtn in
  let writers :=
    match global_index !! fqtn with
    | Some ws => List.filter (λ w, bool_decide (file_path w ∈ candidates)) ws
    | None => []
    end in
  let writers :=
    if bool_decide (writers = []) then flat_map (direct_parse fqtn) candidates
    else writers in
  dedup_first writers.

(** [sorted(s)] for a set of strings: the order of the code points, which on
    UTF-8 bytes is the order of the bytes. *)
Definition sorted `{SetOrder} (s : gset string) : list string :=
  merge_sort String.le (iter_set s).

(** The union of the upstream sets of the writers, as the loop
    [for w in writers: upstream_union |= get_upstreams_for_writer(w)]. *)
Definition union_upstreams (writers : list WriterInfo) : gset string :=
  foldl (λ acc w, acc ∪ get_upstreams_for_writer w) ∅ writers.

(** The loop [for up_fqtn in sorted(upstream_union)] of [dfs_lineage_paths];
    [rec] is the recursive call, which also updates the shared cache. *)
Fixpoint branch_loop
    (rec : string → list string → gmap string (gset string)
           → option (list (list string) * gmap string (gset string)))
    (start_fqtn : string) (visited_stack : list string)
    (ups : list string) (all_paths : list (list string))
    (cache_upstreams : gmap string (gset string))
    : option (list (list string) * gmap string (gset string)) :=
  match ups with
  | [] => Some (all_paths, cache_upstreams)
  | up_fqtn :: ups' =>
      match rec up_fqtn (visited_stack ++ [start_fqtn]) cache_upstreams with
      | None => None
      | Some (subpaths, cache_upstreams) =>
          branch_loop rec start_fqtn visited_stack ups'
            (all_paths ++ (cons start_fqtn <$> subpaths)) cache_upstreams
      end
  end.

(** [dfs_lineage_paths].  The model recurses on [fuel], the number of nested
    calls allowed ([None]: not enough); the result is the returned list of
    paths and the cache dictionary as the call leaves it.  The defaults
    [visited_stack=None] and [cache_upstreams=None] are [[]] and [∅].  The
    limit that the interpreter puts on the depth of recursion is not part of
    the model: [fuel] is as large as a call needs. *)
Fixpoint dfs_lineage_paths `{SetOrder} (fuel : nat) (start_fqtn : string)
    (all_files : list string) (writers_index : gmap string (list WriterInfo))
    (visited_stack : list string) (cache_upstreams : gmap string (gset string))
    : option (list (list string) * gmap string (gset string)) :=
  match fuel with
  | 0 => None
  | S fuel' =>
      let start_fqtn := str_lower start_fqtn in
      if bool_decide (start_fqtn ∈ visited_stack) then
        Some ([[start_fqtn]], cache_upstreams)
      else
        let writers := find_writers_for_table start_fqtn all_files writers_index in
        let '(upstream_union, cache_upstreams) :=
          match cache_upstreams !! start_fqtn with
          | Some u => (u, cache_upstreams)
          | None =>
              let u := union_upstreams writers in
              (u, <[start_fqtn := u]> cache_upstreams)
          end in
        if bool_decide (writers = []) || bool_decide (size upstream_union = 0)
        then Some ([[start_fqtn]], cache_upstreams)
        else
          branch_loop
            (λ up visited cache,
               dfs_lineage_paths fuel' up all_files writers_index visited cache)
            start_fqtn visited_stack (sorted upstream_union) [] cache_upstreams
  end.

(** *** Shaping paths into rows *)

(** The column name [f'Layer {i}']. *)
Definition layer_key (i : nat) : string := "Layer " +:+ pretty i.

(** The body of the loop of [shape_paths_to_rows] for one path [p]: the row
    appended to [rows].  [None] is the [IndexError] that [p[-1]] raises on an
    empty path. *)
Definition shape_path (target : string) (p : list string)
    : option (gmap string string) :=
  if bool_decide (length p = 1) then
    p0 ← p !! 0;
    Some (<["Source Table" := p0]> (<["Target Table" := target]> ∅))
  else
    let inter := drop 1 (take (length p - 1) p) in          (* p[1:-1] *)
    leaf ← last p;                                           (* p[-1] *)
    let row : gmap string string := <["Target Table" := target]> ∅ in
    let row :=
      foldl (λ row (e : nat * string), <[layer_key e.1 := e.2]> row) row
            (zip (seq 1 (length inter)) inter) in            (* enumerate(inter, start=1) *)
    Some (<["Source Table" := leaf]> row).

(** [shape_paths_to_rows] *)
Definition shape_paths_to_rows (target : string) (paths : list (list string))
    : option (list (gmap string string)) :=
  mapM (shape_path target) paths.

(** *** The CSV writer *)

(** The [try] block of [write_csv] for a key [k] that starts with
    ['Layer ']: [int(k.split()[1])], [None] when it raises. *)
Definition layer_number (k : string) : option Z :=
  tok ← str_split k !! 1; py_int tok.

(** The loop of [write_csv] that computes [max_layer]. *)
Definition max_layer_of (rows : list (gmap string string)) : Z :=
  foldl (λ max_layer r,
    foldl (λ max_layer k,
      if startswith k "Layer " then
        match layer_number k with
        | Some n => Z.max max_layer n
        | None => max_layer
        end
      else max_layer) max_layer (map_to_list r).*1) 0%Z rows.

(** The column list [cols] of [write_csv]. *)
Definition csv_columns (rows : list (gmap string string)) : list string :=
  ["Target Table"]
  ++ (layer_key <$> seq 1 (Z.to_nat (max_layer_of rows)))   (* range(1, max_layer + 1) *)
  ++ ["Source Table"].

(** [write_csv]: the records that the [csv.DictWriter] with
    [fieldnames=cols] and [extrasaction='ignore'] writes to [out_path], the
    header first; a column that a row does not have is written as the empty
    string. *)
Definition write_csv (rows : list (gmap string string)) : list (list string) :=
  let cols := csv_columns rows in
  cols :: ((λ r : gmap string string, (λ c, default "" (r !! c)) <$> cols) <$> rows).

(** *** The main function *)

(** How a run of [tracer] ends: [sys.exit(status)], the records written to
    the output file, or an exception that nothing catches. *)
Inductive outcome : Type :=
| SysExit (status : Z)
| Written (records : list (list string))
| Raised.

(** The list that [raw_targets] is set to when [--targets] is not given. *)
Definition default_raw_targets : list string :=
  [
   "CODEDECODEACTIVITY"; "CODEDECODEADDRESSTYPE"; "CODEDECODEAUDITREASON";
   "CODEDECODEAUDITSOURCE"; "CODEDECODEBUSINESSTYPE"; "CODEDECODECLASS";
   "CODEDECODECOMPANYSTATUS"; "CODEDECODECOMPANYTYPE";
   "CODEDECODEDATAISOLATIONUSER"; "CODEDECODEDELIVERYMODE";
   "CODEDECODEDIGITALSERVICEDOCUMENTSUBTYPE"; "CODEDECODEDOCUMENTTYPE";
   "CODEDECODEENTITYRELATIONSHIPTYPE"; "CODEDECODEENTITYTYPE";
   "CODEDECODEEXTERNALSYSTEMERRORMESSAGE"; "CODEDECODEFILINGFREQUENCY";
   "CODEDECODEFILINGMODE"; "CODEDECODEFORMTYPE";
   "CODEDECODEGIRSUBMISSIONSTATUS"; "CODEDECODEGIRSUBMISSIONTYPE";
   "CODEDECODEISOCOUNTRY"; "CODEDECODEISOCURRENCY"; "CODEDECODEMAILCLASS";
   "CODEDECODEMICROSERVICEERRORMESSAGE"; "CODEDECODEPRINTMODE";
   "CODEDECODERETURNPACKAGE"; "CODEDECODERETURNSTATUS";
   "CODEDECODETAXENTITYIDTYPE"; "CODEDECODETAXENTITYIDTYPEUEN";
   "CODEDECODETAXTYPE"; "CODEDECODETAXTYPESTATUS";
   "CODEDECODETRANSACTIONSTATUS"; "CODESTABLE FOR IRIN3 PILLAR 2";
   "COGNOS_IRIN_CP_M094A"; "COGNOS_IRIN_CP_M094B";
   "CONTROLPILLAR2FORMSTATUS"; "CONTROLPILLAR2VIEWFILINGSTATUS";
   "CORPORATE BASE "; "ENFD_INPUT_FILING_COMPLIANCE";
   "ENFD_INPUT_RECLASS_ARREARS"; "ENFD_INPUT_TAX_ARREARS";
   "ENFD_INPUT_WRITEOFF_TALL"; "ENFD_INT_DM_EFFECTIVENESS_CIT";
   "ENFD_INT_DM_EFFECTIVENESS_GST"; "ENFD_INT_DM_EFFECTIVENESS_IIT";
   "ENFD_INT_FILING_COMPLIANCE_CIT"; "ENFD_INT_FILING_COMPLIANCE_GST";
   "ENFD_INT_FILING_COMPLIANCE_IIT"; "ENFD_INT_FILING_COMPLIANCE_SD";
   "ENFD_INT_PYMT_COMPLIANCE_CIT_DENO"; "ENFD_INT_PYMT_COMPLIANCE_CIT_NUME";
   "ENFD_INT_PYMT_COMPLIANCE_GST_DENO"; "ENFD_INT_PYMT_COMPLIANCE_GST_NUME";
   "ENFD_INT_PYMT_COMPLIANCE_IIT_DENO"; "ENFD_INT_PYMT_COMPLIANCE_IIT_NUME";
   "ENFD_INT_RECLASS_ARREARS_CIT"; "ENFD_INT_RECLASS_ARREARS_GST";
   "ENFD_INT_RECLASS_ARREARS_IIT"; "ENFD_INT_RECLASS_ARREARS_OTHERS";
   "ENFD_INT_RECLASS_ARREARS_PT"; "ENFD_RPT_DM_EFFECTIVENESS";
   "ENFD_RPT_FILING_COMPLIANCE"; "ENFD_RPT_MSHL_CASE_BASE";
   "ENFD_RPT_MSHL_PREMIUM_COLLECTION"; "ENFD_RPT_NF_EFFECTIVENESS";
   "ENFD_RPT_PYMT_COMPLIANCE"; "ENFD_RPT_RECLASS_ARREARS";
   "ENFD_RPT_REOFFENDING_RATE"; "ENFD_RPT_S45_FILING";
   "ENFD_RPT_TAX_ARREARS"; "ENFD_RPT_WRITEOFF_TALL"
  ].

(** [_normalize_fqtn_or_none] *)
Definition _normalize_fqtn_or_none (t : string) : option string :=
  let t := str_strip t in
  let t_low := str_lower t in
  if contains_dot t_low then Some t_low else None.

(** [_expand_bare_table] *)
Definition _expand_bare_table `{SetOrder}
    (writers_index : gmap string (list WriterInfo)) (tbl_bare : string)
    : list string :=
  let bare := str_lower (str_strip tbl_bare) in
  let suffix := "." +:+ bare in
  let cands : gset string :=
    filter (λ k, endswith k suffix = true) (dom writers_index) in
  sorted cands.

(** The targets of a run: steps 2 and 3 of [tracer]. *)
Definition resolve_targets `{SetOrder}
    (writers_index : gmap string (list WriterInfo)) (targets : option string)
    : list string :=
  let raw_targets :=
    match targets with
    | Some s =>
        if bool_decide (s ≠ "")
        then List.filter (λ x, bool_decide (x ≠ "")) (str_strip <$> split_comma s)
        else default_raw_targets
    | None => default_raw_targets
    end in
  let fqtn_targets :=
    flat_map (λ t,
      match _normalize_fqtn_or_none t with
      | Some fq => if bool_decide (fq ≠ "") then [fq]
                   else _expand_bare_table writers_index t
      | None => _expand_bare_table writers_index t
      end) raw_targets in
  sorted (list_to_set fqtn_targets).

(** Step 4 of [tracer]: the rows of all targets, in the order of the
    targets.  The outer [None] is a lack of fuel, the inner one the
    exception of [shape_paths_to_rows]. *)
Fixpoint lineage_rows `{SetOrder} (fuel : nat) (files : list string)
    (writers_index : gmap string (list WriterInfo)) (fqtn_targets : list string)
    : option (option (list (gmap string string))) :=
  match fqtn_targets with
  | [] => Some (Some [])
  | tgt_fqtn :: rest =>
      match dfs_lineage_paths fuel tgt_fqtn files writers_index [] ∅ with
      | None => None
      | Some (paths, _) =>
          match shape_paths_to_rows tgt_fqtn paths with
          | None => Some None
          | Some rows =>
              match lineage_rows fuel files writers_index rest with
              | None => None
              | Some None => Some None
              | Some (Some all_rows) => Some (Some (rows ++ all_rows))
              end
          end
      end
  end.

(** [tracer], for the arguments [--root] and [--targets] ([None] when the
    option is absent).  [fuel] bounds the depth of every call of
    [dfs_lineage_paths]; the result is [None] when it does not suffice. *)
Definition tracer `{SetOrder} (fuel : nat) (root : string)
    (targets : option string) : option outcome :=
  let files := list_code_files root in
  let writers_index := index_writers files in
  let fqtn_targets := resolve_targets writers_index targets in
  if bool_decide (fqtn_targets = []) then Some (SysExit 2)
  else
    match lineage_rows fuel files writers_index fqtn_targets with
    | None => None
    | Some None => Some Raised
    | Some (Some all_rows) => Some (Written (write_csv all_rows))
    end.

(** *** The tables a corpus can name *)

(** Every upstream name that some extractor reads out of some file. *)
Definition all_upstreams (all_files : list string) : gset string :=
  ⋃ ((λ p, match read_text p with
           | Some text => extract_upstreams_from_spark text
                          ∪ extract_upstreams_from_view text
           | None => ∅
           end) <$> all_files).

(** Every name in a value of the cache. *)
Definition cache_names (cache : gmap string (gset string)) : gset string :=
  ⋃ (map_to_list cache).*2.

(** The canonical names that a call of [dfs_lineage_paths] can reach. *)
Definition reachable_names (start_fqtn : string) (all_files : list string)
    (cache : gmap string (gset string)) : gset string :=
  {[str_lower start_fqtn]}
  ∪ set_map str_lower (all_upstreams all_files ∪ cache_names cache).

(** A depth that suffices for the call. *)
Definition lineage_fuel (start_fqtn : string) (all_files : list string)
    (cache : gmap string (gset string)) : nat :=
  S (size (reachable_names start_fqtn all_files cache)).

(** A depth that suffices for every target over the files [all_files], and
    for every target of a run over [root]. *)
Definition corpus_fuel (all_files : list string) : nat :=
  2 + size (set_map str_lower (all_upstreams all_files) : gset string).

Definition tracer_fuel (root : string) : nat :=
  corpus_fuel (list_code_files root).

(** The rows of one target, enumerated on its own. *)
Definition rows_of_target `{SetOrder} (fuel : nat) (files : list string)
    (writers_index : gmap string (list WriterInfo)) (tgt_fqtn : string)
    : list (gmap string string) :=
  default []
    (r ← dfs_lineage_paths fuel tgt_fqtn files writers_index [] ∅;
     shape_paths_to_rows tgt_fqtn r.1).

(** *** The enumeration without the cache

    The same recursion with the union of the upstream sets computed anew at
    every visit of a table; the reference against which the cache of
    [dfs_lineage_paths] is checked. *)
Fixpoint paths_without_cache `{SetOrder} (fuel : nat) (start_fqtn : string)
    (all_files : list string) (writers_index : gmap string (list WriterInfo))
    (visited_stack : list string) : option (list (list string)) :=
  match fuel with
  | 0 => None
  | S fuel' =>
      let start_fqtn := str_lower start_fqtn in
      if bool_decide (start_fqtn ∈ visited_stack) then Some [[start_fqtn]]
      else
        let writers := find_writers_for_table start_fqtn all_files writers_index in
        let upstream_union := union_upstreams writers in
        if bool_decide (writers = []) || bool_decide (size upstream_union = 0)
        then Some [[start_fqtn]]
        else
          subs ← mapM (λ up, paths_without_cache fuel' up all_files writers_index
                               (visited_stack ++ [start_fqtn]))
                      (sorted upstream_union);
          Some (concat ((λ sub : list (list string), cons start_fqtn <$> sub) <$> subs))
  end.

(** A cache is sound when each of its entries is the union that the
    enumerator would compute for the key. *)
Definition cache_sound (all_files : list string)
    (writers_index : gmap string (list WriterInfo))
    (cache : gmap string (gset string)) : Prop :=
  ∀ k u, cache !! k = Some u →
    u = union_upstreams (find_writers_for_table k all_files writers_index).

(** The tables that [index_writers] and the fallback read out of a text
    with the rule for scripts. *)
Definition declared_outputs (text : string) : gset string :=
  parse_output_tables_from_header text ∪ parse_insertinto_targets text.

(** The shape of every returned path: it starts with the canonical table of
    the call; the path without its last element has no table twice and no
    table of the stack; the tables after the first are canonical names of
    upstream names of the corpus or the cache. *)
Definition path_ok (U0 : gset string) (visited : list string) (s : string)
    (p : list string) : Prop :=
  ∃ rest, p = s :: rest
    ∧ NoDup (removelast p)
    ∧ (∀ x, x ∈ removelast p → x ∉ visited)
    ∧ (∀ x, x ∈ rest → ∃ y, y ∈ U0 ∧ x = str_lower y).

End Tracer.

(** ** A runtime for ASCII text

    The library functions on strings of ASCII characters, as CPython defines
    them there: the classes of [str.isspace] and [\w], [str.lower], the
    backtracking matcher of [re] for the constructs that the patterns use,
    POSIX paths.  A byte above 127 is an ordinary character that is neither
    a space nor a word character nor a letter with a case. *)

Module PyAscii.

Definition code (c : ascii) : nat := nat_of_ascii c.

(** [c.isspace()], also the class [\s]: TAB, LF, VT, FF, CR, FS, GS, RS, US
    and the space. *)
Definition is_space (c : ascii) : bool :=
  let n := code c in
  (Nat.leb 9 n && Nat.leb n 13) || (Nat.leb 28 n && Nat.leb n 31) || Nat.eqb n 32.

(** The class [\w]: letters, digits and the underscore. *)
Definition is_word (c : ascii) : bool :=
  let n := code c in
  (Nat.leb 48 n && Nat.leb n 57) || (Nat.leb 65 n && Nat.leb n 90)
  || Nat.eqb n 95 || (Nat.leb 97 n && Nat.leb n 122).

Definition lower_char (c : ascii) : ascii :=
  let n := code c in
  if Nat.leb 65 n && Nat.leb n 90 then ascii_of_nat (n + 32) else c.

Fixpoint lower (s : string) : string :=
  match s with
  | EmptyString => EmptyString
  | String c s' => String (lower_char c) (lower s')
  end.

Fixpoint lstrip (s : string) : string :=
  match s with
  | EmptyString => EmptyString
  | String c s' => if is_space c then lstrip s' else s
  end.

Fixpoint rstrip (s : string) : string :=
  match s with
  | EmptyString => EmptyString
  | String c s' =>
      match rstrip s' with
      | EmptyString => if is_space c then EmptyString else String c EmptyString
      | t => String c t
      end
  end.

Definition strip (s : string) : string := rstrip (lstrip s).

(** [s.replace(old, new)]; [skip] counts the characters of a replaced
    occurrence that are still to be passed over. *)
Fixpoint replace_go (old new : string) (skip : nat) (s : string) : string :=
  match s with
  | EmptyString => EmptyString
  | String c s' =>
      match skip with
      | S k => replace_go old new k s'
      | 0 =>
          if String.prefix old s
          then new +:+ replace_go old new (String.length old - 1) s'
          else String c (replace_go old new 0 s')
      end
  end.

Fixpoint intersperse (new : string) (s : string) : string :=
  match s with
  | EmptyString => new
  | String c s' => new +:+ String c (intersperse new s')
  end.

Definition replace (old new s : string) : string :=
  if decide (old = "") then intersperse new s else replace_go old new 0 s.

(** The line boundaries of [str.splitlines] below 128: LF, VT, FF, CR,
    FS, GS, RS; CR LF is one boundary. *)
Definition is_linebreak (c : ascii) : bool :=
  let n := code c in
  (Nat.leb 10 n && Nat.leb n 13) || (Nat.leb 28 n && Nat.leb n 30).

(** [splitlines_go cur s]: [cur] is the current line, reversed. *)
Fixpoint splitlines_go (cur : string) (s : string) : list string :=
  match s with
  | EmptyString => if decide (cur = "") then [] else [String.rev cur]
  | String c s' =>
      if is_linebreak c then
        String.rev cur ::
          match s' with
          | String d s'' =>
              if decide (c = "013"%char ∧ d = "010"%char)
              then splitlines_go "" s''
              else splitlines_go "" s'
          | EmptyString => []
          end
      else splitlines_go (String c cur) s'
  end.

Definition splitlines (s : string) : list string := splitlines_go "" s.

(** [s.split()]: the maximal runs of characters that are no space. *)
Fixpoint split_go (cur : string) (s : string) : list string :=
  match s with
  | EmptyString => if decide (cur = "") then [] else [String.rev cur]
  | String c s' =>
      if is_space c
      then (if decide (cur = "") then [] else [String.rev cur]) ++ split_go "" s'
      else split_go (String c cur) s'
  end.

Definition split (s : string) : list string := split_go "" s.

(** [int(s)] in base 10: spaces around, a sign, digits with single
    underscores between them. *)
Definition digit (c : ascii) : option Z :=
  let n := code c in
  if Nat.leb 48 n && Nat.leb n 57 then Some (Z.of_nat (n - 48)) else None.

Fixpoint digits_go (acc : Z) (after_digit : bool) (s : string) : option Z :=
  match s with
  | EmptyString => if after_digit then Some acc else None
  | String c s' =>
      match digit c with
      | Some d => digits_go (10 * acc + d) true s'
      | None =>
          if decide (c = "_"%char) then
            if after_digit then
              match s' with
              | EmptyString => None
              | _ => digits_go acc false s'
              end
            else None
          else None
      end
  end.

Definition int (s : string) : option Z :=
  match strip s with
  | String "-" t => Z.opp <$> digits_go 0 false t
  | String "+" t => digits_go 0 false t
  | t => digits_go 0 false t
  end.

(** [os.path.splitext(p)[1]] and [os.path.join(a, b)] for POSIX paths. *)
Fixpoint basename_go (cur : string) (s : string) : string :=
  match s with
  | EmptyString => String.rev cur
  | String c s' =>
      if decide (c = "/"%char) then basename_go "" s'
      else basename_go (String c cur) s'
  end.

Fixpoint skip_dots (s : string) : string :=
  match s with
  | String "." s' => skip_dots s'
  | _ => s
  end.

(** The text from the last dot of [s] on, if [s] has a dot. *)
Fixpoint last_dot_suffix (s : string) : option string :=
  match s with
  | EmptyString => None
  | String c s' =>
      match last_dot_suffix s' with
      | Some e => Some e
      | None => if decide (c = "."%char) then Some s else None
      end
  end.

Definition splitext_ext (p : string) : string :=
  default "" (last_dot_suffix (skip_dots (basename_go "" p))).

Definition join (a b : string) : string :=
  if startswith b "/" then b
  else if decide (a = "") then b
  else if endswith a "/" then a +:+ b
  else a +:+ "/" +:+ b.

(** *** The matcher *)

Definition cls_item_matches (i : cls_item) (c : ascii) : bool :=
  match i with
  | CChar d => bool_decide (c = d)
  | CRange lo hi => Nat.leb (code lo) (code c) && Nat.leb (code c) (code hi)
  | CSpace => is_space c
  end.

Definition cls_matches (items : list cls_item) (c : ascii) : bool :=
  existsb (λ i, cls_item_matches i c) items.

(** A position in the subject: the character before it ([None] at the
    start) and the text from it on. *)
Fixpoint lit_prefix (l : string) (prev : option ascii) (s : string)
    : option (option ascii * string) :=
  match l with
  | EmptyString => Some (prev, s)
  | String c l' =>
      match s with
      | String d s' => if decide (c = d) then lit_prefix l' (Some d) s' else None
      | EmptyString => None
      end
  end.

Definition word_before (prev : option ascii) : bool :=
  match prev with Some c => is_word c | None => false end.
Definition word_after (s : string) : bool :=
  match s with String c _ => is_word c | EmptyString => false end.

(** The text that a match from [s] to its suffix [s'] has consumed. *)
Definition consumed (s s' : string) : string :=
  String.substring 0 (String.length s - String.length s') s.

(** The loop of a greedy repetition: [step] matches the repeated expression
    once; another round is tried first, and only counts when it has consumed
    a character; [k] continues after the repetition.  [n] bounds the number
    of rounds. *)
Fixpoint star_loop {A : Type}
    (step : option ascii → string → list string
            → (option ascii → string → list string → option A) → option A)
    (k : option ascii → string → list string → option A)
    (n : nat) (prev : option ascii) (s : string) (caps : list string)
    : option A :=
  match n with
  | 0 => k prev s caps
  | S n' =>
      match step prev s caps (λ prev' s' caps',
              if decide (String.length s' < String.length s)
              then star_loop step k n' prev' s' caps' else None) with
      | Some a => Some a
      | None => k prev s caps
      end
  end.

(** [rmatch A r prev s caps k]: match [r] at the position [(prev, s)] and
    hand the position after it and the texts of the groups closed so far to
    the continuation [k]; when [k] fails, try the next way to match [r], in
    the order of a backtracking matcher (the first alternative first, a
    repetition as long as possible first). *)
Fixpoint rmatch (A : Type) (r : regex) (prev : option ascii) (s : string)
    (caps : list string)
    (k : option ascii → string → list string → option A) {struct r} : option A :=
  match r with
  | Lit l =>
      match lit_prefix l prev s with
      | Some (prev', s') => k prev' s' caps
      | None => None
      end
  | Cls items =>
      match s with
      | String c s' => if cls_matches items c then k (Some c) s' caps else None
      | EmptyString => None
      end
  | Bol => match prev with None => k prev s caps | Some _ => None end
  | Eol =>
      if decide (s = "" ∨ s = String "010" "") then k prev s caps else None
  | WordB =>
      if xorb (word_before prev) (word_after s) then k prev s caps else None
  | Seq r1 r2 =>
      rmatch A r1 prev s caps (λ prev' s' caps', rmatch A r2 prev' s' caps' k)
  | Alt r1 r2 =>
      match rmatch A r1 prev s caps k with
      | Some a => Some a
      | None => rmatch A r2 prev s caps k
      end
  | Star r' => star_loop (rmatch A r') k (String.length s) prev s caps
  | Opt r' =>
      match rmatch A r' prev s caps k with
      | Some a => Some a
      | None => k prev s caps
      end
  | Group r' =>
      rmatch A r' prev s caps (λ prev' s' caps',
        k prev' s' (caps' ++ [consumed s s']))
  | Look r' =>
      match rmatch unit r' prev s caps (λ _ _ _, Some tt) with
      | Some _ => k prev s caps
      | None => None
      end
  end.

(** A match: the position after it and the groups. *)
Definition match_at (r : regex) (prev : option ascii) (s : string)
    : option (option ascii * string * list string) :=
  rmatch _ r prev s [] (λ prev' s' caps, Some (prev', s', caps)).

(** The first match at or after the position [(prev, s)]: the text from its
    start on, the position after it and the groups. *)
Fixpoint search_from (r : regex) (prev : option ascii) (s : string)
    : option (string * (option ascii * string * list string)) :=
  match match_at r prev s with
  | Some m => Some (s, m)
  | None =>
      match s with
      | EmptyString => None
      | String c s' => search_from r (Some c) s'
      end
  end.

(** [p.findall(s)]: the groups of the successive matches; an empty match
    moves one character on. *)
Fixpoint findall_go (n : nat) (r : regex) (prev : option ascii) (s : string)
    : list (list string) :=
  match n with
  | 0 => []
  | S n' =>
      match search_from r prev s with
      | None => []
      | Some (start, (prev', s', caps)) =>
          if decide (String.length s' < String.length start)
          then caps :: findall_go n' r prev' s'
          else match start with
               | EmptyString => [caps]
               | String c t => caps :: findall_go n' r (Some c) t
               end
      end
  end.

Definition findall (r : regex) (s : string) : list (list string) :=
  findall_go (S (String.length s)) r None s.

(** [re.sub(p, repl, s)] for a replacement text without group references. *)
Fixpoint sub_go (n : nat) (r : regex) (repl : string) (prev : option ascii)
    (s : string) : string :=
  match n with
  | 0 => s
  | S n' =>
      match search_from r prev s with
      | None => s
      | Some (start, (prev', s', _)) =>
          consumed s start +:+ repl +:+
          (if decide (String.length s' < String.length start)
           then sub_go n' r repl prev' s'
           else match start with
                | EmptyString => EmptyString
                | String c t => String c (sub_go n' r repl (Some c) t)
                end)
      end
  end.

Definition sub (r : regex) (repl s : string) : string :=
  sub_go (S (String.length s)) r repl None s.

Definition pair_of_groups (caps : list string) : option (string * string) :=
  match caps with
  | [a; b] => Some (a, b)
  | _ => None
  end.

#[global] Instance runtime : Runtime := {|
  str_lower := lower;
  str_strip := strip;
  str_rstrip := rstrip;
  str_replace := replace;
  str_splitlines := splitlines;
  str_split := split;
  py_int := int;
  re_match := λ r s, bool_decide (is_Some (match_at r None s));
  re_search := λ r s, bool_decide (is_Some (search_from r None s));
  re_search1 := λ r s, m ← search_from r None s; m.2.2 !! 0;
  re_findall2 := λ r s, omap pair_of_groups (findall r s);
  re_sub := sub;
  path_splitext_ext := splitext_ext;
  path_join := join
|}.

End PyAscii.

(** ** Concrete runs *)

(** Two orders of iteration: the order of [elements] and its reverse. *)
#[export] Instance elements_order : SetOrder :=
  {| iter_set := elements; iter_set_perm := λ s, reflexivity (elements s) |}.

Definition reverse_order : SetOrder :=
  {| iter_set := λ s, reverse (elements s);
     iter_set_perm := λ s, reverse_Permutation (elements s) |}.

(** A disk with one directory [root] that holds the given files (name and
    text); no other path can be read. *)
Definition disk (root : string) (entries : list (string * string)) : FileSystem :=
  {| os_walk := λ r, if decide (r = root) then [(root, entries.*1)] else [];
     read_text := λ p,
       (list_to_map ((λ e : string * string, (PyAscii.join root e.1, e.2))
                       <$> entries) : gmap string string) !! p |}.

(** A disk without any file: every root is empty or does not exist. *)
Definition empty_disk : FileSystem :=
  {| os_walk := λ _, []; read_text := λ _, None |}.

Definition newline : string := String "010" "".

(** Two jobs that feed each other: [db.a] is written from [db.b] and [db.b]
    from [db.a]. *)
Definition cycle_disk : FileSystem :=
  disk "jobs"
    [("a.py", "spark.table('db.b').write.insertInto('db.a', overwrite=True)");
     ("b.py", "spark.table('db.a').write.insertInto('db.b', overwrite=True)")].

(** Two scripts that both declare the output table [rpt.t] in their header,
    one reading [src.x] and the other [src.y]. *)
Definition two_writers_disk : FileSystem :=
  disk "etl"
    [("load_x.py",
      "# Output table(s):" +:+ newline +:+
      "#   rpt.t" +:+ newline +:+
      "df = spark.table('src.x')" +:+ newline);
     ("load_y.py",
      "# Output table(s):" +:+ newline +:+
      "#   rpt.t" +:+ newline +:+
      "df = spark.table('src.y')" +:+ newline)].

(** A chain [rpt.a] from [base.b] from [dv.c] and a view over [rpt.a]. *)
Definition chain_disk : FileSystem :=
  disk "etl"
    [("a.py",
      "# Input tables:" +:+ newline +:+
      "#   base.b" +:+ newline +:+
      "# Output table(s):" +:+ newline +:+
      "#   rpt.a (append)" +:+ newline +:+
      "df = spark.table('base.b')" +:+ newline);
     ("b.py",
      "df = spark.table('dv.c')" +:+ newline +:+
      "df.write.insertInto('base.b', overwrite=True)" +:+ newline);
     ("v.sql",
      "CREATE VIEW rpt.v_a AS SELECT * FROM rpt.a" +:+ newline)].

(** A family of corpora without bound: one script that reads the tables
    [d.t], [d.t0], [d.t00], ... ([N + 1] of them) and writes each of them
    back. *)
Fixpoint zeros (n : nat) : string :=
  match n with
  | 0 => EmptyString
  | S n' => String "0" (zeros n')
  end.

Definition tname (i : nat) : string := String "t" (zeros i).
Definition clique_table (i : nat) : string := "d." +:+ tname i.

Definition read_line (i : nat) : string :=
  "x = spark.table('d." +:+ tname i +:+ "')" +:+ newline.
Definition write_line (i : nat) : string :=
  "x.write.insertInto('d." +:+ tname i +:+ "', overwrite=True)" +:+ newline.

(** The lower-cased text of a [write_line]. *)
Definition write_line_l (i : nat) : string :=
  "x.write.insertinto('d." +:+ tname i +:+ "', overwrite=true)" +:+ newline.

Definition join_lines (lines : list string) : string :=
  foldr String.append EmptyString lines.

Definition clique_text (N : nat) : string :=
  join_lines (read_line <$> seq 0 (S N)) +:+ join_lines (write_line <$> seq 0 (S N)).

Definition clique_disk (N : nat) : FileSystem :=
  disk "etl" [("copy.py", clique_text N)].

(** The files, the writer and the tables of [clique_disk N]. *)
Definition clique_files : list string := ["etl/copy.py"].
Definition clique_writer : WriterInfo := mkWriterInfo "etl/copy.py" "spark".
Definition clique_tables (N : nat) : gset string :=
  list_to_set (clique_table <$> seq 0 (S N)).

(** The character before the position that follows the text [l], when
    [prev] is the character before [l]. *)
Fixpoint last_char (prev : option ascii) (l : string) : option ascii :=
  match l with
  | EmptyString => prev
  | String c l' => last_char (Some c) l'
  end.

(** The file lists and the writer indexes of the corpora above. *)
Definition cycle_files : list string := ["jobs/a.py"; "jobs/b.py"].
Definition cycle_index : gmap string (list WriterInfo) :=
  @index_writers PyAscii.runtime cycle_disk elements_order cycle_files.

Definition two_writers_files : list string := ["etl/load_x.py"; "etl/load_y.py"].
Definition two_writers_index : gmap string (list WriterInfo) :=
  @index_writers PyAscii.runtime two_writers_disk elements_order two_writers_files.

Definition chain_files : list string := ["etl/a.py"; "etl/b.py"; "etl/v.sql"].
Definition chain_index : gmap string (list WriterInfo) :=
  @index_writers PyAscii.runtime chain_disk elements_order chain_files.



(** The two writers of [rpt.t] in [two_writers_disk]. *)
Definition load_x : WriterInfo := mkWriterInfo "etl/load_x.py" "spark".
Definition load_y : WriterInfo := mkWriterInfo "etl/load_y.py" "spark".


(** ** The remaining helpers of the script and vocabulary for their properties *)

Section TracerMore.
Context `{RT : Runtime} `{FS : FileSystem}.

(** Step 2 of [tracer]: the list [raw_targets]. *)
Definition raw_targets (targets : option string) : list string :=
  match targets with
  | Some s =>
      if bool_decide (s ≠ "")
      then List.filter (λ x, bool_decide (x ≠ "")) (str_strip <$> split_comma s)
      else default_raw_targets
  | None => default_raw_targets
  end.

(** What the loop of [index_writers] appends to the entry of the key [k]
    for the file [p]. *)
Definition index_contribution (p k : string) : list WriterInfo :=
  match read_text p with
  | None => []
  | Some text =>
      (if bool_decide (k ∈ declared_outputs text) && contains_dot k
       then [mkWriterInfo p "spark"] else [])
      ++ (if bool_decide (str_lower (path_splitext_ext p) = ".sql"
                          ∧ parse_view_name text = Some k ∧ k ≠ ""
                          ∧ contains_dot k = true)
          then [mkWriterInfo p "view"] else [])
  end.

(** The tables that the writers of the canonical table [s] read. *)
Definition upstreams_of (files : list string)
    (index : gmap string (list WriterInfo)) (s : string) : gset string :=
  union_upstreams (find_writers_for_table s files index).

(** The terminal rule of [dfs_lineage_paths]: no writer, or no upstream. *)
Definition is_source (files : list string)
    (index : gmap string (list WriterInfo)) (s : string) : Prop :=
  find_writers_for_table s files index = [] ∨ upstreams_of files index s = ∅.

(** The walks from the canonical table [s] below the stack [visited]: a walk
    stops at a table of the stack or at a source, and otherwise goes on to
    the canonical name of an upstream table, with [s] put on the stack. *)
Inductive lineage_walk (files : list string)
    (index : gmap string (list WriterInfo))
    : list string → string → list string → Prop :=
| walk_cut visited s :
    s ∈ visited → lineage_walk files index visited s [s]
| walk_source visited s :
    s ∉ visited → is_source files index s → lineage_walk files index visited s [s]
| walk_step visited s x p :
    s ∉ visited → ¬ is_source files index s → x ∈ upstreams_of files index s →
    lineage_walk files index (visited ++ [s]) (str_lower x) p →
    lineage_walk files index visited s (s :: p).

(** The condition under which the inner loop of
    [parse_output_tables_from_header] consumes a line. *)
Definition section_line (line : string * string) : bool :=
  _is_comment_or_blank line.1
  && negb (_is_section_break line.2 && negb (_is_output_header line.2)).

(** The [db.tbl] tokens of a normalised line. *)
Definition line_tables (norm : string) : list string :=
  (λ m : string * string, m.1 +:+ "." +:+ m.2) <$> re_findall2 RE_FQTN_INLINE_L norm.

(** The lines of a text, raw and normalised. *)
Definition header_lines (text : string) : list (string * string) :=
  let raw_lines := str_splitlines text in
  zip raw_lines (_normalize_line <$> raw_lines).

End TracerMore.

(** The record that [write_csv] writes for the row of a path [p] of the
    target [target] when the header has [max_layer] Layer columns. *)
Definition path_record (max_layer : nat) (target : string) (p : list string)
    : list string :=
  let inter := drop 1 (take (length p - 1) p) in
  target :: inter ++ replicate (max_layer - length inter) "" ++ [default "" (last p)].

(** The header with [max_layer] Layer columns. *)
Definition csv_header (max_layer : nat) : list string :=
  ["Target Table"] ++ (layer_key <$> seq 1 max_layer) ++ ["Source Table"].

(** The largest number of intermediate tables of a path. *)
Definition max_inter (paths : list (list string)) : nat :=
  foldr (λ p m, (length p - 2) `max` m) 0 paths.

(** ** What a pattern can consume and capture *)

(** Every character of [s] satisfies [Q]. *)
Fixpoint all_chars (Q : ascii → bool) (s : string) : bool :=
  match s with
  | EmptyString => true
  | String c s' => Q c && all_chars Q s'
  end.

(** The characters of the class [[a-z0-9_]] of the patterns. *)
Definition ident_char (c : ascii) : bool :=
  PyAscii.cls_matches [CRange "a" "z"; CRange "0" "9"; CChar "_"] c.

(** A non-empty text of such characters. *)
Definition is_ident (s : string) : bool :=
  all_chars ident_char s && bool_decide (s ≠ "").

(** The characters of a qualified name: those of [[a-z0-9_]] and the dot. *)
Definition name_char (c : ascii) : bool :=
  ident_char c || bool_decide (c = "."%char).

(** Every character that a match of [r] consumes satisfies [Q]. *)
Fixpoint only_chars (Q : ascii → bool) (r : regex) : Prop :=
  match r with
  | Lit l => all_chars Q l = true
  | Cls items => ∀ c, PyAscii.cls_matches items c = true → Q c = true
  | Bol | Eol | WordB | Look _ => True
  | Seq r1 r2 | Alt r1 r2 => only_chars Q r1 ∧ only_chars Q r2
  | Star r' | Opt r' | Group r' => only_chars Q r'
  end.

(** A number of characters that every match of [r] consumes at least. *)
Fixpoint min_len (r : regex) : nat :=
  match r with
  | Lit l => String.length l
  | Cls _ => 1
  | Seq r1 r2 => min_len r1 + min_len r2
  | Alt r1 r2 => min_len r1 `min` min_len r2
  | Group r' => min_len r'
  | Bol | Eol | WordB | Look _ | Star _ | Opt _ => 0
  end.

(** Every group of [r] (outside a lookahead) captures at least [n]
    characters, all of which satisfy [Q]. *)
Fixpoint groups_ok (Q : ascii → bool) (n : nat) (r : regex) : Prop :=
  match r with
  | Group r' => only_chars Q r' ∧ n ≤ min_len r' ∧ groups_ok Q n r'
  | Seq r1 r2 | Alt r1 r2 => groups_ok Q n r1 ∧ groups_ok Q n r2
  | Star r' | Opt r' => groups_ok Q n r'
  | Lit _ | Cls _ | Bol | Eol | WordB | Look _ => True
  end.

(** * Properties *)

(** ** Lists, sets and their order *)

Section ListFacts.
Context {A : Type} `{EqDecision A}.

Lemma elem_of_dedup_first (l : list A) (x : A) : x ∈ dedup_first l ↔ x ∈ l.
Proof.
  induction l as [|y l IH]; simpl; [done|].
  rewrite !elem_of_cons, list_elem_of_filter, IH.
  destruct (decide (x = y)); naive_solver.
Qed.


Lemma dedup_first_nil (l : list A) : dedup_first l = [] ↔ l = [].
Proof. destruct l; simpl; naive_solver. Qed.

End ListFacts.

Lemma elem_of_iter_set `{SetOrder} (s : gset string) (x : string) :
  x ∈ iter_set s ↔ x ∈ s.
Proof. by rewrite (iter_set_perm s), elem_of_elements. Qed.

Lemma NoDup_iter_set `{SetOrder} (s : gset string) : NoDup (iter_set s).
Proof. rewrite (iter_set_perm s). apply NoDup_elements. Qed.

Lemma elem_of_sorted `{SetOrder} (s : gset string) (x : string) :
  x ∈ sorted s ↔ x ∈ s.
Proof. unfold sorted. by rewrite merge_sort_Permutation, elem_of_iter_set. Qed.

Lemma NoDup_sorted `{SetOrder} (s : gset string) : NoDup (sorted s).
Proof. unfold sorted. rewrite merge_sort_Permutation. apply NoDup_iter_set. Qed.

Lemma Sorted_sorted `{SetOrder} (s : gset string) : Sorted String.le (sorted s).
Proof. apply (Sorted_merge_sort String.le). Qed.

(** [sorted] does not depend on the order in which the set is iterated. *)
Lemma sorted_order_irrel (O1 O2 : SetOrder) (s : gset string) :
  @sorted O1 s = @sorted O2 s.
Proof.
  apply (Sorted_unique String.le).
  - apply Sorted_sorted.
  - apply Sorted_sorted.
  - unfold sorted. rewrite !merge_sort_Permutation.
    by rewrite (@iter_set_perm O1), (@iter_set_perm O2).
Qed.

Lemma sorted_nil `{SetOrder} (s : gset string) : sorted s = [] ↔ s = ∅.
Proof.
  split.
  - intros Hs. apply set_eq. intros x. rewrite <- elem_of_sorted, Hs. set_solver.
  - intros ->. apply elem_of_nil_inv. intros x. rewrite elem_of_sorted. set_solver.
Qed.

Lemma length_sorted `{SetOrder} (s : gset string) : length (sorted s) = size s.
Proof.
  unfold sorted. rewrite merge_sort_Permutation, (iter_set_perm s). done.
Qed.

(** ** Writers and upstreams *)

Section WriterFacts.
Context `{RT : Runtime} `{FS : FileSystem}.

Lemma elem_of_candidates (files : list string) (fqtn p : string) :
  p ∈ filter_candidate_files_by_name files fqtn ↔
  p ∈ files ∧ ∃ text, read_text p = Some text
      ∧ re_search (word_boundary_pattern_fqtn fqtn) (str_lower text) = true.
Proof.
  unfold filter_candidate_files_by_name.
  rewrite list_elem_of_In, filter_In, <- list_elem_of_In.
  destruct (read_text p) as [text|]; split.
  - intros [? ?]; eauto.
  - intros [? (t & [= <-] & ?)]; eauto.
  - intros [? ?]; discriminate.
  - intros [? (t & ? & ?)]; discriminate.
Qed.

Lemma elem_of_direct_parse (fqtn p : string) (w : WriterInfo) :
  w ∈ direct_parse fqtn p ↔
  file_path w = p ∧ ∃ text, read_text p = Some text ∧
    ((kind w = "spark"
      ∧ fqtn ∈ (parse_output_tables_from_header text ∪ parse_insertinto_targets text))
     ∨ (kind w = "view"
        ∧ (fqtn ∉ parse_output_tables_from_header text ∪ parse_insertinto_targets text)
        ∧ parse_view_name text = Some fqtn)).
Proof.
  unfold direct_parse. destruct (read_text p) as [text|].
  - repeat case_bool_decide; rewrite ?list_elem_of_singleton, ?elem_of_nil.
    + split.
      * intros ->. simpl. eauto 10.
      * intros (<- & t & [= <-] & [[Hk _]|(_ & Hn & _)]); [|done].
        destruct w; simpl in *; by subst.
    + split.
      * intros ->. simpl. eauto 10.
      * intros (<- & t & [= <-] & [[_ ?]|(Hk & _ & _)]); [done|].
        destruct w; simpl in *; by subst.
    + split; [done|].
      intros (_ & t & [= <-] & [[_ ?]|(_ & _ & ?)]); done.
  - rewrite elem_of_nil. split; [done|]. intros (_ & t & ? & _). discriminate.
Qed.

(** Every writer that the lookup returns is one of the candidate files. *)
Lemma find_writers_candidates (fqtn : string) (files : list string)
    (index : gmap string (list WriterInfo)) (w : WriterInfo) :
  w ∈ find_writers_for_table fqtn files index →
  file_path w ∈ filter_candidate_files_by_name files (str_lower fqtn).
Proof.
  unfold find_writers_for_table. rewrite elem_of_dedup_first.
  case_bool_decide as Hnil.
  - rewrite list_elem_of_In, in_flat_map.
    intros (p & Hp & Hw). apply list_elem_of_In in Hp, Hw.
    apply elem_of_direct_parse in Hw as [-> _]. done.
  - destruct (index !! str_lower fqtn) as [ws|]; [|by rewrite elem_of_nil].
    rewrite list_elem_of_In, filter_In. intros [_ Hc].
    by apply bool_decide_eq_true in Hc.
Qed.

Lemma find_writers_files (fqtn : string) (files : list string)
    (index : gmap string (list WriterInfo)) (w : WriterInfo) :
  w ∈ find_writers_for_table fqtn files index → file_path w ∈ files.
Proof.
  intros Hw%find_writers_candidates. by apply elem_of_candidates in Hw as [? _].
Qed.

Lemma elem_of_all_upstreams (files : list string) (x : string) :
  x ∈ all_upstreams files ↔
  ∃ p text, p ∈ files ∧ read_text p = Some text
    ∧ x ∈ (extract_upstreams_from_spark text ∪ extract_upstreams_from_view text).
Proof.
  unfold all_upstreams. rewrite elem_of_union_list. split.
  - intros (X & HX & Hx). apply list_elem_of_fmap in HX as (p & -> & Hp).
    destruct (read_text p) as [text|] eqn:Hr; [eauto 6|set_solver].
  - intros (p & text & Hp & Hr & Hx). eexists. split.
    + apply list_elem_of_fmap. exists p. split; [reflexivity|done].
    + by rewrite Hr.
Qed.

Lemma get_upstreams_all (files : list string) (w : WriterInfo) :
  file_path w ∈ files → get_upstreams_for_writer w ⊆ all_upstreams files.
Proof.
  intros Hw x. unfold get_upstreams_for_writer.
  destruct (read_text (file_path w)) as [text|] eqn:Hr; [|set_solver].
  intros Hx. apply elem_of_all_upstreams. exists (file_path w), text.
  repeat case_bool_decide; set_solver.
Qed.

Lemma elem_of_union_upstreams (ws : list WriterInfo) (x : string) :
  x ∈ union_upstreams ws ↔ ∃ w, w ∈ ws ∧ x ∈ get_upstreams_for_writer w.
Proof.
  unfold union_upstreams.
  assert (∀ acc, x ∈ foldl (λ acc w, acc ∪ get_upstreams_for_writer w) acc ws
            ↔ x ∈ acc ∨ ∃ w, w ∈ ws ∧ x ∈ get_upstreams_for_writer w) as Hgen.
  { induction ws as [|w ws IH]; intros acc; simpl.
    - split; [auto|]. intros [?|(w & Hw & _)]; [done|]. by apply elem_of_nil in Hw.
    - rewrite IH, elem_of_union. split.
      + intros [[?|?]|(w' & ? & ?)]; [by left|right..].
        * exists w. split; [left|done].
        * exists w'. split; [by right|done].
      + intros [?|(w' & [->|?]%elem_of_cons & ?)]; [by left; left|by left; right|].
        right. eauto. }
  rewrite Hgen. set_solver.
Qed.

Lemma union_upstreams_all (fqtn : string) (files : list string)
    (index : gmap string (list WriterInfo)) :
  union_upstreams (find_writers_for_table fqtn files index) ⊆ all_upstreams files.
Proof.
  intros x (w & Hw & Hx)%elem_of_union_upstreams.
  eapply get_upstreams_all; [|done]. by eapply find_writers_files.
Qed.

Lemma elem_of_cache_names (cache : gmap string (gset string)) (x : string) :
  x ∈ cache_names cache ↔ ∃ k u, cache !! k = Some u ∧ x ∈ u.
Proof.
  unfold cache_names. rewrite elem_of_union_list. split.
  - intros (u & Hu & Hx). apply list_elem_of_fmap in Hu as ([k u'] & -> & Hk).
    apply elem_of_map_to_list in Hk. eauto.
  - intros (k & u & Hk & Hx). exists u. split; [|done].
    apply list_elem_of_fmap. exists (k, u). split; [done|].
    by apply elem_of_map_to_list.
Qed.

Lemma cache_names_insert (cache : gmap string (gset string)) (k : string)
    (u : gset string) :
  cache_names (<[k := u]> cache) ⊆ u ∪ cache_names cache.
Proof.
  intros x (k' & u' & Hk & Hx)%elem_of_cache_names.
  apply lookup_insert_Some in Hk as [[-> ->]|[_ Hk]]; [set_solver|].
  apply elem_of_union_r, elem_of_cache_names. eauto.
Qed.

Lemma cache_names_empty : cache_names ∅ = ∅.
Proof. reflexivity. Qed.

End WriterFacts.

(** ** The enumerator *)

Section DfsFacts.
Context `{RT : Runtime} `{FS : FileSystem}.

Abbreviation cache_t := (gmap string (gset string)).
Abbreviation result_t := (option (list (list string) * gmap string (gset string))).

(** One unfolding of [dfs_lineage_paths]. *)
Lemma dfs_unfold `{SetOrder} (fuel : nat) (start : string) (files : list string)
    (index : gmap string (list WriterInfo)) (visited : list string)
    (cache : cache_t) :
  dfs_lineage_paths (S fuel) start files index visited cache =
  let s := str_lower start in
  if bool_decide (s ∈ visited) then Some ([[s]], cache)
  else
    let writers := find_writers_for_table s files index in
    let u := default (union_upstreams writers) (cache !! s) in
    let cache' := match cache !! s with
                  | Some _ => cache
                  | None => <[s := u]> cache
                  end in
    if bool_decide (writers = []) || bool_decide (size u = 0)
    then Some ([[s]], cache')
    else branch_loop
           (λ up visited cache, dfs_lineage_paths fuel up files index visited cache)
           s visited (sorted u) [] cache'.
Proof. simpl. by destruct (cache !! str_lower start). Qed.

(** What the loop over the upstreams computes, for any recursive call
    [rec] that maintains a property [I] of the cache and returns sub-paths
    with a property [Q]. *)
Lemma branch_loop_inv (I : cache_t → Prop)
    (Q : string → list (list string) → Prop)
    (rec : string → list string → cache_t → result_t)
    (s : string) (visited : list string) (ups0 : list string) :
  (∀ up cache sub cache', up ∈ ups0 → I cache →
     rec up (visited ++ [s]) cache = Some (sub, cache') → I cache' ∧ Q up sub) →
  ∀ ups acc cache paths cache',
    ups ⊆ ups0 → I cache →
    branch_loop rec s visited ups acc cache = Some (paths, cache') →
    I cache' ∧ ∃ subs : list (list (list string)), Forall2 Q ups subs
                       ∧ paths = acc ++ concat ((λ sub : list (list string), cons s <$> sub) <$> subs).
Proof.
  intros Hrec. induction ups as [|up ups IH]; intros acc cache paths cache' Hsub HI; simpl.
  - intros [= <- <-]. split; [done|]. exists []. split; [constructor|].
    by rewrite app_nil_r.
  - destruct (rec up (visited ++ [s]) cache) as [[sub cache1]|] eqn:Hr; [|done].
    intros Hloop. destruct (Hrec up cache sub cache1) as [HI1 HQ]; [set_solver|done..|].
    apply IH in Hloop as [HI' (subs & HF & ->)]; [|set_solver|done].
    split; [done|]. exists (sub :: subs). split; [by constructor|].
    simpl. by rewrite app_assoc.
Qed.

(** The loop returns when every recursive call does. *)
Lemma branch_loop_returns (I : cache_t → Prop)
    (rec : string → list string → cache_t → result_t)
    (s : string) (visited : list string) (ups0 : list string) :
  (∀ up cache, up ∈ ups0 → I cache →
     ∃ sub cache', rec up (visited ++ [s]) cache = Some (sub, cache') ∧ I cache') →
  ∀ ups acc cache, ups ⊆ ups0 → I cache →
    ∃ paths cache', branch_loop rec s visited ups acc cache = Some (paths, cache')
                    ∧ I cache'.
Proof.
  intros Hrec. induction ups as [|up ups IH]; intros acc cache Hsub HI; simpl.
  - eauto.
  - destruct (Hrec up cache) as (sub & cache1 & -> & HI1); [set_solver|done|].
    apply IH; [set_solver|done].
Qed.

(** The loop only depends on the values of the recursive call. *)
Lemma branch_loop_ext (rec1 rec2 : string → list string → cache_t → result_t)
    (s : string) (visited : list string) :
  (∀ up v cache, rec1 up v cache = rec2 up v cache) →
  ∀ ups acc cache,
    branch_loop rec1 s visited ups acc cache = branch_loop rec2 s visited ups acc cache.
Proof.
  intros Hrec. induction ups as [|up ups IH]; intros acc cache; simpl; [done|].
  rewrite Hrec. destruct (rec2 up (visited ++ [s]) cache) as [[sub cache1]|]; [|done].
  apply IH.
Qed.

Lemma branch_loop_mono (rec1 rec2 : string → list string → cache_t → result_t)
    (s : string) (visited : list string) :
  (∀ up v cache r, rec1 up v cache = Some r → rec2 up v cache = Some r) →
  ∀ ups acc cache r,
    branch_loop rec1 s visited ups acc cache = Some r →
    branch_loop rec2 s visited ups acc cache = Some r.
Proof.
  intros Hrec. induction ups as [|up ups IH]; intros acc cache r; simpl; [done|].
  destruct (rec1 up (visited ++ [s]) cache) as [[sub cache1]|] eqn:Hr; [|done].
  rewrite (Hrec _ _ _ _ Hr). apply IH.
Qed.

Context `{ORD : SetOrder}.

(** More fuel does not change a result. *)
Lemma dfs_fuel_mono (fuel fuel' : nat) (start : string) (files : list string)
    (index : gmap string (list WriterInfo)) (visited : list string)
    (cache : cache_t) (r : list (list string) * cache_t) :
  fuel ≤ fuel' →
  dfs_lineage_paths fuel start files index visited cache = Some r →
  dfs_lineage_paths fuel' start files index visited cache = Some r.
Proof.
  revert fuel' start visited cache r.
  induction fuel as [|fuel IH]; intros fuel' start visited cache r Hle; [done|].
  destruct fuel' as [|fuel']; [lia|].
  rewrite !dfs_unfold. cbv zeta.
  case_bool_decide; [done|].
  destruct (_ || _); [done|].
  apply branch_loop_mono. intros up v c r'. apply IH. lia.
Qed.

(** A call leaves in the cache only names that were there or that the
    corpus names. *)
Lemma dfs_cache_names (fuel : nat) (start : string) (files : list string)
    (index : gmap string (list WriterInfo)) (visited : list string)
    (cache cache' : cache_t) (paths : list (list string)) :
  dfs_lineage_paths fuel start files index visited cache = Some (paths, cache') →
  cache_names cache' ⊆ all_upstreams files ∪ cache_names cache.
Proof.
  revert start visited cache cache' paths.
  induction fuel as [|fuel IH]; intros start visited cache cache' paths; [done|].
  rewrite dfs_unfold. cbv zeta. set (s := str_lower start).
  assert (cache_names (match cache !! s with
                       | Some _ => cache
                       | None => <[s := default (union_upstreams
                            (find_writers_for_table s files index)) (cache !! s)]> cache
                       end) ⊆ all_upstreams files ∪ cache_names cache) as Hstep.
  { destruct (cache !! s) eqn:Hc; [set_solver|]. simpl.
    etrans; [apply cache_names_insert|].
    pose proof (union_upstreams_all s files index). set_solver. }
  case_bool_decide; [intros [= <- <-]; set_solver|].
  destruct (_ || _); [intros [= <- <-]; done|].
  intros Hloop.
  assert (∀ up c sub c', up ∈ sorted (default (union_upstreams
              (find_writers_for_table s files index)) (cache !! s)) →
            cache_names c ⊆ all_upstreams files ∪ cache_names cache →
            dfs_lineage_paths fuel up files index (visited ++ [s]) c = Some (sub, c') →
            cache_names c' ⊆ all_upstreams files ∪ cache_names cache ∧ True) as Hrec.
  { intros up c sub c' _ Hc Hr. split; [|done]. apply IH in Hr. set_solver. }
  by destruct (branch_loop_inv
                 (λ c, cache_names c ⊆ all_upstreams files ∪ cache_names cache)
                 (λ _ _, True)
                 (λ up v c, dfs_lineage_paths fuel up files index v c)
                 s visited _ Hrec _ _ _ _ _ (reflexivity _) Hstep Hloop) as [HI _].
Qed.

(** *** Termination *)

(** [V] bounds the canonical names that can be visited; a call returns when
    its fuel exceeds the number of names of [V] not yet on the stack. *)
Lemma dfs_returns_aux (V : gset string) (files : list string)
    (index : gmap string (list WriterInfo)) :
  (∀ x, x ∈ all_upstreams files → str_lower x ∈ V) →
  ∀ fuel start visited cache,
    (∀ x, x ∈ cache_names cache → str_lower x ∈ V) →
    str_lower start ∈ V →
    size (V ∖ list_to_set visited) < fuel →
    ∃ paths cache',
      dfs_lineage_paths fuel start files index visited cache = Some (paths, cache').
Proof.
  intros HV. induction fuel as [|fuel IH]; intros start visited cache Hcache Hs Hsize;
    [lia|].
  rewrite dfs_unfold. cbv zeta. set (s := str_lower start) in *.
  case_bool_decide as Hvis; [eauto|].
  set (u := default _ (cache !! s)).
  set (cache1 := match cache !! s with Some _ => cache | None => _ end).
  assert (∀ x, x ∈ u → str_lower x ∈ V) as Hu.
  { intros x Hx. subst u. destruct (cache !! s) as [u'|] eqn:Hc; simpl in Hx.
    - apply Hcache, elem_of_cache_names. eauto.
    - by apply HV, (union_upstreams_all s files index). }
  assert (∀ x, x ∈ cache_names cache1 → str_lower x ∈ V) as Hcache1.
  { intros x Hx. subst cache1. destruct (cache !! s) eqn:Hc; [by apply Hcache|].
    apply cache_names_insert in Hx. apply elem_of_union in Hx as [?|?]; auto. }
  destruct (_ || _); [eauto|].
  destruct (branch_loop_returns
              (λ c, ∀ x, x ∈ cache_names c → str_lower x ∈ V)
              (λ up v c, dfs_lineage_paths fuel up files index v c)
              s visited (sorted u)) with (ups := sorted u) (acc := @nil (list string))
              (cache := cache1)
    as (paths & cache' & Hloop & _); [|done|done|eauto].
  intros up c Hup Hc. apply elem_of_sorted in Hup.
  destruct (IH up (visited ++ [s]) c) as (sub & c' & Hr); [done|by apply Hu| |].
  - assert (V ∖ list_to_set (visited ++ [s]) ⊂ V ∖ list_to_set visited) as Hlt.
    { apply strict_spec_alt. split.
      - rewrite list_to_set_app_L. set_solver.
      - intros Heq. assert (s ∈ V ∖ list_to_set visited) as Hin by set_solver.
        rewrite <- Heq in Hin. rewrite list_to_set_app_L in Hin. set_solver. }
    apply subset_size in Hlt. lia.
  - exists sub, c'. split; [done|].
    intros x Hx. apply dfs_cache_names in Hr. apply Hr in Hx.
    apply elem_of_union in Hx as [?|?]; auto.
Qed.

Lemma reachable_names_upstream (start : string) (files : list string)
    (cache : cache_t) (x : string) :
  x ∈ all_upstreams files ∪ cache_names cache →
  str_lower x ∈ reachable_names start files cache.
Proof.
  intros Hx. unfold reachable_names. apply elem_of_union_r, elem_of_map. eauto.
Qed.

(** The call returns with the fuel [lineage_fuel], and with any larger one. *)
Lemma dfs_returns (fuel : nat) (start : string) (files : list string)
    (index : gmap string (list WriterInfo)) (visited : list string)
    (cache : cache_t) :
  lineage_fuel start files cache ≤ fuel →
  ∃ paths cache',
    dfs_lineage_paths fuel start files index visited cache = Some (paths, cache').
Proof.
  intros Hfuel.
  destruct (dfs_returns_aux (reachable_names start files cache) files index)
    with (fuel := lineage_fuel start files cache) (start := start)
         (visited := visited) (cache := cache) as (paths & cache' & Hr).
  - intros x Hx. apply reachable_names_upstream. set_solver.
  - intros x Hx. apply reachable_names_upstream. set_solver.
  - unfold reachable_names. set_solver.
  - unfold lineage_fuel.
    assert (reachable_names start files cache ∖ list_to_set visited
            ⊆ reachable_names start files cache) as Hle by set_solver.
    apply subseteq_size in Hle. lia.
  - exists paths, cache'. eapply dfs_fuel_mono; done.
Qed.

End DfsFacts.

Section PathFacts.
Context `{RT : Runtime} `{FS : FileSystem} `{ORD : SetOrder}.

(** Induction over the calls behind a result: a property [P] of (stack,
    canonical table, returned paths) holds of every result when it holds of
    the one-element answer of a cut or terminal call and is passed on by the
    branching step.  [U0] is any set that holds the names of the corpus and
    of the cache. *)
Lemma dfs_paths_ind (U0 : gset string) (files : list string)
    (index : gmap string (list WriterInfo))
    (P : list string → string → list (list string) → Prop) :
  (∀ visited s, P visited s [[s]]) →
  (∀ visited s ups (subs : list (list (list string))),
     s ∉ visited → ups ≠ [] → NoDup ups → (∀ up, up ∈ ups → up ∈ U0) →
     Forall2 (λ up sub, P (visited ++ [s]) (str_lower up) sub) ups subs →
     P visited s (concat ((λ sub : list (list string), cons s <$> sub) <$> subs))) →
  ∀ fuel start visited cache paths cache',
    all_upstreams files ∪ cache_names cache ⊆ U0 →
    dfs_lineage_paths fuel start files index visited cache = Some (paths, cache') →
    P visited (str_lower start) paths.
Proof.
  intros Hone Hbranch.
  induction fuel as [|fuel IH]; intros start visited cache paths cache' HU; [done|].
  rewrite dfs_unfold. cbv zeta. set (s := str_lower start).
  case_bool_decide as Hvis; [intros [= <- <-]; apply Hone|].
  set (u := default _ (cache !! s)).
  set (cache1 := match cache !! s with Some _ => cache | None => _ end).
  assert (u ⊆ U0) as Hu.
  { subst u. destruct (cache !! s) as [u'|] eqn:Hc; simpl.
    - intros x Hx. apply HU, elem_of_union_r, elem_of_cache_names. eauto.
    - pose proof (union_upstreams_all s files index). set_solver. }
  assert (all_upstreams files ∪ cache_names cache1 ⊆ U0) as HU1.
  { subst cache1. destruct (cache !! s) eqn:Hc; [done|].
    pose proof (cache_names_insert cache s u). set_solver. }
  case_bool_decide as Hw; simpl; [intros [= <- <-]; apply Hone|].
  case_bool_decide as Hsz; simpl; [intros [= <- <-]; apply Hone|].
  intros Hloop.
  assert (∀ up c sub c', up ∈ sorted u →
            all_upstreams files ∪ cache_names c ⊆ U0 →
            dfs_lineage_paths fuel up files index (visited ++ [s]) c = Some (sub, c') →
            all_upstreams files ∪ cache_names c' ⊆ U0
            ∧ P (visited ++ [s]) (str_lower up) sub) as Hrec.
  { intros up c sub c' _ Hc Hr. split.
    - apply dfs_cache_names in Hr. set_solver.
    - by eapply IH. }
  destruct (branch_loop_inv
              (λ c, all_upstreams files ∪ cache_names c ⊆ U0)
              (λ up sub, P (visited ++ [s]) (str_lower up) sub)
              (λ up v c, dfs_lineage_paths fuel up files index v c)
              s visited (sorted u) Hrec (sorted u) [] cache1 paths cache')
    as [_ (subs & HF & ->)]; [done..|].
  simpl. apply (Hbranch visited s (sorted u) subs); [done| |apply NoDup_sorted| |done].
  - rewrite sorted_nil. intros Hemp. by rewrite Hemp, size_empty in Hsz.
  - intros up Hup%elem_of_sorted. by apply Hu.
Qed.

Lemma elem_of_concat {A} (ls : list (list A)) (x : A) :
  x ∈ concat ls ↔ ∃ l, x ∈ l ∧ l ∈ ls.
Proof.
  induction ls as [|l ls IH]; simpl.
  - split; [by intros ?%elem_of_nil|]. by intros (l & _ & ?%elem_of_nil).
  - rewrite elem_of_app, IH. split.
    + intros [?|(l' & ? & ?)]; [exists l|exists l']; split; try done; by constructor.
    + intros (l' & Hx & [->|?]%elem_of_cons); [by left|right; eauto].
Qed.

(** Membership in the concatenation that the branching step returns. *)
Lemma elem_of_branch_paths (Q : string → list (list string) → Prop)
    (s : string) (ups : list string) (subs : list (list (list string)))
    (p : list string) :
  Forall2 Q ups subs →
  p ∈ concat ((λ sub : list (list string), cons s <$> sub) <$> subs) ↔
  ∃ up sub p', up ∈ ups ∧ Q up sub ∧ sub ∈ subs ∧ p' ∈ sub ∧ p = s :: p'.
Proof.
  intros HF. rewrite elem_of_concat. split.
  - intros (l & Hp & Hl). apply list_elem_of_fmap in Hl as (sub & -> & Hsub).
    apply list_elem_of_fmap in Hp as (p' & -> & Hp').
    apply list_elem_of_lookup in Hsub as [i Hi].
    destruct (Forall2_lookup_r _ _ _ _ _ HF Hi) as (up & Hup & HQ).
    exists up, sub, p'. split_and!; try done.
    + by eapply list_elem_of_lookup_2.
    + by eapply list_elem_of_lookup_2.
  - intros (up & sub & p' & _ & _ & Hsub & Hp' & ->).
    exists (cons s <$> sub). split.
    + apply list_elem_of_fmap. eauto.
    + apply list_elem_of_fmap. eauto.
Qed.

Lemma removelast_cons_ne {A} (x : A) (l : list A) :
  l ≠ [] → removelast (x :: l) = x :: removelast l.
Proof. by destruct l. Qed.

Lemma elem_of_removelast {A} (l : list A) (x : A) : x ∈ removelast l → x ∈ l.
Proof.
  induction l as [|y [|z l] IH]; simpl; [done| |].
  - by intros ?%elem_of_nil.
  - intros [->|?]%elem_of_cons; [left|right; by apply IH].
Qed.

Lemma length_removelast {A} (l : list A) :
  l ≠ [] → length l = S (length (removelast l)).
Proof.
  induction l as [|y [|z l] IH]; intros Hne; simpl in *; [done|done|].
  f_equal. by apply IH.
Qed.

Lemma dfs_paths_ok (fuel : nat) (start : string) (files : list string)
    (index : gmap string (list WriterInfo)) (visited : list string)
    (cache cache' : gmap string (gset string)) (paths : list (list string)) :
  dfs_lineage_paths fuel start files index visited cache = Some (paths, cache') →
  paths ≠ [] ∧
  ∀ p, p ∈ paths →
    path_ok (all_upstreams files ∪ cache_names cache) visited (str_lower start) p.
Proof.
  set (U0 := all_upstreams files ∪ cache_names cache).
  apply (dfs_paths_ind U0 files index
           (λ visited s paths, paths ≠ [] ∧ ∀ p, p ∈ paths → path_ok U0 visited s p));
    [| |done].
  - intros v s. split; [done|]. intros p ->%list_elem_of_singleton.
    exists []. split_and!; simpl; [done|constructor|..].
    + by intros x ?%elem_of_nil.
    + by intros x ?%elem_of_nil.
  - intros v s ups subs Hs Hne Hnd HU HF. split.
    + destruct HF as [|up sub ups' subs' [Hsub _] _]; [done|].
      simpl. destruct sub; [done|]. done.
    + intros p Hp.
      apply (elem_of_branch_paths _ s ups subs p HF) in Hp
        as (up & sub & p' & Hup & [_ Hok] & _ & Hp' & ->).
      destruct (Hok p' Hp') as (rest & -> & Hnd' & Hv & Hnames).
      exists (str_lower up :: rest). split; [done|].
      rewrite removelast_cons_ne by done. split_and!.
      * constructor; [|done]. intros Hin. apply Hv in Hin. set_solver.
      * intros x [->|Hx]%elem_of_cons; [done|]. apply Hv in Hx. set_solver.
      * intros x [->|Hx]%elem_of_cons; [|by apply Hnames].
        exists up. split; [by apply HU|done].
Qed.

(** Every returned path is at most as long as the depth [lineage_fuel]. *)
Lemma dfs_path_length (fuel : nat) (start : string) (files : list string)
    (index : gmap string (list WriterInfo)) (visited : list string)
    (cache cache' : gmap string (gset string)) (paths : list (list string))
    (p : list string) :
  dfs_lineage_paths fuel start files index visited cache = Some (paths, cache') →
  p ∈ paths → 1 ≤ length p ≤ lineage_fuel start files cache.
Proof.
  intros Hr Hp. apply dfs_paths_ok in Hr as [_ Hok].
  destruct (Hok p Hp) as (rest & -> & Hnd & _ & Hnames). split; [simpl; lia|].
  rewrite (length_removelast (str_lower start :: rest)) by done.
  unfold lineage_fuel. apply le_n_S.
  assert (list_to_set (removelast (str_lower start :: rest))
          ⊆ reachable_names start files cache) as Hsub.
  { intros x Hx%elem_of_list_to_set%elem_of_removelast.
    apply elem_of_cons in Hx as [->|Hx]; [unfold reachable_names; set_solver|].
    destruct (Hnames x Hx) as (y & Hy & ->). by apply reachable_names_upstream. }
  apply subseteq_size in Hsub. by rewrite size_list_to_set in Hsub.
Qed.

(** A call on a table of the stack returns at once. *)
Lemma dfs_cut (fuel : nat) (start : string) (files : list string)
    (index : gmap string (list WriterInfo)) (visited : list string)
    (cache : gmap string (gset string)) :
  str_lower start ∈ visited →
  dfs_lineage_paths (S fuel) start files index visited cache
  = Some ([[str_lower start]], cache).
Proof. intros Hin. rewrite dfs_unfold. cbv zeta. by rewrite bool_decide_eq_true_2. Qed.

(** Every returned path starts with the canonical name of the target. *)
Lemma dfs_paths_head (fuel : nat) (start : string) (files : list string)
    (index : gmap string (list WriterInfo)) (visited : list string)
    (cache cache' : gmap string (gset string)) (paths : list (list string))
    (p : list string) :
  dfs_lineage_paths fuel start files index visited cache = Some (paths, cache') →
  p ∈ paths → p !! 0 = Some (str_lower start).
Proof.
  intros Hr Hp. apply dfs_paths_ok in Hr as [_ Hok].
  by destruct (Hok p Hp) as (rest & -> & _).
Qed.

(** The second elements of the paths that a call returns for a table that is
    neither on the stack nor in the cache are exactly the canonical names of
    the tables that some writer of the table reads. *)
Lemma dfs_second_elements (fuel : nat) (start : string) (files : list string)
    (index : gmap string (list WriterInfo)) (visited : list string)
    (cache cache' : gmap string (gset string)) (paths : list (list string))
    (y : string) :
  str_lower start ∉ visited → cache !! str_lower start = None →
  dfs_lineage_paths fuel start files index visited cache = Some (paths, cache') →
  (∃ p, p ∈ paths ∧ p !! 1 = Some y) ↔
  (∃ w x, w ∈ find_writers_for_table (str_lower start) files index
          ∧ x ∈ get_upstreams_for_writer w ∧ y = str_lower x).
Proof.
  intros Hvis Hmiss. destruct fuel as [|fuel]; [done|].
  rewrite dfs_unfold. cbv zeta. rewrite (bool_decide_eq_false_2 _ Hvis), Hmiss. simpl.
  set (s := str_lower start) in *.
  set (ws := find_writers_for_table s files index).
  set (u := union_upstreams ws).
  assert (∀ x, x ∈ u ↔ ∃ w, w ∈ ws ∧ x ∈ get_upstreams_for_writer w) as Hu
    by apply elem_of_union_upstreams.
  case_bool_decide as Hws; simpl.
  { intros [= <- <-]. split.
    - by intros (p & ->%list_elem_of_singleton & ?).
    - intros (w & x & Hw & _). rewrite Hws in Hw. by apply elem_of_nil in Hw. }
  case_bool_decide as Hsz; simpl.
  { intros [= <- <-]. split.
    - by intros (p & ->%list_elem_of_singleton & ?).
    - intros (w & x & Hw & Hx & _). apply size_empty_inv in Hsz.
      assert (x ∈ u) as Hxu by (apply Hu; eauto). by rewrite Hsz in Hxu. }
  intros Hloop.
  assert (∀ up c sub c', up ∈ sorted u → True →
            dfs_lineage_paths fuel up files index (visited ++ [s]) c = Some (sub, c') →
            True ∧ (sub ≠ [] ∧ ∀ p, p ∈ sub → p !! 0 = Some (str_lower up))) as Hrec.
  { intros up c sub c' _ _ Hr. split; [done|]. split.
    - by apply dfs_paths_ok in Hr as [? _].
    - intros p Hp. by eapply dfs_paths_head. }
  destruct (branch_loop_inv (λ _, True)
              (λ up sub, sub ≠ [] ∧ ∀ p, p ∈ sub → p !! 0 = Some (str_lower up))
              (λ up v c, dfs_lineage_paths fuel up files index v c)
              s visited (sorted u) Hrec (sorted u) [] (<[s := u]> cache) paths cache')
    as [_ (subs & HF & ->)]; [done..|].
  simpl. split.
  - intros (p & Hp & Hy).
    apply (elem_of_branch_paths _ s (sorted u) subs p HF) in Hp
      as (up & sub & p' & Hup & [_ Hhd] & _ & Hp' & ->).
    simpl in Hy. rewrite (Hhd p' Hp') in Hy. injection Hy as <-.
    apply elem_of_sorted, Hu in Hup as (w & Hw & Hx). eauto.
  - intros (w & x & Hw & Hx & ->).
    assert (x ∈ sorted u) as Hup by (apply elem_of_sorted, Hu; eauto).
    apply list_elem_of_lookup in Hup as [i Hi].
    destruct (Forall2_lookup_l _ _ _ _ _ HF Hi) as (sub & Hsub & Hne & Hhd).
    destruct sub as [|p' sub]; [done|].
    exists (s :: p'). split.
    + apply (elem_of_branch_paths _ s (sorted u) subs _ HF).
      exists x, (p' :: sub), p'. split_and!; try done.
      * by eapply list_elem_of_lookup_2.
      * by eapply list_elem_of_lookup_2.
      * by left.
    + simpl. apply Hhd. by left.
Qed.

(** The paths of a call that branches: the sub-paths of the upstream
    tables, taken in the order of [sorted], each with the table of the call
    in front. *)
Lemma dfs_branch_order (fuel : nat) (start : string) (files : list string)
    (index : gmap string (list WriterInfo)) (visited : list string)
    (cache cache' : gmap string (gset string)) (paths : list (list string)) :
  let s := str_lower start in
  let writers := find_writers_for_table s files index in
  let u := default (union_upstreams writers) (cache !! s) in
  s ∉ visited → writers ≠ [] → u ≠ ∅ →
  dfs_lineage_paths (S fuel) start files index visited cache = Some (paths, cache') →
  ∃ subs : list (list (list string)),
    Forall2 (λ up sub, ∃ c c', dfs_lineage_paths fuel up files index (visited ++ [s]) c
                               = Some (sub, c')) (sorted u) subs
    ∧ paths = concat ((λ sub : list (list string), cons s <$> sub) <$> subs).
Proof.
  intros s writers u Hvis Hws Hu. rewrite dfs_unfold. cbv zeta.
  fold s. fold writers. fold u.
  rewrite (bool_decide_eq_false_2 _ Hvis), (bool_decide_eq_false_2 _ Hws).
  rewrite (bool_decide_eq_false_2 (size u = 0));
    [|intros Hz%size_empty_inv; by apply Hu, leibniz_equiv].
  simpl. intros Hloop.
  assert (∀ up c sub c', up ∈ sorted u → True →
            dfs_lineage_paths fuel up files index (visited ++ [s]) c = Some (sub, c') →
            True ∧ ∃ c c', dfs_lineage_paths fuel up files index (visited ++ [s]) c
                           = Some (sub, c')) as Hrec by eauto.
  destruct (branch_loop_inv (λ _, True)
              (λ up sub, ∃ c c', dfs_lineage_paths fuel up files index (visited ++ [s]) c
                                 = Some (sub, c'))
              (λ up v c, dfs_lineage_paths fuel up files index v c)
              s visited (sorted u) Hrec (sorted u) [] _ paths cache' (reflexivity _) I Hloop)
    as [_ (subs & HF & ->)].
  eauto.
Qed.

(** A branch that is cut stays in the result of the caller: when a writer
    of the table of the call reads [x] and [x] is the table itself or on the
    stack, the caller returns the path of the two. *)
Lemma dfs_cut_branch (fuel : nat) (start : string) (files : list string)
    (index : gmap string (list WriterInfo)) (visited : list string)
    (cache cache' : gmap string (gset string)) (paths : list (list string))
    (w : WriterInfo) (x : string) :
  str_lower start ∉ visited → cache !! str_lower start = None →
  dfs_lineage_paths fuel start files index visited cache = Some (paths, cache') →
  w ∈ find_writers_for_table (str_lower start) files index →
  x ∈ get_upstreams_for_writer w →
  str_lower x ∈ visited ++ [str_lower start] →
  [str_lower start; str_lower x] ∈ paths.
Proof.
  intros Hvis Hmiss Hr Hw Hx Hcut. destruct fuel as [|fuel]; [done|].
  assert (x ∈ union_upstreams (find_writers_for_table (str_lower start) files index))
    as Hxu by (apply elem_of_union_upstreams; eauto).
  pose proof (dfs_branch_order fuel start files index visited cache cache' paths) as Hb.
  cbv zeta in Hb. rewrite Hmiss in Hb. simpl in Hb.
  destruct Hb as (subs & HF & ->); [done| | |done|].
  - intros Hemp. rewrite Hemp in Hw. by apply elem_of_nil in Hw.
  - intros Hemp. rewrite Hemp in Hxu. by apply elem_of_empty in Hxu.
  - apply elem_of_sorted, list_elem_of_lookup in Hxu as [i Hi].
    destruct (Forall2_lookup_l _ _ _ _ _ HF Hi) as (sub & Hsub & c & c' & Hcall).
    destruct fuel as [|fuel]; [done|]. rewrite dfs_cut in Hcall by done.
    injection Hcall as <- _.
    apply (elem_of_branch_paths _ (str_lower start) _ subs _ HF).
    exists x, [[str_lower x]], [str_lower x]. split_and!; [| | |by left|done].
    + by eapply list_elem_of_lookup_2.
    + exists c, c. by rewrite dfs_cut.
    + by eapply list_elem_of_lookup_2.
Qed.

End PathFacts.

(** ** Claims about the enumerator *)

Section EnumeratorClaims.
Context `{RT : Runtime} `{FS : FileSystem} `{ORD : SetOrder}.

(** C2. Path enumeration terminates on every corpus, index, stack and cache,
    cyclic or not: with the depth [lineage_fuel] (or more) the call returns a
    result.  When the table of the call is already on the stack of its
    ancestors, the result is the single one-element path of the canonical
    table and the cache is left as it was.  Only that branch is cut: a call
    on a table that is not on the stack (and not in the cache) returns a path
    through every table [x] that a writer of its table reads, and where the
    branch of [x] is cut, because [x] is the table itself or on the stack,
    that path is the table followed by [x]. *)
Theorem dfs_terminates_and_cuts_cycles (fuel : nat) (start : string)
    (files : list string) (index : gmap string (list WriterInfo))
    (visited : list string) (cache : gmap string (gset string)) :
  lineage_fuel start files cache ≤ fuel →
  ∃ paths cache',
    dfs_lineage_paths fuel start files index visited cache = Some (paths, cache')
    ∧ (str_lower start ∈ visited → paths = [[str_lower start]] ∧ cache' = cache)
    ∧ (str_lower start ∉ visited → cache !! str_lower start = None →
       ∀ w x, w ∈ find_writers_for_table (str_lower start) files index →
              x ∈ get_upstreams_for_writer w →
              (∃ p, p ∈ paths ∧ p !! 1 = Some (str_lower x))
              ∧ (str_lower x ∈ visited ++ [str_lower start] →
                 [str_lower start; str_lower x] ∈ paths)).
Proof.
  intros Hfuel.
  destruct (dfs_returns fuel start files index visited cache Hfuel)
    as (paths & cache' & Hr).
  exists paths, cache'. split_and!; [done| |].
  - intros Hin. destruct fuel as [|fuel]; [done|].
    rewrite dfs_cut in Hr by done. by injection Hr as <- <-.
  - intros Hvis Hmiss w x Hw Hx. split.
    + apply (dfs_second_elements fuel start files index visited cache cache' paths
               (str_lower x) Hvis Hmiss Hr). eauto.
    + intros Hcut. by eapply dfs_cut_branch.
Qed.

(** C3 (amended). Every returned path has no table twice among its elements
    before the last: they are pairwise distinct, and none of them is on the
    stack of the call.  Only the last element may repeat an earlier one; it
    does so where the branch was cut at a cycle. *)
Theorem dfs_paths_distinct_before_last (fuel : nat) (start : string)
    (files : list string) (index : gmap string (list WriterInfo))
    (visited : list string) (cache : gmap string (gset string)) :
  lineage_fuel start files cache ≤ fuel →
  ∃ paths cache',
    dfs_lineage_paths fuel start files index visited cache = Some (paths, cache')
    ∧ ∀ p, p ∈ paths →
        p ≠ [] ∧ NoDup (removelast p) ∧ ∀ x, x ∈ removelast p → x ∉ visited.
Proof.
  intros Hfuel.
  destruct (dfs_returns fuel start files index visited cache Hfuel)
    as (paths & cache' & Hr).
  exists paths, cache'. split; [done|]. intros p Hp.
  apply dfs_paths_ok in Hr as [_ Hok].
  destruct (Hok p Hp) as (rest & -> & Hnd & Hv & _). done.
Qed.

(** The row of a one-element path. *)
Lemma shape_path_singleton (target x : string) :
  shape_path target [x]
  = Some (<["Source Table" := x]> (<["Target Table" := target]> ∅)).
Proof. reflexivity. Qed.

(** C4. A canonical target without writers, or whose resolved upstream union
    (the cached one, else the union over its writers) is empty, is a source:
    the enumeration returns exactly the one path [[target]], and the shaper
    turns it into exactly one row whose Target and Source fields are the
    target and which has no other field, so no Layer field. *)
Theorem terminal_target_single_row (fuel : nat) (target : string)
    (files : list string) (index : gmap string (list WriterInfo))
    (visited : list string) (cache : gmap string (gset string)) :
  str_lower target = target →
  find_writers_for_table target files index = []
  ∨ default (union_upstreams (find_writers_for_table target files index))
            (cache !! target) = ∅ →
  (∃ cache', dfs_lineage_paths (S fuel) target files index visited cache
             = Some ([[target]], cache'))
  ∧ ∃ row : gmap string string,
      shape_paths_to_rows target [[target]] = Some [row]
      ∧ row !! "Target Table" = Some target
      ∧ row !! "Source Table" = Some target
      ∧ (∀ k, k ≠ "Target Table" → k ≠ "Source Table" → row !! k = None)
      ∧ (∀ i, row !! layer_key i = None).
Proof.
  intros Hcanon Hterm. split.
  - rewrite dfs_unfold. cbv zeta. rewrite Hcanon.
    case_bool_decide; [eauto|].
    destruct Hterm as [->| ->]; [eauto|].
    rewrite size_empty, (bool_decide_eq_true_2 (0 = 0)) by done.
    rewrite orb_true_r. eauto.
  - exists (<["Source Table" := target]> (<["Target Table" := target]> ∅)).
    split; [reflexivity|]. split_and!.
    + by rewrite lookup_insert_ne, lookup_insert_eq.
    + by rewrite lookup_insert_eq.
    + intros k H1 H2. by rewrite !lookup_insert_ne, lookup_empty.
    + intros i. by rewrite !lookup_insert_ne, lookup_empty.
Qed.

End EnumeratorClaims.

Section UnionClaim.
Context `{RT : Runtime} `{FS : FileSystem} `{ORD : SetOrder}.

(** C7. The upstream sets of all writers of a table are unioned before
    branching: when [w1] and [w2] are writers of [T], [w1] reads [X] and [w2]
    reads [Y], the enumeration of [T] returns a path through [X] and a path
    through [Y] (the path continues from [T] with the canonical name of the
    table); and every table that follows [T] in a returned path is read by
    some writer of [T]. *)
Theorem ambiguous_writers_unioned (fuel : nat) (T : string)
    (files : list string) (index : gmap string (list WriterInfo))
    (w1 w2 : WriterInfo) (X Y : string) :
  lineage_fuel T files ∅ ≤ fuel →
  w1 ∈ find_writers_for_table (str_lower T) files index →
  w2 ∈ find_writers_for_table (str_lower T) files index →
  X ∈ get_upstreams_for_writer w1 →
  Y ∈ get_upstreams_for_writer w2 →
  ∃ paths cache',
    dfs_lineage_paths fuel T files index [] ∅ = Some (paths, cache')
    ∧ (∃ p, p ∈ paths ∧ p !! 0 = Some (str_lower T) ∧ p !! 1 = Some (str_lower X))
    ∧ (∃ p, p ∈ paths ∧ p !! 0 = Some (str_lower T) ∧ p !! 1 = Some (str_lower Y))
    ∧ (∀ p y, p ∈ paths → p !! 1 = Some y →
         ∃ w x, w ∈ find_writers_for_table (str_lower T) files index
                ∧ x ∈ get_upstreams_for_writer w ∧ y = str_lower x).
Proof.
  intros Hfuel Hw1 Hw2 HX HY.
  destruct (dfs_returns fuel T files index [] ∅ Hfuel) as (paths & cache' & Hr).
  exists paths, cache'. split; [done|].
  pose proof (λ y, dfs_second_elements fuel T files index [] ∅ cache' paths y
                     (not_elem_of_nil _) (lookup_empty _) Hr) as Hsnd.
  split_and!.
  - destruct (proj2 (Hsnd (str_lower X))) as (p & Hp & H1); [eauto|].
    exists p. split_and!; [done| |done]. by eapply dfs_paths_head.
  - destruct (proj2 (Hsnd (str_lower Y))) as (p & Hp & H1); [eauto|].
    exists p. split_and!; [done| |done]. by eapply dfs_paths_head.
  - intros p y Hp Hy. apply Hsnd. eauto.
Qed.

End UnionClaim.

(** ** Determinism *)

Section Determinism.
Context `{RT : Runtime} `{FS : FileSystem}.

Lemma dfs_order_irrel (O1 O2 : SetOrder) (fuel : nat) (start : string)
    (files : list string) (index : gmap string (list WriterInfo))
    (visited : list string) (cache : gmap string (gset string)) :
  @dfs_lineage_paths _ _ O1 fuel start files index visited cache
  = @dfs_lineage_paths _ _ O2 fuel start files index visited cache.
Proof.
  revert start visited cache.
  induction fuel as [|fuel IH]; intros start visited cache; [done|].
  rewrite !dfs_unfold. cbv zeta.
  rewrite (sorted_order_irrel O1 O2).
  case_bool_decide; [done|]. destruct (_ || _); [done|].
  apply branch_loop_ext. intros up v c. apply IH.
Qed.

(** The index after the loop over the outputs of one file, key by key. *)
Lemma foldl_spark_lookup (p : string) (l : list string)
    (idx : gmap string (list WriterInfo)) (k : string) :
  NoDup l →
  foldl (λ idx fqtn,
           if contains_dot fqtn
           then index_append idx fqtn (mkWriterInfo p "spark")
           else idx) idx l !! k
  = if bool_decide (k ∈ l) && contains_dot k
    then Some (default [] (idx !! k) ++ [mkWriterInfo p "spark"])
    else idx !! k.
Proof.
  revert idx. induction l as [|x l IH]; intros idx Hnd; simpl; [done|].
  apply NoDup_cons in Hnd as [Hx Hnd]. rewrite IH by done.
  destruct (decide (k = x)) as [->|Hne].
  - rewrite (bool_decide_eq_false_2 _ Hx), (bool_decide_eq_true_2 (x ∈ x :: l))
      by left. simpl.
    destruct (contains_dot x); [|done].
    unfold index_append. by rewrite lookup_insert_eq.
  - assert (bool_decide (k ∈ x :: l) = bool_decide (k ∈ l)) as ->.
    { apply bool_decide_ext. rewrite elem_of_cons. naive_solver. }
    assert ((if contains_dot x then index_append idx x (mkWriterInfo p "spark")
             else idx) !! k = idx !! k) as ->; [|done].
    destruct (contains_dot x); [|done].
    unfold index_append. by rewrite lookup_insert_ne.
Qed.

(** The index after one file, key by key: independent of the set order. *)
Lemma index_file_lookup `{SetOrder} (idx : gmap string (list WriterInfo))
    (p k : string) :
  index_file idx p !! k =
  match read_text p with
  | None => idx !! k
  | Some text =>
      let outs := parse_output_tables_from_header text
                  ∪ parse_insertinto_targets text in
      let spark := if bool_decide (k ∈ outs) && contains_dot k
                   then Some (default [] (idx !! k) ++ [mkWriterInfo p "spark"])
                   else idx !! k in
      if bool_decide (str_lower (path_splitext_ext p) = ".sql"
                      ∧ parse_view_name text = Some k ∧ k ≠ ""
                      ∧ contains_dot k = true)
      then Some (default [] spark ++ [mkWriterInfo p "view"])
      else spark
  end.
Proof.
  unfold index_file. destruct (read_text p) as [text|]; [|done]. cbv zeta.
  set (outs := _ ∪ _).
  pose proof (foldl_spark_lookup p (iter_set outs) idx k (NoDup_iter_set outs)) as Hf.
  assert (bool_decide (k ∈ iter_set outs) = bool_decide (k ∈ outs)) as Heq
    by (apply bool_decide_ext, elem_of_iter_set).
  rewrite Heq in Hf. clear Heq.
  set (idx1 := foldl _ idx (iter_set outs)) in *.
  rewrite <- Hf. clear Hf.
  destruct (decide (str_lower (path_splitext_ext p) = ".sql")) as [Hext|Hext].
  - rewrite (bool_decide_eq_true_2 _ Hext).
    destruct (parse_view_name text) as [v|] eqn:Hv.
    + destruct (bool_decide (v ≠ "") && contains_dot v) eqn:Hok.
      * apply andb_true_iff in Hok as [Hv1%bool_decide_eq_true Hv2].
        unfold index_append. destruct (decide (k = v)) as [->|Hne].
        -- by rewrite lookup_insert_eq, bool_decide_eq_true_2 by done.
        -- rewrite lookup_insert_ne by done.
           rewrite bool_decide_eq_false_2 by naive_solver. done.
      * rewrite bool_decide_eq_false_2; [done|].
        intros (_ & [= ->] & Hk1 & Hk2).
        rewrite (bool_decide_eq_true_2 _ Hk1), Hk2 in Hok. done.
    + rewrite bool_decide_eq_false_2 by naive_solver. done.
  - rewrite (bool_decide_eq_false_2 _ Hext).
    rewrite bool_decide_eq_false_2 by naive_solver. done.
Qed.

Lemma index_writers_order_irrel (O1 O2 : SetOrder) (files : list string) :
  @index_writers _ _ O1 files = @index_writers _ _ O2 files.
Proof.
  unfold index_writers. generalize (∅ : gmap string (list WriterInfo)).
  induction files as [|p files IH]; intros idx; simpl; [done|].
  assert (@index_file _ _ O1 idx p = @index_file _ _ O2 idx p) as ->; [|apply IH].
  apply map_eq. intros k. by rewrite !index_file_lookup.
Qed.

Lemma lineage_rows_order_irrel (O1 O2 : SetOrder) (fuel : nat)
    (files : list string) (index : gmap string (list WriterInfo))
    (targets : list string) :
  @lineage_rows _ _ O1 fuel files index targets
  = @lineage_rows _ _ O2 fuel files index targets.
Proof.
  induction targets as [|t targets IH]; simpl; [done|].
  by rewrite (dfs_order_irrel O1 O2), IH.
Qed.

(** The whole run is the same under every set order. *)
Lemma tracer_order_irrel (O1 O2 : SetOrder) (fuel : nat) (root : string)
    (targets : option string) :
  @tracer _ _ O1 fuel root targets = @tracer _ _ O2 fuel root targets.
Proof.
  unfold tracer, resolve_targets, _expand_bare_table.
  rewrite (index_writers_order_irrel O1 O2).
  rewrite (lineage_rows_order_irrel O1 O2).
  rewrite (sorted_order_irrel O1 O2).
  set (f1 := flat_map _ _). set (f2 := flat_map _ _).
  assert (f1 = f2) as ->; [|done].
  subst f1 f2. apply flat_map_ext. intros t.
  by rewrite (sorted_order_irrel O1 O2).
Qed.

(** C6. Path enumeration is deterministic.  Two runs over the same corpus
    (file list, file contents) differ at most in the order in which the
    interpreter iterates over sets; whatever these orders [O1] and [O2] are,
    the two runs build the same writer index and every call of the
    enumerator returns the same list of paths and leaves the same cache.
    The reason is that a set is only ever traversed through [sorted], which
    lists its elements in increasing order whatever the set order is, and
    that a call that branches returns the sub-paths of its upstream tables
    in that order, each list after the other, with its own table in front. *)
Theorem enumeration_deterministic (O1 O2 : SetOrder) (fuel : nat)
    (files : list string) :
  @index_writers _ _ O1 files = @index_writers _ _ O2 files
  ∧ (∀ start index visited cache,
       @dfs_lineage_paths _ _ O1 fuel start files index visited cache
       = @dfs_lineage_paths _ _ O2 fuel start files index visited cache)
  ∧ (∀ s : gset string,
       @sorted O1 s = @sorted O2 s
       ∧ Sorted String.le (@sorted O1 s) ∧ NoDup (@sorted O1 s)
       ∧ ∀ x, x ∈ @sorted O1 s ↔ x ∈ s)
  ∧ (∀ start index visited cache paths cache',
       let s := str_lower start in
       let writers := find_writers_for_table s files index in
       let u := default (union_upstreams writers) (cache !! s) in
       s ∉ visited → writers ≠ [] → u ≠ ∅ →
       @dfs_lineage_paths _ _ O1 (S fuel) start files index visited cache
       = Some (paths, cache') →
       ∃ subs : list (list (list string)),
         Forall2 (λ up sub,
                    ∃ c c', @dfs_lineage_paths _ _ O1 fuel up files index
                              (visited ++ [s]) c = Some (sub, c'))
                 (@sorted O1 u) subs
         ∧ paths = concat ((λ sub : list (list string), cons s <$> sub) <$> subs)).
Proof.
  split_and!.
  - apply index_writers_order_irrel.
  - intros. apply dfs_order_irrel.
  - intros s. split_and!.
    + apply sorted_order_irrel.
    + apply Sorted_sorted.
    + apply NoDup_sorted.
    + intros x. apply elem_of_sorted.
  - intros start index visited cache paths cache' s writers u Hvis Hws Hu Hr.
    by apply (@dfs_branch_order _ _ O1) in Hr.
Qed.

End Determinism.

(** ** The shaper *)

Lemma layer_key_inj (i j : nat) : layer_key i = layer_key j → i = j.
Proof.
  unfold layer_key. intros Heq. apply (inj (String.app "Layer ")) in Heq.
  by apply (inj pretty) in Heq.
Qed.

Lemma layer_key_not_target (i : nat) : layer_key i ≠ "Target Table".
Proof. unfold layer_key. simpl. discriminate. Qed.

Lemma layer_key_not_source (i : nat) : layer_key i ≠ "Source Table".
Proof. unfold layer_key. simpl. discriminate. Qed.

(** The loop over [enumerate(inter, start=a)]: the fields it sets and the
    fields it leaves alone. *)
Lemma foldl_layers_other (row : gmap string string) (a : nat)
    (inter : list string) (k : string) :
  (∀ i, i < length inter → k ≠ layer_key (a + i)) →
  foldl (λ row (e : nat * string), <[layer_key e.1 := e.2]> row) row
        (zip (seq a (length inter)) inter) !! k = row !! k.
Proof.
  revert row a. induction inter as [|x inter IH]; intros row a Hk; simpl; [done|].
  rewrite IH.
  - rewrite lookup_insert_ne; [done|]. intros Heq.
    apply (Hk 0); [simpl; lia|]. by rewrite Nat.add_0_r.
  - intros i Hi. replace (S a + i) with (a + S i) by lia. apply Hk. simpl. lia.
Qed.

Lemma foldl_layers_lookup (row : gmap string string) (a : nat)
    (inter : list string) (i : nat) :
  i < length inter →
  foldl (λ row (e : nat * string), <[layer_key e.1 := e.2]> row) row
        (zip (seq a (length inter)) inter) !! layer_key (a + i) = inter !! i.
Proof.
  revert row a i. induction inter as [|x inter IH]; intros row a i Hi; simpl in *;
    [lia|].
  destruct i as [|i].
  - rewrite foldl_layers_other.
    + by rewrite Nat.add_0_r, lookup_insert_eq.
    + intros j _ Heq%layer_key_inj. lia.
  - replace (a + S i) with (S a + i) by lia. apply IH. lia.
Qed.

Lemma foldl_layers_is_Some (row : gmap string string) (a : nat)
    (inter : list string) (k : string) :
  is_Some (foldl (λ row (e : nat * string), <[layer_key e.1 := e.2]> row) row
                 (zip (seq a (length inter)) inter) !! k) →
  is_Some (row !! k) ∨ ∃ i, i < length inter ∧ k = layer_key (a + i).
Proof.
  revert row a. induction inter as [|x inter IH]; intros row a; simpl; [auto|].
  intros [Hk|(i & Hi & ->)]%IH.
  - destruct (decide (k = layer_key a)) as [->|Hne].
    + right. exists 0. split; [lia|]. by rewrite Nat.add_0_r.
    + rewrite lookup_insert_ne in Hk by done. by left.
  - right. exists (S i). split; [lia|]. f_equal. lia.
Qed.

Section ShaperClaim.
Context `{RT : Runtime} `{FS : FileSystem} `{ORD : SetOrder}.

(** C5. For a path [p] of length at least 2 the shaper emits exactly one
    row: its Target field is the target that the caller passed, its field
    Layer i is [p[i]] for every i from 1 to [len(p) - 2], its Source field is
    the last element of [p], and it has no other field.  The target agrees
    with [p[0]]: when the caller passes a canonical target, as [tracer] does,
    every path that the enumerator returns for it starts with the target. *)
Theorem shape_long_path (target : string) (p : list string) :
  2 ≤ length p →
  (∃ row : gmap string string,
     shape_paths_to_rows target [p] = Some [row]
     ∧ row !! "Target Table" = Some target
     ∧ (∀ i, 1 ≤ i ≤ length p - 2 →
          is_Some (p !! i) ∧ row !! layer_key i = p !! i)
     ∧ is_Some (last p) ∧ row !! "Source Table" = last p
     ∧ (∀ k, is_Some (row !! k) →
          k = "Target Table" ∨ k = "Source Table"
          ∨ ∃ i, 1 ≤ i ≤ length p - 2 ∧ k = layer_key i))
  ∧ (∀ fuel files index paths cache',
       str_lower target = target →
       dfs_lineage_paths fuel target files index [] ∅ = Some (paths, cache') →
       p ∈ paths → p !! 0 = Some target).
Proof.
  intros Hlen. split.
  2:{ intros fuel files index paths cache' Hcanon Hr Hp.
      pose proof (dfs_paths_head _ _ _ _ _ _ _ _ _ Hr Hp) as Hhead.
      by rewrite Hcanon in Hhead. }
  assert (is_Some (last p)) as [leaf Hleaf].
  { apply last_is_Some. intros ->. simpl in Hlen. lia. }
  set (inter := drop 1 (take (length p - 1) p)).
  assert (length inter = length p - 2) as Hinter.
  { subst inter. rewrite length_drop, length_take. lia. }
  set (row0 := <["Target Table" := target]> (∅ : gmap string string)).
  set (row1 := foldl (λ row (e : nat * string), <[layer_key e.1 := e.2]> row) row0
                 (zip (seq 1 (length inter)) inter)).
  exists (<["Source Table" := leaf]> row1).
  assert (shape_path target p = Some (<["Source Table" := leaf]> row1)) as Hshape.
  { unfold shape_path. rewrite bool_decide_eq_false_2 by lia.
    rewrite Hleaf. reflexivity. }
  split; [unfold shape_paths_to_rows; simpl; by rewrite Hshape|].
  split_and!.
  - rewrite lookup_insert_ne by done. subst row1.
    rewrite foldl_layers_other; [apply lookup_insert_eq|].
    intros i _ Heq. by eapply layer_key_not_target.
  - intros i [Hi1 Hi2]. split; [apply lookup_lt_is_Some; lia|].
    rewrite lookup_insert_ne by (intros Heq; by eapply layer_key_not_source).
    subst row1. replace i with (1 + (i - 1)) at 1 by lia.
    rewrite foldl_layers_lookup by lia.
    subst inter. rewrite lookup_drop, lookup_take_lt by lia. f_equal. lia.
  - eauto.
  - by rewrite lookup_insert_eq.
  - intros k Hk. destruct (decide (k = "Source Table")) as [->|Hs]; [by auto|].
    rewrite lookup_insert_ne in Hk by done.
    destruct (decide (k = "Target Table")) as [->|Ht]; [by auto|].
    right; right. subst row1.
    apply foldl_layers_is_Some in Hk as [Hk|(i & Hi & ->)].
    + subst row0. rewrite lookup_insert_ne, lookup_empty in Hk by done.
      by destruct Hk.
    + exists (1 + i). split; [lia|done].
Qed.

End ShaperClaim.

(** The shaper raises on no path that has an element. *)
Lemma shape_paths_returns (target : string) (paths : list (list string)) :
  (∀ p, p ∈ paths → p ≠ []) →
  ∃ rows, shape_paths_to_rows target paths = Some rows
          ∧ length rows = length paths.
Proof.
  intros Hne. unfold shape_paths_to_rows.
  assert (is_Some (mapM (shape_path target) paths)) as [rows Hrows].
  { apply mapM_is_Some, Forall_forall. intros p Hp. simpl.
    unfold shape_path. specialize (Hne p Hp).
    case_bool_decide.
    - destruct p as [|x p]; [done|]. simpl. eauto.
    - destruct (last_is_Some p) as [_ [leaf ->]]; [done|]. simpl. eauto. }
  exists rows. split; [done|].
  apply mapM_Some in Hrows. symmetry. by eapply Forall2_length.
Qed.

(** ** The CSV writer *)

(** C10. Called with an empty list of rows, the CSV writer still writes the
    header: the output consists of exactly one record, with the two columns
    Target Table and Source Table and no Layer column. *)
Theorem write_csv_empty_rows `{RT : Runtime} :
  write_csv [] = [["Target Table"; "Source Table"]]
  ∧ csv_columns [] = ["Target Table"; "Source Table"]
  ∧ ∀ i, layer_key i ∉ csv_columns [].
Proof.
  split_and!; [reflexivity..|].
  intros i. change (csv_columns []) with ["Target Table"; "Source Table"].
  rewrite !elem_of_cons, elem_of_nil.
  intros [H|[H|[]]]; [by eapply layer_key_not_target|by eapply layer_key_not_source].
Qed.

(** ** The writer lookup *)

Section LookupClaims.
Context `{RT : Runtime} `{FS : FileSystem}.

(** What [index_writers] registers: a 'spark' writer for every declared
    output (with a dot) of a readable file, a 'view' writer for the CREATE
    VIEW name (with a dot) of a readable [.sql] file. *)
Lemma elem_of_index_writers `{SetOrder} (files : list string) (k : string)
    (w : WriterInfo) :
  w ∈ default [] (index_writers files !! k) →
  file_path w ∈ files ∧ ∃ text, read_text (file_path w) = Some text
    ∧ ((kind w = "spark" ∧ k ∈ declared_outputs text)
       ∨ (kind w = "view" ∧ parse_view_name text = Some k)).
Proof.
  unfold index_writers.
  assert (∀ idx,
    w ∈ default [] (foldl index_file idx files !! k) →
    w ∈ default [] (idx !! k)
    ∨ (file_path w ∈ files ∧ ∃ text, read_text (file_path w) = Some text
       ∧ ((kind w = "spark" ∧ k ∈ declared_outputs text)
          ∨ (kind w = "view" ∧ parse_view_name text = Some k)))) as Hgen.
  { induction files as [|p files IH]; intros idx; simpl; [auto|].
    intros [Hw|(Hp & text & Hr & Hk)]%IH.
    - rewrite index_file_lookup in Hw.
      destruct (read_text p) as [text|] eqn:Hr; [|by left]. cbv zeta in Hw.
      fold (declared_outputs text) in Hw.
      assert (w ∈ default [] (if bool_decide (k ∈ declared_outputs text)
                                 && contains_dot k
                              then Some (default [] (idx !! k)
                                         ++ [mkWriterInfo p "spark"])
                              else idx !! k) →
              w ∈ default [] (idx !! k)
              ∨ (w = mkWriterInfo p "spark" ∧ k ∈ declared_outputs text)) as Hspark.
      { destruct (bool_decide _ && _) eqn:Hb; [|by left]. simpl.
        apply andb_true_iff in Hb as [Hb%bool_decide_eq_true _].
        intros [?| ->%list_elem_of_singleton]%elem_of_app; [by left|by right]. }
      destruct (bool_decide (_ ∧ _)) eqn:Hview.
      + apply bool_decide_eq_true in Hview as (_ & Hview & _).
        simpl in Hw. apply elem_of_app in Hw as [Hw| ->%list_elem_of_singleton].
        * apply Hspark in Hw as [?|[-> Hin]]; [by left|right].
          split; [by left|]. exists text. simpl. eauto.
        * right. split; [by left|]. exists text. simpl. eauto.
      + apply Hspark in Hw as [?|[-> Hin]]; [by left|right].
        split; [by left|]. exists text. simpl. eauto.
    - right. split; [by right|eauto]. }
  intros Hw. apply Hgen in Hw as [Hw|?]; [|done].
  rewrite lookup_empty in Hw. by apply elem_of_nil in Hw.
Qed.

(** The fallback applies the rules of the index: a candidate file that the
    index of the corpus lists as a writer of [t] is also found by the direct
    parse of the candidates. *)
Lemma fallback_covers_index `{SetOrder} (files : list string) (t : string)
    (w : WriterInfo) :
  w ∈ default [] (index_writers files !! t) →
  file_path w ∈ filter_candidate_files_by_name files t →
  ∃ w', w' ∈ flat_map (direct_parse t) (filter_candidate_files_by_name files t)
        ∧ file_path w' = file_path w.
Proof.
  intros (_ & text & Hr & Hk)%elem_of_index_writers Hcand.
  assert (∃ w', w' ∈ direct_parse t (file_path w) ∧ file_path w' = file_path w)
    as (w' & Hw' & Hp).
  { destruct (decide (t ∈ declared_outputs text)) as [Hin|Hout].
    - exists (mkWriterInfo (file_path w) "spark"). split; [|done].
      apply elem_of_direct_parse. simpl. eauto 10.
    - destruct Hk as [[_ ?]|[_ Hview]]; [done|].
      exists (mkWriterInfo (file_path w) "view"). split; [|done].
      apply elem_of_direct_parse. simpl. eauto 10. }
  exists w'. split; [|done].
  rewrite list_elem_of_In, in_flat_map. exists (file_path w).
  by rewrite <- !list_elem_of_In.
Qed.

End LookupClaims.

(** ** The run *)

Section RunClaims.
Context `{RT : Runtime} `{FS : FileSystem} `{ORD : SetOrder}.

Lemma lineage_fuel_le_corpus_fuel (files : list string) (t : string) :
  lineage_fuel t files ∅ ≤ corpus_fuel files.
Proof.
  unfold lineage_fuel, corpus_fuel, reachable_names.
  rewrite cache_names_empty, (right_id_L ∅ (∪)).
  rewrite size_union_alt, size_singleton.
  set (X := set_map str_lower (all_upstreams files) : gset string).
  assert (size (X ∖ {[str_lower t]}) ≤ size X) by (apply subseteq_size; set_solver).
  simpl. lia.
Qed.

(** With enough fuel the loop over the targets returns rows, at least one for
    each target; no exception is raised. *)
Lemma lineage_rows_returns (fuel : nat) (files : list string)
    (index : gmap string (list WriterInfo)) (targets : list string) :
  (∀ t, lineage_fuel t files ∅ ≤ fuel) →
  ∃ rows, lineage_rows fuel files index targets = Some (Some rows)
          ∧ length targets ≤ length rows.
Proof.
  intros Hfuel. induction targets as [|t targets IH]; simpl.
  - eauto.
  - destruct IH as (all_rows & IH & Hlen).
    destruct (dfs_returns fuel t files index [] ∅ (Hfuel t)) as (paths & c & Hr).
    rewrite Hr.
    pose proof (dfs_paths_ok _ _ _ _ _ _ _ _ Hr) as [Hne Hok].
    destruct (shape_paths_returns t paths) as (rows & -> & Hrows).
    { intros p Hp. by destruct (Hok p Hp) as (rest & -> & _). }
    rewrite IH. exists (rows ++ all_rows). split; [done|].
    rewrite length_app. destruct paths; [done|]. simpl in Hrows. lia.
Qed.

(** C9 (amended). A run aborts, with exit status 2, exactly when the list of
    resolved targets is empty.  In every other case (whatever the corpus root
    holds, also when it is empty or does not exist; tables without writers,
    with several writers, on a cycle; files that cannot be read) the run
    completes and writes its output: the header and at least one record for
    each target. *)
Theorem tracer_exits_only_without_targets (fuel : nat) (root : string)
    (targets : option string) :
  tracer_fuel root ≤ fuel →
  let fqtn_targets :=
    resolve_targets (index_writers (list_code_files root)) targets in
  (fqtn_targets = [] → tracer fuel root targets = Some (SysExit 2))
  ∧ (fqtn_targets ≠ [] →
       ∃ records, tracer fuel root targets = Some (Written records)
                  ∧ length fqtn_targets < length records).
Proof.
  intros Hfuel fqtn_targets. unfold tracer. fold fqtn_targets. split.
  - intros ->. done.
  - intros Hne. rewrite bool_decide_eq_false_2 by done.
    destruct (lineage_rows_returns fuel (list_code_files root)
                (index_writers (list_code_files root)) fqtn_targets)
      as (rows & -> & Hlen).
    { intros t. etrans; [apply lineage_fuel_le_corpus_fuel|done]. }
    eexists. split; [done|]. unfold write_csv. simpl.
    rewrite length_fmap. lia.
Qed.

End RunClaims.

(** ** The cache does not change any result *)

Section CacheFacts.
Context `{RT : Runtime} `{FS : FileSystem} `{ORD : SetOrder}.

Lemma cache_sound_empty (files : list string)
    (index : gmap string (list WriterInfo)) : cache_sound files index ∅.
Proof. intros k u Hk. by rewrite lookup_empty in Hk. Qed.

(** Started with a sound cache, [dfs_lineage_paths] returns the paths of the
    enumeration without cache and leaves a sound cache. *)
Lemma dfs_without_cache (fuel : nat) (start : string) (files : list string)
    (index : gmap string (list WriterInfo)) (visited : list string)
    (cache cache' : gmap string (gset string)) (paths : list (list string)) :
  cache_sound files index cache →
  dfs_lineage_paths fuel start files index visited cache = Some (paths, cache') →
  paths_without_cache fuel start files index visited = Some paths
  ∧ cache_sound files index cache'.
Proof.
  revert start visited cache cache' paths.
  induction fuel as [|fuel IH]; intros start visited cache cache' paths Hsound; [done|].
  rewrite dfs_unfold. cbv zeta. simpl. set (s := str_lower start).
  case_bool_decide as Hvis; [by intros [= <- <-]|].
  set (ws := find_writers_for_table s files index).
  assert (default (union_upstreams ws) (cache !! s) = union_upstreams ws) as ->.
  { destruct (cache !! s) as [u|] eqn:Hc; [|done]. simpl. by apply Hsound. }
  set (u := union_upstreams ws).
  set (cache1 := match cache !! s with Some _ => cache | None => _ end).
  assert (cache_sound files index cache1) as Hsound1.
  { subst cache1. destruct (cache !! s) eqn:Hc; [done|].
    intros k u' [[<- <-]|[_ Hk]]%lookup_insert_Some; [done|by apply Hsound]. }
  destruct (_ || _); [by intros [= <- <-]|].
  intros Hloop.
  assert (∀ up c sub c', up ∈ sorted u → cache_sound files index c →
            dfs_lineage_paths fuel up files index (visited ++ [s]) c = Some (sub, c') →
            cache_sound files index c'
            ∧ paths_without_cache fuel up files index (visited ++ [s]) = Some sub)
    as Hrec.
  { intros up c sub c' _ Hc Hr. by destruct (IH _ _ _ _ _ Hc Hr). }
  destruct (branch_loop_inv (cache_sound files index)
              (λ up sub, paths_without_cache fuel up files index (visited ++ [s])
                         = Some sub)
              (λ up v c, dfs_lineage_paths fuel up files index v c)
              s visited (sorted u) Hrec (sorted u) [] cache1 paths cache')
    as [Hsound' (subs & HF & ->)]; [done..|].
  split; [|done]. apply mapM_Some_2 in HF. by rewrite HF.
Qed.

(** One unfolding of the enumeration without cache at a table that is not on
    the stack and has writers with upstreams. *)
Lemma paths_without_cache_branch (fuel : nat) (start : string)
    (files : list string) (index : gmap string (list WriterInfo))
    (visited : list string) (paths : list (list string)) :
  let s := str_lower start in
  let u := union_upstreams (find_writers_for_table s files index) in
  s ∉ visited → find_writers_for_table s files index ≠ [] → u ≠ ∅ →
  paths_without_cache (S fuel) start files index visited = Some paths →
  ∃ subs : list (list (list string)),
    Forall2 (λ up sub, paths_without_cache fuel up files index (visited ++ [s])
                       = Some sub) (sorted u) subs
    ∧ paths = concat ((λ sub : list (list string), cons s <$> sub) <$> subs).
Proof.
  intros s u Hvis Hws Hu. simpl. fold s. fold u.
  rewrite (bool_decide_eq_false_2 _ Hvis), (bool_decide_eq_false_2 _ Hws).
  rewrite bool_decide_eq_false_2;
    [|intros Hz%size_empty_inv; by apply Hu, leibniz_equiv]. simpl.
  destruct (mapM _ (sorted u)) as [subs|] eqn:Hsubs; [|done]. simpl.
  intros [= <-]. exists subs. split; [|done]. by apply mapM_Some_1.
Qed.

Lemma paths_without_cache_nonempty (fuel : nat) (start : string)
    (files : list string) (index : gmap string (list WriterInfo))
    (visited : list string) (paths : list (list string)) :
  paths_without_cache fuel start files index visited = Some paths → paths ≠ [].
Proof.
  revert start visited paths.
  induction fuel as [|fuel IH]; intros start visited paths; [done|].
  simpl. case_bool_decide; [by intros [= <-]|].
  case_bool_decide as Hws; simpl; [by intros [= <-]|].
  case_bool_decide as Hsz; simpl; [by intros [= <-]|].
  destruct (mapM _ _) as [subs|] eqn:Hsubs; [|done]. simpl. intros [= <-].
  apply mapM_Some_1 in Hsubs.
  remember (sorted _) as ups eqn:Hups.
  destruct Hsubs as [|up sub ups subs' Hsub _].
  - exfalso. apply Hsz. by rewrite <- length_sorted, <- Hups.
  - apply IH in Hsub. simpl. by destruct sub.
Qed.

Lemma length_branch_paths (s : string) (subs : list (list (list string))) :
  Forall (λ sub, sub ≠ []) subs →
  length subs ≤ length (concat ((λ sub : list (list string), cons s <$> sub) <$> subs)).
Proof.
  induction 1 as [|sub subs Hne _ IH]; [done|].
  rewrite fmap_cons, concat_cons, length_app, length_fmap.
  destruct sub as [|p sub]; [done|]. simpl in *. lia.
Qed.

(** A set [T] of canonical tables each of which has a writer that reads all
    of [T]: the enumeration from a table of [T] returns at least as many
    paths as [T] has tables, and a path that is longer than the number of
    tables of [T] not on the stack. *)
Lemma paths_in_clique (T : gset string) (files : list string)
    (index : gmap string (list WriterInfo)) :
  (∀ t, t ∈ T → str_lower t = t
               ∧ find_writers_for_table t files index ≠ []
               ∧ T ⊆ union_upstreams (find_writers_for_table t files index)) →
  ∀ fuel start visited paths,
    start ∈ T → start ∉ visited →
    paths_without_cache fuel start files index visited = Some paths →
    size T ≤ length paths
    ∧ ∃ p, p ∈ paths ∧ size (T ∖ list_to_set visited) < length p.
Proof.
  intros HT. induction fuel as [|fuel IH]; intros start visited paths Hs Hvis Hp;
    [done|].
  destruct (HT start Hs) as (Hcanon & Hws & Hu).
  apply paths_without_cache_branch in Hp as (subs & HF & ->);
    rewrite ?Hcanon; [|done|done|].
  2:{ intros Hemp. apply Hu in Hs. rewrite Hemp in Hs. by apply elem_of_empty in Hs. }
  rewrite Hcanon in HF.
  set (u := union_upstreams (find_writers_for_table start files index)) in *.
  assert (∀ up sub, up ∈ sorted u →
            paths_without_cache fuel up files index (visited ++ [start]) = Some sub →
            sub ∈ subs → ∀ p, p ∈ sub →
            start :: p ∈ concat ((λ sub : list (list string), cons start <$> sub)
                                   <$> subs)) as Hin.
  { intros up sub _ _ Hsub p Hp. apply elem_of_concat.
    exists (cons start <$> sub). split; apply list_elem_of_fmap; eauto. }
  split.
  - transitivity (length subs).
    + rewrite <- (Forall2_length _ _ _ HF), length_sorted.
      by apply subseteq_size.
    + apply length_branch_paths. apply Forall_forall. intros sub Hsub.
      apply list_elem_of_lookup in Hsub as [i Hi].
      destruct (Forall2_lookup_r _ _ _ _ _ HF Hi) as (up & _ & Hpwc).
      by eapply paths_without_cache_nonempty.
  - assert (list_to_set (visited ++ [start])
            = list_to_set visited ∪ ({[start]} : gset string)) as Hset.
    { rewrite list_to_set_app_L. simpl. by rewrite (right_id_L ∅ (∪)). }
    destruct (decide (T ∖ list_to_set (visited ++ [start]) = ∅)) as [Hfull|Hmore].
    + assert (start ∈ sorted u) as Hup.
      { apply elem_of_sorted. by apply Hu. }
      apply list_elem_of_lookup in Hup as [i Hi].
      destruct (Forall2_lookup_l _ _ _ _ _ HF Hi) as (sub & Hsub & Hpwc).
      assert (sub = [[start]]) as ->.
      { destruct fuel as [|fuel']; [done|]. simpl in Hpwc. rewrite Hcanon in Hpwc.
        rewrite bool_decide_eq_true_2 in Hpwc; [by injection Hpwc|].
        apply elem_of_app. right. by left. }
      exists [start; start]. split.
      * eapply Hin; [by eapply list_elem_of_lookup_2|done
                    |by eapply list_elem_of_lookup_2|by left].
      * assert (T ∖ list_to_set visited ⊆ {[start]}) as Hsz.
        { rewrite Hset in Hfull. intros x [HxT Hxv]%elem_of_difference.
          apply elem_of_singleton. destruct (decide (x = start)); [done|].
          exfalso.
          assert (x ∈ T ∖ (list_to_set visited ∪ ({[start]} : gset string))) as Hx.
          { apply elem_of_difference. split; [done|].
            rewrite elem_of_union, elem_of_singleton. tauto. }
          rewrite Hfull in Hx. by apply elem_of_empty in Hx. }
        apply subseteq_size in Hsz. rewrite size_singleton in Hsz.
        simpl. lia.
    + apply set_choose_L in Hmore as [c Hc].
      assert (c ∈ T ∧ c ∉ visited ++ [start]) as [HcT Hcv].
      { apply elem_of_difference in Hc as [? Hc]. split; [done|].
        by rewrite elem_of_list_to_set in Hc. }
      assert (c ∈ sorted u) as Hup.
      { apply elem_of_sorted. by apply Hu. }
      apply list_elem_of_lookup in Hup as [i Hi].
      destruct (Forall2_lookup_l _ _ _ _ _ HF Hi) as (sub & Hsub & Hpwc).
      destruct (IH c (visited ++ [start]) sub HcT Hcv Hpwc) as [_ (p & Hp & Hlen)].
      exists (start :: p). split.
      * eapply Hin; [by eapply list_elem_of_lookup_2|done
                    |by eapply list_elem_of_lookup_2|done].
      * assert (T ∖ list_to_set visited
                = {[start]} ∪ T ∖ list_to_set (visited ++ [start])) as Hsplit.
        { rewrite Hset. apply set_eq. intros x.
          assert (start ∉ (list_to_set visited : gset string)) as Hnv
            by by rewrite elem_of_list_to_set.
          rewrite elem_of_union, !elem_of_difference, elem_of_union,
            !elem_of_singleton.
          destruct (decide (x = start)) as [->|]; tauto. }
        rewrite Hsplit, size_union, size_singleton.
        -- simpl. lia.
        -- rewrite Hset. intros x ->%elem_of_singleton [_ Hx]%elem_of_difference.
           apply Hx, elem_of_union. right. by apply elem_of_singleton.
Qed.

End CacheFacts.

(** ** No truncation, independent targets *)

Section CompleteEnumeration.
Context `{RT : Runtime} `{FS : FileSystem} `{ORD : SetOrder}.

(** The rows of a run are the rows of its targets, each enumerated on its
    own, one after the other. *)
Lemma lineage_rows_by_target (fuel : nat) (files : list string)
    (index : gmap string (list WriterInfo)) (targets : list string) :
  corpus_fuel files ≤ fuel →
  lineage_rows fuel files index targets
  = Some (Some (concat (rows_of_target fuel files index <$> targets))).
Proof.
  intros Hfuel. induction targets as [|t targets IH]; [done|].
  cbn [lineage_rows]. rewrite fmap_cons, concat_cons.
  destruct (dfs_returns fuel t files index [] ∅) as (paths & c & Hr).
  { etrans; [apply lineage_fuel_le_corpus_fuel|done]. }
  pose proof (dfs_paths_ok _ _ _ _ _ _ _ _ Hr) as [_ Hok].
  destruct (shape_paths_returns t paths) as (rows & Hrows & _).
  { intros p Hp. by destruct (Hok p Hp) as (rest & -> & _). }
  unfold rows_of_target at 1. rewrite Hr. cbn [mbind option_bind fst].
  by rewrite Hrows, IH.
Qed.

(** C1 (amended). The enumeration has no ceiling on the number of paths or
    on the depth of the recursion and truncates nothing.  For every corpus,
    index and target it terminates and returns the whole list of paths, the
    list that the enumeration without cache returns; the only limit is the
    cycle guard, under which no returned path is longer than [lineage_fuel],
    one more than the number of canonical names that the target and the
    corpus can name.  The targets of a run are enumerated independently: the
    rows of a run are the concatenation of the rows of each target
    enumerated on its own. *)
Theorem enumeration_complete_per_target (fuel : nat) (files : list string)
    (index : gmap string (list WriterInfo)) :
  corpus_fuel files ≤ fuel →
  (∀ target, ∃ paths cache',
     dfs_lineage_paths fuel target files index [] ∅ = Some (paths, cache')
     ∧ paths_without_cache fuel target files index [] = Some paths
     ∧ ∀ p, p ∈ paths → 1 ≤ length p ≤ lineage_fuel target files ∅)
  ∧ (∀ targets,
       lineage_rows fuel files index targets
       = Some (Some (concat (rows_of_target fuel files index <$> targets)))).
Proof.
  intros Hfuel. split.
  - intros target.
    destruct (dfs_returns fuel target files index [] ∅) as (paths & c & Hr).
    { etrans; [apply lineage_fuel_le_corpus_fuel|done]. }
    exists paths, c. split_and!; [done| |].
    + by apply dfs_without_cache in Hr as [? _]; [|apply cache_sound_empty].
    + intros p Hp. by eapply dfs_path_length.
  - intros targets. by apply lineage_rows_by_target.
Qed.

End CompleteEnumeration.

(** ** The matcher on the scripts of the unbounded family *)

Module CliqueFacts.
Import PyAscii.

Lemma app_cons_str (c : ascii) (a s : string) :
  String c a +:+ s = String c (a +:+ s).
Proof. reflexivity. Qed.

Lemma app_nil_str (s : string) : "" +:+ s = s.
Proof. reflexivity. Qed.

(** Appending to a text that starts with known characters. *)
Ltac str_norm := rewrite ?app_cons_str, ?app_nil_str.

Lemma length_app_str (a s : string) :
  String.length (a +:+ s) = String.length a + String.length s.
Proof.
  induction a as [|c a IH]; str_norm; simpl; [done|]. by f_equal.
Qed.

Lemma substring_app (a s : string) :
  String.substring 0 (String.length a) (a +:+ s) = a.
Proof.
  induction a as [|c a IH]; str_norm; simpl; [by destruct s|]. by f_equal.
Qed.

Lemma consumed_app (a s : string) : consumed (a +:+ s) s = a.
Proof.
  unfold consumed. rewrite length_app_str.
  replace (String.length a + String.length s - String.length s)
    with (String.length a) by lia.
  apply substring_app.
Qed.

Lemma app_assoc_str (a b c : string) : (a +:+ b) +:+ c = a +:+ (b +:+ c).
Proof. induction a as [|x a IH]; str_norm; [done|]. by f_equal. Qed.

Lemma join_lines_app (l1 l2 : list string) :
  join_lines (l1 ++ l2) = join_lines l1 +:+ join_lines l2.
Proof.
  induction l1 as [|x l1 IH]; [done|].
  change (join_lines ((x :: l1) ++ l2)) with (x +:+ join_lines (l1 ++ l2)).
  change (join_lines (x :: l1)) with (x +:+ join_lines l1).
  by rewrite IH, app_assoc_str.
Qed.

Lemma lower_app (a b : string) : lower (a +:+ b) = lower a +:+ lower b.
Proof.
  induction a as [|c a IH]; str_norm; simpl; str_norm; [done|]. by f_equal.
Qed.

Lemma lower_zeros (n : nat) : lower (zeros n) = zeros n.
Proof. induction n as [|n IH]; simpl; [done|]. by f_equal. Qed.

Lemma length_zeros (n : nat) : String.length (zeros n) = n.
Proof. induction n as [|n IH]; simpl; [done|]. by f_equal. Qed.

Lemma lower_tname (i : nat) : lower (tname i) = tname i.
Proof. unfold tname. simpl. by rewrite lower_zeros. Qed.

Lemma lower_clique_table (i : nat) : lower (clique_table i) = clique_table i.
Proof. unfold clique_table. by rewrite lower_app, lower_tname. Qed.

Lemma contains_dot_clique_table (i : nat) : contains_dot (clique_table i) = true.
Proof. reflexivity. Qed.

Lemma zeros_inj (i j : nat) : zeros i = zeros j → i = j.
Proof.
  revert j. induction i as [|i IH]; intros [|j]; simpl; try done.
  intros [= Heq]. f_equal. by apply IH.
Qed.

Lemma clique_table_inj (i j : nat) : clique_table i = clique_table j → i = j.
Proof. unfold clique_table, tname. simpl. intros [= Heq]. by apply zeros_inj. Qed.

Lemma last_char_app (prev : option ascii) (a b : string) :
  last_char prev (a +:+ b) = last_char (last_char prev a) b.
Proof.
  revert prev. induction a as [|c a IH]; intros prev; str_norm; simpl; [done|].
  apply IH.
Qed.

(** *** Literals *)

Lemma lit_prefix_cons_eq (c : ascii) (l : string) (prev : option ascii) (s : string) :
  lit_prefix (String c l) prev (String c s) = lit_prefix l (Some c) s.
Proof. simpl. by rewrite decide_True. Qed.

Lemma lit_prefix_cons_ne (c d : ascii) (l : string) (prev : option ascii) (s : string) :
  c ≠ d → lit_prefix (String c l) prev (String d s) = None.
Proof. intros Hne. simpl. by rewrite decide_False. Qed.

Lemma lit_prefix_app (l : string) (prev : option ascii) (s : string) :
  lit_prefix l prev (l +:+ s) = Some (last_char prev l, s).
Proof.
  revert prev. induction l as [|c l IH]; intros prev; str_norm; [done|].
  rewrite lit_prefix_cons_eq. apply IH.
Qed.

(** A pattern that starts with a literal matches nowhere the literal does
    not. *)
Lemma match_at_lit_none (l : string) (r : regex) (prev : option ascii) (s : string) :
  lit_prefix l prev s = None → match_at (Seq (Lit l) r) prev s = None.
Proof. intros Hl. unfold match_at. simpl. by rewrite Hl. Qed.

Lemma lit_prefix_prev_irrel (c : ascii) (l : string) (prev prev' : option ascii)
    (s : string) :
  lit_prefix (String c l) prev s = lit_prefix (String c l) prev' s.
Proof. destruct s as [|d s]; simpl; [done|]. by case_decide. Qed.

Lemma match_at_prev_irrel (c : ascii) (l : string) (r : regex)
    (prev prev' : option ascii) (s : string) :
  match_at (Seq (Lit (String c l)) r) prev s
  = match_at (Seq (Lit (String c l)) r) prev' s.
Proof.
  unfold match_at. cbn [rmatch].
  by rewrite (lit_prefix_prev_irrel c l prev prev').
Qed.

(** *** Searching *)

Lemma search_from_hit (r : regex) (prev : option ascii) (s : string)
    (m : option ascii * string * list string) :
  match_at r prev s = Some m → search_from r prev s = Some (s, m).
Proof. intros Hm. destruct s; cbn [search_from]; by rewrite Hm. Qed.

Lemma search_from_miss (r : regex) (prev : option ascii) (c : ascii) (s : string) :
  match_at r prev (String c s) = None →
  search_from r prev (String c s) = search_from r (Some c) s.
Proof. intros Hm. cbn [search_from]. by rewrite Hm. Qed.

Lemma search_from_prev_irrel (c : ascii) (l : string) (r : regex)
    (prev prev' : option ascii) (s : string) :
  search_from (Seq (Lit (String c l)) r) prev s
  = search_from (Seq (Lit (String c l)) r) prev' s.
Proof.
  destruct s as [|d s]; cbn [search_from];
    by rewrite (match_at_prev_irrel c l r prev prev').
Qed.

Lemma findall_go_prev_irrel (c : ascii) (l : string) (r : regex) (n : nat)
    (prev prev' : option ascii) (s : string) :
  findall_go n (Seq (Lit (String c l)) r) prev s
  = findall_go n (Seq (Lit (String c l)) r) prev' s.
Proof.
  destruct n as [|n]; [done|]. cbn [findall_go].
  by rewrite (search_from_prev_irrel c l r prev prev').
Qed.

(** A character at which a literal-first pattern cannot start is passed
    over. *)
Lemma search_skip (c0 : ascii) (l : string) (r : regex) (prev : option ascii)
    (d : ascii) (s : string) :
  lit_prefix (String c0 l) None (String d s) = None →
  search_from (Seq (Lit (String c0 l)) r) prev (String d s)
  = search_from (Seq (Lit (String c0 l)) r) None s.
Proof.
  intros Hl. rewrite search_from_miss.
  - apply search_from_prev_irrel.
  - apply match_at_lit_none. by rewrite (lit_prefix_prev_irrel c0 l prev None).
Qed.

Lemma search_skip_zeros (c0 : ascii) (l : string) (r : regex) (prev : option ascii)
    (i : nat) (s : string) :
  c0 ≠ "0"%char →
  search_from (Seq (Lit (String c0 l)) r) prev (zeros i +:+ s)
  = search_from (Seq (Lit (String c0 l)) r) None s.
Proof.
  intros Hne. revert prev. induction i as [|i IH]; intros prev; simpl zeros;
    str_norm.
  - apply search_from_prev_irrel.
  - rewrite search_skip; [apply IH|]. by apply lit_prefix_cons_ne.
Qed.

(** A match further on makes the search succeed. *)
Lemma search_from_later (r : regex) (pre : string) (prev : option ascii) (s : string) :
  is_Some (match_at r (last_char prev pre) s) →
  is_Some (search_from r prev (pre +:+ s)).
Proof.
  revert prev. induction pre as [|c pre IH]; intros prev; str_norm;
    cbn [last_char].
  - intros [m Hm]. rewrite (search_from_hit _ _ _ _ Hm). eauto.
  - intros Hm. cbn [search_from].
    destruct (match_at r prev (String c (pre +:+ s))); [eauto|].
    by apply IH.
Qed.

(** *** Identifiers *)

Lemma cls_ident_zero : cls_matches [CRange "a" "z"; CRange "0" "9"; CChar "_"] "0" = true.
Proof. reflexivity. Qed.

(** The greedy loop over an identifier class runs over a run of zeros up to
    a character outside the class, when the rest of the pattern matches
    there. *)
Lemma star_ident_zeros {A : Type} (k : option ascii → string → list string → option A)
    (n i : nat) (prev : option ascii) (c : ascii) (s : string) (caps : list string)
    (a : A) :
  cls_matches [CRange "a" "z"; CRange "0" "9"; CChar "_"] c = false →
  i ≤ n →
  k (last_char prev (zeros i)) (String c s) caps = Some a →
  star_loop (rmatch A re_ident) k n prev (zeros i +:+ String c s) caps = Some a.
Proof.
  intros Hc. revert n prev. induction i as [|i IH]; intros n prev Hn Hk.
  - simpl in Hk. simpl zeros. str_norm.
    destruct n as [|n]; cbn [star_loop]; [done|].
    unfold re_ident. cbn [rmatch]. by rewrite Hc.
  - destruct n as [|n]; [lia|]. simpl zeros. str_norm.
    cbn [star_loop]. unfold re_ident at 1. cbn [rmatch]. rewrite cls_ident_zero.
    rewrite decide_True by (simpl; lia).
    rewrite (IH n (Some "0"%char)); [done|lia|done].
Qed.

End CliqueFacts.

Module CliqueMatch.
Import PyAscii CliqueFacts.

(** *** One step of the matcher *)

Section Steps.
Context {A : Type}.
Implicit Types (k : option ascii → string → list string → option A).

Lemma rmatch_seq (r1 r2 : regex) prev s caps k :
  rmatch A (Seq r1 r2) prev s caps k
  = rmatch A r1 prev s caps (λ prev' s' caps', rmatch A r2 prev' s' caps' k).
Proof. reflexivity. Qed.

Lemma rmatch_lit_cons (c : ascii) (l : string) prev s caps k :
  rmatch A (Lit (String c l)) prev (String c s) caps k
  = rmatch A (Lit l) (Some c) s caps k.
Proof. cbn [rmatch]. by rewrite lit_prefix_cons_eq. Qed.

Lemma rmatch_lit_nil prev s caps k : rmatch A (Lit "") prev s caps k = k prev s caps.
Proof. reflexivity. Qed.

Lemma rmatch_lit_app (l : string) prev s caps k :
  rmatch A (Lit l) prev (l +:+ s) caps k = k (last_char prev l) s caps.
Proof. cbn [rmatch]. by rewrite lit_prefix_app. Qed.

Lemma rmatch_cls_hit (items : list cls_item) prev (c : ascii) s caps k :
  cls_matches items c = true →
  rmatch A (Cls items) prev (String c s) caps k = k (Some c) s caps.
Proof. intros Hc. cbn [rmatch]. by rewrite Hc. Qed.

Lemma rmatch_star_stop (items : list cls_item) prev (c : ascii) s caps k :
  cls_matches items c = false →
  rmatch A (Star (Cls items)) prev (String c s) caps k = k prev (String c s) caps.
Proof.
  intros Hc. cbn [rmatch]. generalize (String.length (String c s)). intros n.
  destruct n as [|n]; cbn [star_loop]; [done|]. cbn [rmatch]. by rewrite Hc.
Qed.

Lemma rmatch_wordb prev s caps k :
  xorb (word_before prev) (word_after s) = true →
  rmatch A WordB prev s caps k = k prev s caps.
Proof. intros Hb. cbn [rmatch]. by rewrite Hb. Qed.

(** A group of one or more identifier characters on the text [c0 0...0]
    that a character [c] outside the class follows. *)
Lemma rmatch_group_ident (c0 c : ascii) (i : nat) prev s caps k (a : A) :
  cls_matches [CRange "a" "z"; CRange "0" "9"; CChar "_"] c0 = true →
  cls_matches [CRange "a" "z"; CRange "0" "9"; CChar "_"] c = false →
  k (last_char (Some c0) (zeros i)) (String c s) (caps ++ [String c0 (zeros i)])
  = Some a →
  rmatch A (Group (Seq (Cls [CRange "a" "z"; CRange "0" "9"; CChar "_"])
                       (Star (Cls [CRange "a" "z"; CRange "0" "9"; CChar "_"]))))
         prev (String c0 (zeros i +:+ String c s)) caps k
  = Some a.
Proof.
  intros Hc0 Hc Hk.
  change (rmatch A (Group ?r) ?p ?t ?cs ?kk)
    with (rmatch A r p t cs (λ prev' s' caps', kk prev' s' (caps' ++ [consumed t s']))).
  rewrite rmatch_seq, rmatch_cls_hit by done.
  change (rmatch A (Star ?r) ?p ?t ?cs ?kk)
    with (star_loop (rmatch A r) kk (String.length t) p t cs).
  apply (star_ident_zeros (A:=A)); [done|rewrite length_app_str, length_zeros; lia|].
  change (String c0 (zeros i +:+ String c s))
    with (String c0 (zeros i) +:+ String c s).
  by rewrite consumed_app.
Qed.

End Steps.

Ltac rstep :=
  first [ rewrite rmatch_seq
        | rewrite rmatch_lit_cons
        | rewrite rmatch_lit_nil
        | rewrite rmatch_star_stop by reflexivity
        | rewrite rmatch_cls_hit by reflexivity
        | rewrite rmatch_wordb by reflexivity ];
  cbv beta.

(** *** The two patterns on the lines of the script *)

Lemma match_spark_core (prev : option ascii) (i : nat) (rest : string) :
  match_at RE_SPARK_TABLE_L prev ("spark.table('d." +:+ tname i +:+ "')" +:+ rest)
  = Some (Some ")"%char, rest, ["d"; tname i]).
Proof.
  unfold match_at, RE_SPARK_TABLE_L, Seqs, Plus, re_s, re_quote, re_ident, tname.
  cbn [foldr]. str_norm.
  repeat rstep.
  apply (rmatch_group_ident "d" "." 0); [done..|]. cbv beta.
  repeat rstep.
  apply (rmatch_group_ident "t" "'" i); [done..|]. cbv beta.
  repeat rstep. reflexivity.
Qed.

Lemma match_insert_core (prev : option ascii) (i : nat) (rest : string) :
  match_at RE_INSERT_INTO_L prev (".insertinto('d." +:+ tname i +:+ "'," +:+ rest)
  = Some (Some ","%char, rest, ["d"; tname i]).
Proof.
  unfold match_at, RE_INSERT_INTO_L, Seqs, Plus, re_s, re_quote, re_ident, tname.
  cbn [foldr]. str_norm.
  repeat rstep.
  apply (rmatch_group_ident "d" "." 0); [done..|]. cbv beta.
  repeat rstep.
  apply (rmatch_group_ident "t" "'" i); [done..|]. cbv beta.
  repeat rstep. reflexivity.
Qed.

Lemma word_before_last_zeros (c : ascii) (i : nat) :
  is_word c = true → word_before (last_char (Some c) (zeros i)) = true.
Proof.
  revert c. induction i as [|i IH]; intros c Hc; simpl; [done|]. by apply IH.
Qed.

(** The name of a table between quotes matches the word-boundary pattern
    of the table. *)
Lemma match_table_name (i : nat) (rest : string) :
  is_Some (match_at (word_boundary_pattern_fqtn (clique_table i)) (Some "'"%char)
             (clique_table i +:+ String "'" rest)).
Proof.
  unfold match_at, word_boundary_pattern_fqtn, Seqs, clique_table, tname.
  cbn [foldr]. str_norm.
  repeat rstep. rewrite rmatch_lit_app. cbn [last_char]. rstep.
  rewrite rmatch_wordb.
  - rewrite rmatch_lit_nil. eauto.
  - by rewrite word_before_last_zeros.
Qed.

Ltac solve_lit_none :=
  repeat rewrite lit_prefix_cons_eq; by apply lit_prefix_cons_ne.

(** *** Searching through the lines *)

Lemma findall_skip (c0 : ascii) (l : string) (r : regex) (n : nat)
    (prev : option ascii) (d : ascii) (s : string) :
  lit_prefix (String c0 l) None (String d s) = None →
  findall_go n (Seq (Lit (String c0 l)) r) prev (String d s)
  = findall_go n (Seq (Lit (String c0 l)) r) None s.
Proof.
  intros Hl. destruct n as [|n]; [done|]. cbn [findall_go].
  by rewrite search_skip.
Qed.

(** Both patterns start with a literal. *)
Lemma RE_SPARK_TABLE_L_eq :
  ∃ tail, RE_SPARK_TABLE_L = Seq (Lit "spark.table(") tail.
Proof. eexists. reflexivity. Qed.
Lemma RE_INSERT_INTO_L_eq :
  ∃ tail, RE_INSERT_INTO_L = Seq (Lit ".insertinto(") tail.
Proof. eexists. reflexivity. Qed.

Lemma findall_spark_read_line (n i : nat) (rest : string) :
  findall_go (S n) RE_SPARK_TABLE_L None (read_line i +:+ rest)
  = ["d"; tname i] :: findall_go n RE_SPARK_TABLE_L None rest.
Proof.
  destruct RE_SPARK_TABLE_L_eq as [tail Heq]. pose proof (match_spark_core None i (String "010" rest)) as Hcore. rewrite Heq in *. cbn [findall_go].
  unfold read_line, tname, newline. rewrite !app_assoc_str. str_norm.
  repeat (rewrite search_skip by solve_lit_none).
  rewrite (search_from_hit _ _ _ (Some ")"%char, String "010" rest, ["d"; tname i]))
    by exact Hcore.
  rewrite decide_True by (simpl; rewrite length_app_str; simpl; lia).
  f_equal. by rewrite findall_skip by solve_lit_none.
Qed.

Lemma search_insert_read_line (prev : option ascii) (i : nat) (rest : string) :
  search_from RE_INSERT_INTO_L prev (read_line i +:+ rest)
  = search_from RE_INSERT_INTO_L None rest.
Proof.
  destruct RE_INSERT_INTO_L_eq as [tail ->].
  unfold read_line, tname, newline. rewrite !app_assoc_str. str_norm.
  repeat (rewrite search_skip by solve_lit_none).
  rewrite search_skip_zeros by done.
  by repeat (rewrite search_skip by solve_lit_none).
Qed.

Lemma findall_insert_write_line (n i : nat) (rest : string) :
  findall_go (S n) RE_INSERT_INTO_L None (write_line_l i +:+ rest)
  = ["d"; tname i] :: findall_go n RE_INSERT_INTO_L None rest.
Proof.
  destruct RE_INSERT_INTO_L_eq as [tail Heq].
  pose proof (match_insert_core None i (" overwrite=true)" +:+ String "010" rest))
    as Hcore.
  rewrite Heq in *. cbn [findall_go].
  unfold write_line_l, tname, newline. rewrite !app_assoc_str. str_norm.
  repeat (rewrite search_skip by solve_lit_none).
  rewrite (search_from_hit _ _ _
             (Some ","%char, " overwrite=true)" +:+ String "010" rest,
              ["d"; tname i]))
    by exact Hcore.
  rewrite decide_True by (simpl; rewrite length_app_str; simpl; lia).
  f_equal. str_norm. by repeat (rewrite findall_skip by solve_lit_none).
Qed.

Lemma findall_spark_read_lines (n : nat) (ixs : list nat) (rest : string) :
  findall_go (length ixs + n) RE_SPARK_TABLE_L None
    (join_lines (read_line <$> ixs) +:+ rest)
  = ((λ i, ["d"; tname i]) <$> ixs) ++ findall_go n RE_SPARK_TABLE_L None rest.
Proof.
  induction ixs as [|i ixs IH]; [done|].
  rewrite fmap_cons. cbn [join_lines foldr]. fold (join_lines (read_line <$> ixs)).
  rewrite app_assoc_str. cbn [length Nat.add].
  by rewrite findall_spark_read_line, IH.
Qed.

Lemma findall_insert_read_lines (n : nat) (ixs : list nat) (rest : string) :
  findall_go n RE_INSERT_INTO_L None (join_lines (read_line <$> ixs) +:+ rest)
  = findall_go n RE_INSERT_INTO_L None rest.
Proof.
  induction ixs as [|i ixs IH]; [done|].
  rewrite fmap_cons. cbn [join_lines foldr]. fold (join_lines (read_line <$> ixs)).
  rewrite app_assoc_str, <- IH.
  destruct n as [|n]; [done|]. cbn [findall_go].
  by rewrite search_insert_read_line.
Qed.

Lemma findall_insert_write_lines (n : nat) (ixs : list nat) (rest : string) :
  findall_go (length ixs + n) RE_INSERT_INTO_L None
    (join_lines (write_line_l <$> ixs) +:+ rest)
  = ((λ i, ["d"; tname i]) <$> ixs) ++ findall_go n RE_INSERT_INTO_L None rest.
Proof.
  induction ixs as [|i ixs IH]; [done|].
  rewrite fmap_cons. cbn [join_lines foldr]. fold (join_lines (write_line_l <$> ixs)).
  rewrite app_assoc_str. cbn [length Nat.add].
  by rewrite findall_insert_write_line, IH.
Qed.

End CliqueMatch.

(** ** No ceiling: the unbounded family *)

Module Clique.
Import PyAscii CliqueFacts CliqueMatch.

Lemma app_nil_r_str (s : string) : s +:+ "" = s.
Proof. induction s as [|c s IH]; [done|]. rewrite app_cons_str. by f_equal. Qed.

Lemma lower_read_line (i : nat) : lower (read_line i) = read_line i.
Proof. unfold read_line. by rewrite !lower_app, lower_tname. Qed.

Lemma lower_write_line (i : nat) : lower (write_line i) = write_line_l i.
Proof. unfold write_line, write_line_l. by rewrite !lower_app, lower_tname. Qed.

Lemma lower_join_lines (f g : nat → string) (l : list nat) :
  (∀ i, lower (f i) = g i) →
  lower (join_lines (f <$> l)) = join_lines (g <$> l).
Proof.
  intros Hfg. induction l as [|i l IH]; [done|].
  rewrite !fmap_cons. cbn [join_lines foldr].
  fold (join_lines (f <$> l)). fold (join_lines (g <$> l)).
  by rewrite lower_app, Hfg, IH.
Qed.

Lemma lower_clique_text (N : nat) :
  lower (clique_text N)
  = join_lines (read_line <$> seq 0 (S N))
    +:+ join_lines (write_line_l <$> seq 0 (S N)).
Proof.
  unfold clique_text. rewrite lower_app.
  by rewrite (lower_join_lines read_line read_line), (lower_join_lines write_line write_line_l)
    by (apply lower_read_line || apply lower_write_line).
Qed.

Lemma length_join_lines (f : nat → string) (l : list nat) :
  (∀ i, 1 ≤ String.length (f i)) →
  length l ≤ String.length (join_lines (f <$> l)).
Proof.
  intros Hf. induction l as [|i l IH]; [done|].
  rewrite fmap_cons. cbn [join_lines foldr]. fold (join_lines (f <$> l)).
  rewrite length_app_str. specialize (Hf i). simpl. lia.
Qed.

Lemma length_read_line (i : nat) : 1 ≤ String.length (read_line i).
Proof. unfold read_line. rewrite app_cons_str. simpl. lia. Qed.

Lemma length_write_line_l (i : nat) : 1 ≤ String.length (write_line_l i).
Proof. unfold write_line_l. rewrite app_cons_str. simpl. lia. Qed.

Lemma elem_of_findall2 (r : regex) (s : string) (a b : string) :
  [a; b] ∈ findall r s → (a, b) ∈ re_findall2 r s.
Proof.
  intros Hin. cbn [re_findall2 runtime]. apply list_elem_of_omap.
  exists [a; b]. done.
Qed.

Lemma fqtn_of_clique_pair (i : nat) : fqtn_of_pair ("d", tname i) = clique_table i.
Proof.
  unfold fqtn_of_pair, to_fqtn. cbn [fst snd str_lower runtime].
  by rewrite lower_tname.
Qed.

(** The three facts about the script: every table is read, every table is
    written, every table is named. *)
Lemma clique_reads (N i : nat) :
  i ≤ N → clique_table i ∈ extract_upstreams_from_spark (clique_text N).
Proof.
  intros Hi. unfold extract_upstreams_from_spark. cbn [str_lower runtime].
  apply elem_of_list_to_set, list_elem_of_fmap. exists ("d", tname i).
  split; [by rewrite fqtn_of_clique_pair|].
  apply elem_of_findall2. unfold findall. rewrite lower_clique_text.
  set (R := join_lines (read_line <$> seq 0 (S N))).
  set (W := join_lines (write_line_l <$> seq 0 (S N))).
  assert (length (seq 0 (S N)) ≤ String.length (R +:+ W)) as Hlen.
  { rewrite length_app_str. subst R.
    pose proof (length_join_lines read_line (seq 0 (S N)) length_read_line). lia. }
  replace (S (String.length (R +:+ W)))
    with (length (seq 0 (S N))
          + (S (String.length (R +:+ W)) - length (seq 0 (S N)))) by lia.
  subst R. rewrite findall_spark_read_lines.
  apply elem_of_app. left. apply list_elem_of_fmap. exists i. split; [done|].
  apply elem_of_seq. lia.
Qed.

Lemma clique_writes (N i : nat) :
  i ≤ N → clique_table i ∈ parse_insertinto_targets (clique_text N).
Proof.
  intros Hi. unfold parse_insertinto_targets. cbn [str_lower runtime].
  apply elem_of_list_to_set, list_elem_of_fmap. exists ("d", tname i).
  split; [by rewrite fqtn_of_clique_pair|].
  apply elem_of_findall2. unfold findall. rewrite lower_clique_text.
  set (R := join_lines (read_line <$> seq 0 (S N))).
  set (W := join_lines (write_line_l <$> seq 0 (S N))).
  assert (length (seq 0 (S N)) ≤ String.length (R +:+ W)) as Hlen.
  { rewrite length_app_str. subst W.
    pose proof (length_join_lines write_line_l (seq 0 (S N)) length_write_line_l).
    lia. }
  replace (S (String.length (R +:+ W)))
    with (length (seq 0 (S N))
          + (S (String.length (R +:+ W)) - length (seq 0 (S N)))) by lia.
  generalize (S (String.length (R +:+ W)) - length (seq 0 (S N))). intros m.
  subst R. rewrite findall_insert_read_lines.
  rewrite <- (app_nil_r_str W). subst W. rewrite findall_insert_write_lines.
  apply elem_of_app. left. apply list_elem_of_fmap. exists i. split; [done|].
  apply elem_of_seq. lia.
Qed.

Lemma clique_names (N i : nat) :
  i ≤ N →
  re_search (word_boundary_pattern_fqtn (clique_table i)) (lower (clique_text N))
  = true.
Proof.
  intros Hi. cbn [re_search runtime]. apply bool_decide_eq_true.
  rewrite lower_clique_text.
  replace (seq 0 (S N)) with (seq 0 i ++ i :: seq (S i) (N - i)) at 1.
  2:{ replace (S N) with (i + S (N - i)) by lia. by rewrite seq_app. }
  rewrite fmap_app, fmap_cons, join_lines_app. cbn [join_lines foldr].
  fold (join_lines (read_line <$> seq (S i) (N - i))).
  set (before := join_lines (read_line <$> seq 0 i)).
  set (after := join_lines (read_line <$> seq (S i) (N - i))).
  set (W := join_lines (write_line_l <$> seq 0 (S N))).
  change (read_line i)
    with ("x = spark.table('" +:+ (clique_table i +:+ String "'" (")" +:+ newline))).
  rewrite !app_assoc_str.
  rewrite <- (app_assoc_str before "x = spark.table('").
  apply search_from_later. rewrite last_char_app. cbn [last_char].
  rewrite app_cons_str. apply match_table_name.
Qed.

(** *** The writer graph of the script *)

Section Graph.
Variable N : nat.

#[local] Instance clique_fs : FileSystem := clique_disk N.

Lemma clique_list_code_files : list_code_files "etl" = clique_files.
Proof. reflexivity. Qed.

Lemma clique_read_text : read_text "etl/copy.py" = Some (clique_text N).
Proof. reflexivity. Qed.

Lemma elem_of_clique_tables (t : string) :
  t ∈ (clique_tables N) ↔ ∃ i, i ≤ N ∧ t = clique_table i.
Proof.
  unfold clique_tables. rewrite elem_of_list_to_set, list_elem_of_fmap.
  split; intros (i & H1 & H2); exists i.
  - apply elem_of_seq in H2. split; [lia|done].
  - split; [done|]. apply elem_of_seq. lia.
Qed.

Lemma size_clique_tables : size (clique_tables N) = S N.
Proof.
  unfold clique_tables. rewrite size_list_to_set.
  - by rewrite length_fmap, length_seq.
  - apply NoDup_fmap_2; [|apply NoDup_seq]. intros i j. apply clique_table_inj.
Qed.

Lemma clique_candidates (i : nat) :
  i ≤ N →
  filter_candidate_files_by_name clique_files (clique_table i) = clique_files.
Proof.
  intros Hi. unfold filter_candidate_files_by_name, clique_files.
  cbn [List.filter]. rewrite clique_read_text. cbn [str_lower runtime].
  by rewrite clique_names.
Qed.

Lemma clique_index (i : nat) :
  i ≤ N →
  index_writers clique_files !! clique_table i = Some [clique_writer].
Proof.
  intros Hi. unfold index_writers, clique_files. cbn [foldl].
  rewrite index_file_lookup, clique_read_text. cbv zeta.
  rewrite (bool_decide_eq_true_2
             (clique_table i ∈ parse_output_tables_from_header (clique_text N)
                               ∪ parse_insertinto_targets (clique_text N))).
  2:{ apply elem_of_union_r. by apply clique_writes. }
  rewrite contains_dot_clique_table, lookup_empty.
  rewrite bool_decide_eq_false_2; [done|].
  intros [Hext _]. vm_compute in Hext. discriminate.
Qed.

Lemma clique_find_writers (i : nat) :
  i ≤ N →
  find_writers_for_table (clique_table i) clique_files (index_writers clique_files)
  = [clique_writer].
Proof.
  intros Hi. unfold find_writers_for_table. cbn [str_lower runtime].
  rewrite lower_clique_table, clique_candidates, clique_index by done.
  reflexivity.
Qed.

Lemma clique_upstreams (i j : nat) :
  i ≤ N → j ≤ N →
  clique_table j ∈ union_upstreams
    (find_writers_for_table (clique_table i) clique_files
       (index_writers clique_files)).
Proof.
  intros Hi Hj. rewrite clique_find_writers by done.
  apply elem_of_union_upstreams. exists clique_writer. split; [by left|].
  unfold get_upstreams_for_writer, clique_writer. cbn [file_path kind].
  rewrite clique_read_text. rewrite bool_decide_eq_true_2 by done.
  by apply clique_reads.
Qed.

(** The enumeration of the first table of the script returns more than [N]
    paths, one of them longer than [N + 1]. *)
Lemma clique_unbounded :
  ∃ paths cache',
    dfs_lineage_paths (lineage_fuel "d.t" clique_files ∅) "d.t" clique_files
      (index_writers clique_files) [] ∅ = Some (paths, cache')
    ∧ N < length paths
    ∧ ∃ p, p ∈ paths ∧ N + 1 < length p.
Proof.
  destruct (dfs_returns (lineage_fuel "d.t" clique_files ∅) "d.t" clique_files
              (index_writers clique_files) [] ∅) as (paths & cache' & Hr); [done|].
  exists paths, cache'. split; [done|].
  apply dfs_without_cache in Hr as [Hp _]; [|apply cache_sound_empty].
  destruct (paths_in_clique (clique_tables N) clique_files (index_writers clique_files))
    with (fuel := lineage_fuel "d.t" clique_files ∅) (start := "d.t")
         (visited := @nil string) (paths := paths) as [Hcount (p & Hp' & Hlen)].
  - intros t (i & Hi & ->)%elem_of_clique_tables. split_and!.
    + apply lower_clique_table.
    + by rewrite clique_find_writers.
    + intros t' (j & Hj & ->)%elem_of_clique_tables. by apply clique_upstreams.
  - apply elem_of_clique_tables. exists 0. split; [lia|done].
  - apply not_elem_of_nil.
  - done.
  - rewrite size_clique_tables in Hcount. split; [lia|].
    exists p. split; [done|].
    assert ((clique_tables N) ∖ list_to_set [] = (clique_tables N)) as Heq.
    { apply set_eq. intros x. rewrite elem_of_difference. simpl.
      rewrite elem_of_empty. tauto. }
    rewrite Heq, size_clique_tables in Hlen. lia.
Qed.

End Graph.

End Clique.

(** ** Counterexamples and instances on concrete corpora *)

(** C1, as stated, fails: no number bounds the paths of every enumeration
    and no number bounds their length.  For every [N] the script of
    [clique_disk N] makes the enumeration of [d.t] return more than [N]
    paths, one of them longer than [N]. *)
Lemma no_ceiling_on_paths_or_depth :
  ¬ ((∃ max_paths : nat,
        ∀ (FS : FileSystem) fuel target files index paths cache',
          @dfs_lineage_paths PyAscii.runtime FS elements_order
             fuel target files index [] ∅ = Some (paths, cache') →
          length paths ≤ max_paths)
     ∨ (∃ max_depth : nat,
          ∀ (FS : FileSystem) fuel target files index paths cache',
            @dfs_lineage_paths PyAscii.runtime FS elements_order
               fuel target files index [] ∅ = Some (paths, cache') →
            ∀ p, p ∈ paths → length p ≤ max_depth)).
Proof.
  intros [[N HN]|[N HN]].
  - destruct (Clique.clique_unbounded N) as (paths & c & Hr & Hcount & _).
    apply HN in Hr. lia.
  - destruct (Clique.clique_unbounded N) as (paths & c & Hr & _ & p & Hp & Hlen).
    eapply HN in Hr; [|done]. lia.
Qed.

(** The smallest member of the family: with three tables the enumeration
    of [d.t] returns eleven paths, up to four tables long. *)
Example clique_two_paths :
  fst <$> @dfs_lineage_paths PyAscii.runtime (clique_disk 2) elements_order
            5 "d.t" clique_files
            (@index_writers PyAscii.runtime (clique_disk 2) elements_order clique_files)
            [] ∅
  = Some [["d.t"; "d.t"]; ["d.t"; "d.t0"; "d.t"]; ["d.t"; "d.t0"; "d.t0"];
          ["d.t"; "d.t0"; "d.t00"; "d.t"]; ["d.t"; "d.t0"; "d.t00"; "d.t0"];
          ["d.t"; "d.t0"; "d.t00"; "d.t00"]; ["d.t"; "d.t00"; "d.t"];
          ["d.t"; "d.t00"; "d.t0"; "d.t"]; ["d.t"; "d.t00"; "d.t0"; "d.t0"];
          ["d.t"; "d.t00"; "d.t0"; "d.t00"]; ["d.t"; "d.t00"; "d.t00"]].
Proof. vm_compute. reflexivity. Qed.

Module Runs.

Example cycle_files_listed :
  @list_code_files PyAscii.runtime cycle_disk "jobs" = cycle_files.
Proof. reflexivity. Qed.

(** The cycle of the spec, [db.a] from [db.b] from [db.a]: the enumeration
    terminates; the second visit of [db.a] is cut and contributes the path
    [[db.a]], so that the returned path names [db.a] twice. *)
Example cycle_enumeration :
  fst <$> @dfs_lineage_paths PyAscii.runtime cycle_disk elements_order
            5 "db.a" cycle_files cycle_index [] ∅
  = Some [["db.a"; "db.b"; "db.a"]].
Proof. vm_compute. reflexivity. Qed.

(** C3, as stated, fails on the cycle: the one returned path contains
    [db.a] twice. *)
Lemma cycle_path_repeats_table :
  ∃ paths cache',
    @dfs_lineage_paths PyAscii.runtime cycle_disk elements_order
       5 "db.a" cycle_files cycle_index [] ∅ = Some (paths, cache')
    ∧ ∃ p, p ∈ paths ∧ ¬ NoDup p.
Proof.
  eexists _, _. split; [vm_compute; reflexivity|].
  exists ["db.a"; "db.b"; "db.a"]. split; [by left|].
  intros Hnd. apply NoDup_cons in Hnd as [Hin _]. apply Hin. right. by left.
Qed.

(** C9, as stated, fails: with an empty (or missing) corpus root and a
    fully-qualified target the run does not abort; it writes the header and
    one row that reports the target as its own source. *)
Lemma empty_root_run_completes :
  @list_code_files PyAscii.runtime empty_disk "nowhere" = []
  ∧ @tracer PyAscii.runtime empty_disk elements_order 2 "nowhere" (Some "db.t")
    = Some (Written [["Target Table"; "Source Table"]; ["db.t"; "db.t"]]).
Proof. split; vm_compute; reflexivity. Qed.

(** *** Instances of the theorems *)

Lemma dfs_terminates_and_cuts_cycles_witness :
  @lineage_fuel PyAscii.runtime cycle_disk "db.b" cycle_files ∅ ≤ 5
  ∧ ∃ paths cache',
      @dfs_lineage_paths PyAscii.runtime cycle_disk elements_order
         5 "db.b" cycle_files cycle_index ["db.a"] ∅ = Some (paths, cache')
      ∧ (@str_lower PyAscii.runtime "db.b" ∈ ["db.a"] →
         paths = [[@str_lower PyAscii.runtime "db.b"]] ∧ cache' = ∅)
      ∧ (@str_lower PyAscii.runtime "db.b" ∉ ["db.a"] →
         (∅ : gmap string (gset string)) !! @str_lower PyAscii.runtime "db.b" = None →
         ∀ w x,
           w ∈ @find_writers_for_table PyAscii.runtime cycle_disk
                 (@str_lower PyAscii.runtime "db.b") cycle_files cycle_index →
           x ∈ @get_upstreams_for_writer PyAscii.runtime cycle_disk w →
           (∃ p, p ∈ paths ∧ p !! 1 = Some (@str_lower PyAscii.runtime x))
           ∧ (@str_lower PyAscii.runtime x
                ∈ ["db.a"] ++ [@str_lower PyAscii.runtime "db.b"] →
              [@str_lower PyAscii.runtime "db.b"; @str_lower PyAscii.runtime x]
                ∈ paths)).
Proof.
  assert (@lineage_fuel PyAscii.runtime cycle_disk "db.b" cycle_files ∅ ≤ 5) as H
    by (vm_compute; lia).
  split; [exact H|].
  exact (@dfs_terminates_and_cuts_cycles PyAscii.runtime cycle_disk elements_order
           5 "db.b" cycle_files cycle_index ["db.a"] ∅ H).
Defined.

(** The call of the instance above: [db.b], entered from [db.a], reads
    [db.a]; that branch is cut and the call returns the path of the two. *)
Example cycle_cut_branch :
  fst <$> @dfs_lineage_paths PyAscii.runtime cycle_disk elements_order
            5 "db.b" cycle_files cycle_index ["db.a"] ∅
  = Some [["db.b"; "db.a"]]
  ∧ fst <$> @dfs_lineage_paths PyAscii.runtime cycle_disk elements_order
              5 "db.a" cycle_files cycle_index ["db.a"; "db.b"] ∅
    = Some [["db.a"]].
Proof. split; vm_compute; reflexivity. Qed.

Lemma dfs_paths_distinct_before_last_witness :
  @lineage_fuel PyAscii.runtime cycle_disk "db.a" cycle_files ∅ ≤ 5
  ∧ ∃ paths cache',
      @dfs_lineage_paths PyAscii.runtime cycle_disk elements_order
         5 "db.a" cycle_files cycle_index [] ∅ = Some (paths, cache')
      ∧ ∀ p, p ∈ paths →
          p ≠ [] ∧ NoDup (removelast p) ∧ ∀ x, x ∈ removelast p → x ∉ @nil string.
Proof.
  assert (@lineage_fuel PyAscii.runtime cycle_disk "db.a" cycle_files ∅ ≤ 5) as H
    by (vm_compute; lia).
  split; [exact H|].
  exact (@dfs_paths_distinct_before_last PyAscii.runtime cycle_disk elements_order
           5 "db.a" cycle_files cycle_index [] ∅ H).
Defined.

Lemma terminal_target_single_row_witness :
  @str_lower PyAscii.runtime "db.src" = "db.src"
  ∧ (@find_writers_for_table PyAscii.runtime cycle_disk "db.src" cycle_files cycle_index
     = []
     ∨ default (@union_upstreams PyAscii.runtime cycle_disk
                  (@find_writers_for_table PyAscii.runtime cycle_disk
                     "db.src" cycle_files cycle_index))
               ((∅ : gmap string (gset string)) !! "db.src") = ∅)
  ∧ (∃ cache', @dfs_lineage_paths PyAscii.runtime cycle_disk elements_order
                 1 "db.src" cycle_files cycle_index [] ∅
               = Some ([["db.src"]], cache'))
  ∧ ∃ row : gmap string string,
      shape_paths_to_rows "db.src" [["db.src"]] = Some [row]
      ∧ row !! "Target Table" = Some "db.src"
      ∧ row !! "Source Table" = Some "db.src"
      ∧ (∀ k, k ≠ "Target Table" → k ≠ "Source Table" → row !! k = None)
      ∧ (∀ i, row !! layer_key i = None).
Proof.
  assert (@str_lower PyAscii.runtime "db.src" = "db.src") as H1 by reflexivity.
  assert (@find_writers_for_table PyAscii.runtime cycle_disk "db.src" cycle_files
            cycle_index = []) as H2 by (vm_compute; reflexivity).
  split; [exact H1|]. split; [left; exact H2|].
  exact (@terminal_target_single_row PyAscii.runtime cycle_disk elements_order
           0 "db.src" cycle_files cycle_index [] ∅ H1 (or_introl H2)).
Defined.

Lemma shape_long_path_witness :
  2 ≤ length ["rpt.a"; "base.b"; "dv.c"]
  ∧ (∃ row : gmap string string,
       shape_paths_to_rows "rpt.a" [["rpt.a"; "base.b"; "dv.c"]] = Some [row]
       ∧ row !! "Target Table" = Some "rpt.a"
       ∧ (∀ i, 1 ≤ i ≤ length ["rpt.a"; "base.b"; "dv.c"] - 2 →
            is_Some (["rpt.a"; "base.b"; "dv.c"] !! i)
            ∧ row !! layer_key i = ["rpt.a"; "base.b"; "dv.c"] !! i)
       ∧ is_Some (last ["rpt.a"; "base.b"; "dv.c"])
       ∧ row !! "Source Table" = last ["rpt.a"; "base.b"; "dv.c"]
       ∧ (∀ k, is_Some (row !! k) →
            k = "Target Table" ∨ k = "Source Table"
            ∨ ∃ i, 1 ≤ i ≤ length ["rpt.a"; "base.b"; "dv.c"] - 2 ∧ k = layer_key i))
  ∧ (∀ fuel files index paths cache',
       @str_lower PyAscii.runtime "rpt.a" = "rpt.a" →
       @dfs_lineage_paths PyAscii.runtime chain_disk elements_order
          fuel "rpt.a" files index [] ∅ = Some (paths, cache') →
       ["rpt.a"; "base.b"; "dv.c"] ∈ paths →
       ["rpt.a"; "base.b"; "dv.c"] !! 0 = Some "rpt.a").
Proof.
  assert (2 ≤ length ["rpt.a"; "base.b"; "dv.c"]) as H by (simpl; lia).
  split; [exact H|].
  exact (@shape_long_path PyAscii.runtime chain_disk elements_order
           "rpt.a" ["rpt.a"; "base.b"; "dv.c"] H).
Defined.

(** The path of the instance above is the one that the enumerator returns
    for [rpt.a] over the chain, and its row. *)
Example chain_path_row :
  fst <$> @dfs_lineage_paths PyAscii.runtime chain_disk elements_order
            5 "rpt.a" chain_files chain_index [] ∅
  = Some [["rpt.a"; "base.b"; "dv.c"]]
  ∧ shape_paths_to_rows "rpt.a" [["rpt.a"; "base.b"; "dv.c"]]
    = Some [ {[ "Target Table" := "rpt.a"; "Layer 1" := "base.b";
                "Source Table" := "dv.c" ]} ].
Proof. split; vm_compute; reflexivity. Qed.

Lemma ambiguous_writers_unioned_witness :
  @lineage_fuel PyAscii.runtime two_writers_disk "rpt.t" two_writers_files ∅ ≤ 5
  ∧ load_x ∈ @find_writers_for_table PyAscii.runtime two_writers_disk
               (@str_lower PyAscii.runtime "rpt.t") two_writers_files two_writers_index
  ∧ load_y ∈ @find_writers_for_table PyAscii.runtime two_writers_disk
               (@str_lower PyAscii.runtime "rpt.t") two_writers_files two_writers_index
  ∧ "src.x" ∈ @get_upstreams_for_writer PyAscii.runtime two_writers_disk load_x
  ∧ "src.y" ∈ @get_upstreams_for_writer PyAscii.runtime two_writers_disk load_y
  ∧ ∃ paths cache',
      @dfs_lineage_paths PyAscii.runtime two_writers_disk elements_order
         5 "rpt.t" two_writers_files two_writers_index [] ∅ = Some (paths, cache')
      ∧ (∃ p, p ∈ paths ∧ p !! 0 = Some (@str_lower PyAscii.runtime "rpt.t")
              ∧ p !! 1 = Some (@str_lower PyAscii.runtime "src.x"))
      ∧ (∃ p, p ∈ paths ∧ p !! 0 = Some (@str_lower PyAscii.runtime "rpt.t")
              ∧ p !! 1 = Some (@str_lower PyAscii.runtime "src.y"))
      ∧ (∀ p y, p ∈ paths → p !! 1 = Some y →
           ∃ w x, w ∈ @find_writers_for_table PyAscii.runtime two_writers_disk
                        (@str_lower PyAscii.runtime "rpt.t")
                        two_writers_files two_writers_index
                  ∧ x ∈ @get_upstreams_for_writer PyAscii.runtime two_writers_disk w
                  ∧ y = @str_lower PyAscii.runtime x).
Proof.
  assert (@lineage_fuel PyAscii.runtime two_writers_disk "rpt.t" two_writers_files ∅
          ≤ 5) as H0 by (vm_compute; lia).
  assert (load_x ∈ @find_writers_for_table PyAscii.runtime two_writers_disk
            (@str_lower PyAscii.runtime "rpt.t") two_writers_files two_writers_index)
    as H1 by (refine (bool_decide_unpack _ _); vm_compute; exact I).
  assert (load_y ∈ @find_writers_for_table PyAscii.runtime two_writers_disk
            (@str_lower PyAscii.runtime "rpt.t") two_writers_files two_writers_index)
    as H2 by (refine (bool_decide_unpack _ _); vm_compute; exact I).
  assert ("src.x" ∈ @get_upstreams_for_writer PyAscii.runtime two_writers_disk load_x)
    as H3 by (refine (bool_decide_unpack _ _); vm_compute; exact I).
  assert ("src.y" ∈ @get_upstreams_for_writer PyAscii.runtime two_writers_disk load_y)
    as H4 by (refine (bool_decide_unpack _ _); vm_compute; exact I).
  split_and!; [exact H0|exact H1|exact H2|exact H3|exact H4|].
  exact (@ambiguous_writers_unioned PyAscii.runtime two_writers_disk elements_order
           5 "rpt.t" two_writers_files two_writers_index load_x load_y
           "src.x" "src.y" H0 H1 H2 H3 H4).
Defined.

(** The two paths of the table with two writers. *)
Example two_writers_enumeration :
  fst <$> @dfs_lineage_paths PyAscii.runtime two_writers_disk elements_order
            5 "rpt.t" two_writers_files two_writers_index [] ∅
  = Some [["rpt.t"; "src.x"]; ["rpt.t"; "src.y"]].
Proof. vm_compute. reflexivity. Qed.

Lemma tracer_exits_only_without_targets_witness :
  @tracer_fuel PyAscii.runtime chain_disk "etl" ≤ 6
  ∧ let fqtn_targets :=
      @resolve_targets PyAscii.runtime elements_order
        (@index_writers PyAscii.runtime chain_disk elements_order
           (@list_code_files PyAscii.runtime chain_disk "etl"))
        (Some "rpt.v_a, b") in
    (fqtn_targets = [] →
     @tracer PyAscii.runtime chain_disk elements_order 6 "etl" (Some "rpt.v_a, b")
     = Some (SysExit 2))
    ∧ (fqtn_targets ≠ [] →
       ∃ records,
         @tracer PyAscii.runtime chain_disk elements_order 6 "etl" (Some "rpt.v_a, b")
         = Some (Written records)
         ∧ length fqtn_targets < length records).
Proof.
  assert (@tracer_fuel PyAscii.runtime chain_disk "etl" ≤ 6) as H
    by (vm_compute; lia).
  split; [exact H|].
  exact (@tracer_exits_only_without_targets PyAscii.runtime chain_disk elements_order
           6 "etl" (Some "rpt.v_a, b") H).
Defined.

(** The run over the chain, for the view and the bare name [b]. *)
Example chain_run :
  @tracer PyAscii.runtime chain_disk elements_order 6 "etl" (Some "rpt.v_a, b")
  = Some (Written [["Target Table"; "Layer 1"; "Layer 2"; "Source Table"];
                   ["base.b"; ""; ""; "dv.c"];
                   ["rpt.v_a"; "rpt.a"; "base.b"; "dv.c"]]).
Proof. vm_compute. reflexivity. Qed.

(** A run without any resolved target exits with status 2. *)
Example chain_run_without_targets :
  @tracer PyAscii.runtime chain_disk elements_order 6 "etl" (Some ",")
  = Some (SysExit 2)
  ∧ @tracer PyAscii.runtime empty_disk elements_order 6 "nowhere" None
    = Some (SysExit 2).
Proof. split; vm_compute; reflexivity. Qed.

Lemma enumeration_complete_per_target_witness :
  @corpus_fuel PyAscii.runtime chain_disk chain_files ≤ 6
  ∧ (∀ target, ∃ paths cache',
       @dfs_lineage_paths PyAscii.runtime chain_disk elements_order
          6 target chain_files chain_index [] ∅ = Some (paths, cache')
       ∧ @paths_without_cache PyAscii.runtime chain_disk elements_order
           6 target chain_files chain_index [] = Some paths
       ∧ ∀ p, p ∈ paths →
           1 ≤ length p
           ≤ @lineage_fuel PyAscii.runtime chain_disk target chain_files ∅)
  ∧ (∀ targets,
       @lineage_rows PyAscii.runtime chain_disk elements_order
          6 chain_files chain_index targets
       = Some (Some (concat (@rows_of_target PyAscii.runtime chain_disk elements_order
                               6 chain_files chain_index <$> targets)))).
Proof.
  assert (@corpus_fuel PyAscii.runtime chain_disk chain_files ≤ 6) as H
    by (vm_compute; lia).
  split; [exact H|].
  exact (@enumeration_complete_per_target PyAscii.runtime chain_disk elements_order
           6 chain_files chain_index H).
Defined.

(** The same run under the two set orders. *)
Example chain_run_reverse_order :
  @tracer PyAscii.runtime chain_disk reverse_order 6 "etl" (Some "rpt.v_a, b")
  = @tracer PyAscii.runtime chain_disk elements_order 6 "etl" (Some "rpt.v_a, b").
Proof. apply tracer_order_irrel. Qed.

End Runs.

(** * Further properties of the script *)

(** ** The paths of the enumerator are the lineage walks *)

Section WalkFacts.
Context `{RT : Runtime} `{FS : FileSystem} `{ORD : SetOrder}.

(** The enumeration without cache returns exactly the walks. *)
Lemma paths_without_cache_walks (files : list string)
    (index : gmap string (list WriterInfo)) (fuel : nat) :
  ∀ start visited paths,
    paths_without_cache fuel start files index visited = Some paths →
    ∀ p, p ∈ paths ↔ lineage_walk files index visited (str_lower start) p.
Proof.
  induction fuel as [|fuel IH]; intros start visited paths; [done|].
  simpl. set (s := str_lower start).
  set (ws := find_writers_for_table s files index).
  set (u := union_upstreams ws).
  case_bool_decide as Hvis.
  { intros [= <-] p. rewrite list_elem_of_singleton. split.
    - intros ->. by apply walk_cut.
    - by inversion 1; subst. }
  set (b := bool_decide (ws = []) || bool_decide (size u = 0)).
  assert (b = true ↔ is_source files index s) as Hsrc.
  { unfold b. rewrite orb_true_iff, !bool_decide_eq_true.
    unfold is_source, upstreams_of.
    fold ws. fold u. split; (intros [?|Hu]; [by left|right]).
    - by apply leibniz_equiv, size_empty_inv.
    - by rewrite Hu, size_empty. }
  destruct (decide (b = true)) as [Hterm|Hterm].
  { rewrite Hterm. apply Hsrc in Hterm.
    intros [= <-] p. rewrite list_elem_of_singleton. split.
    - intros ->. by apply walk_source.
    - inversion 1; subst; try done. }
  assert (¬ is_source files index s) as Hns by (by rewrite <- Hsrc).
  apply not_true_is_false in Hterm. rewrite Hterm.
  destruct (mapM _ (sorted u)) as [subs|] eqn:Hsubs; [|done]. simpl.
  intros [= <-] p. apply mapM_Some_1 in Hsubs.
  rewrite (elem_of_branch_paths _ s (sorted u) subs p Hsubs). split.
  - intros (up & sub & p' & Hup & Hcall & _ & Hp' & ->).
    apply (walk_step _ _ _ _ up); [done|done|by apply elem_of_sorted in Hup|].
    by apply (IH _ _ _ Hcall).
  - inversion 1 as [| |v s' x p' _ _ Hx Hwalk]; subst; try done.
    assert (x ∈ sorted u) as Hup by by apply elem_of_sorted.
    apply list_elem_of_lookup in Hup as [i Hi].
    destruct (Forall2_lookup_l _ _ _ _ _ Hsubs Hi) as (sub & Hsub & Hcall).
    exists x, sub, p'. split_and!; try done.
    + by eapply list_elem_of_lookup_2.
    + by eapply list_elem_of_lookup_2.
    + by apply (IH _ _ _ Hcall).
Qed.

(** The paths that [dfs_lineage_paths] returns for a table are exactly the
    lineage walks from it: every hop goes from a table to the canonical name
    of a table that one of its writers reads, no table before the last is
    visited twice, and the walk ends at a source (no writer, or no upstream)
    or at the table where it closes a cycle. *)
Theorem dfs_paths_are_walks (fuel : nat) (start : string) (files : list string)
    (index : gmap string (list WriterInfo)) (visited : list string) :
  lineage_fuel start files ∅ ≤ fuel →
  ∃ paths cache',
    dfs_lineage_paths fuel start files index visited ∅ = Some (paths, cache')
    ∧ ∀ p, p ∈ paths ↔ lineage_walk files index visited (str_lower start) p.
Proof.
  intros Hfuel.
  destruct (dfs_returns fuel start files index visited ∅ Hfuel) as (paths & c & Hr).
  exists paths, c. split; [done|].
  apply dfs_without_cache in Hr as [Hr _]; [|apply cache_sound_empty].
  by apply paths_without_cache_walks with (fuel := fuel).
Qed.

End WalkFacts.

(** ** The writer index, entry by entry *)

Section IndexFacts.
Context `{RT : Runtime} `{FS : FileSystem} `{ORD : SetOrder}.

Lemma elem_of_flat_map {A B} (f : A → list B) (l : list A) (y : B) :
  y ∈ flat_map f l ↔ ∃ x, x ∈ l ∧ y ∈ f x.
Proof.
  rewrite list_elem_of_In, in_flat_map. split.
  - intros (x & ?%list_elem_of_In & ?%list_elem_of_In). eauto.
  - intros (x & ?%list_elem_of_In & ?%list_elem_of_In). eauto.
Qed.

(** The entry of [k] after the loop body for the file [p]. *)
Lemma index_file_contribution (idx : gmap string (list WriterInfo)) (p k : string) :
  index_file idx p !! k
  = if decide (index_contribution p k = []) then idx !! k
    else Some (default [] (idx !! k) ++ index_contribution p k).
Proof.
  rewrite index_file_lookup. unfold index_contribution.
  destruct (read_text p) as [text|]; [|done]. cbv zeta.
  fold (declared_outputs text).
  destruct (bool_decide (k ∈ declared_outputs text) && contains_dot k);
    destruct (bool_decide (_ ∧ _)); simpl; try done.
  by rewrite <- app_assoc.
Qed.

Lemma foldl_index_file_lookup (files : list string)
    (idx : gmap string (list WriterInfo)) (k : string) :
  foldl index_file idx files !! k
  = if decide (flat_map (λ p, index_contribution p k) files = []) then idx !! k
    else Some (default [] (idx !! k) ++ flat_map (λ p, index_contribution p k) files).
Proof.
  revert idx. induction files as [|p files IH]; intros idx; simpl; [done|].
  rewrite IH, index_file_contribution.
  destruct (decide (index_contribution p k = [])) as [->|Hp]; simpl; [done|].
  destruct (decide (flat_map _ files = [])) as [->|Hfs]; simpl.
  - rewrite app_nil_r. rewrite decide_False; [done|by destruct (index_contribution p k)].
  - rewrite decide_False by (by destruct (index_contribution p k)).
    by rewrite app_assoc.
Qed.

Lemma index_writers_lookup (files : list string) (k : string) :
  index_writers files !! k
  = if decide (flat_map (λ p, index_contribution p k) files = []) then None
    else Some (flat_map (λ p, index_contribution p k) files).
Proof. unfold index_writers. rewrite foldl_index_file_lookup. by destruct decide. Qed.

Lemma elem_of_index_contribution (p k : string) (w : WriterInfo) :
  w ∈ index_contribution p k ↔
  file_path w = p ∧ ∃ text, read_text p = Some text ∧ contains_dot k = true
    ∧ ((kind w = "spark" ∧ k ∈ declared_outputs text)
       ∨ (kind w = "view" ∧ str_lower (path_splitext_ext p) = ".sql"
          ∧ parse_view_name text = Some k)).
Proof.
  unfold index_contribution. destruct (read_text p) as [text|].
  2:{ rewrite elem_of_nil. split; [done|]. by intros (_ & ? & ? & _). }
  rewrite elem_of_app. split.
  - intros [Hw|Hw].
    + destruct (bool_decide _ && _) eqn:Hb; [|by apply elem_of_nil in Hw].
      apply andb_true_iff in Hb as [Hin%bool_decide_eq_true Hdot].
      apply list_elem_of_singleton in Hw as ->. simpl. eauto 10.
    + case_bool_decide as Hb; [|by apply elem_of_nil in Hw].
      destruct Hb as (Hext & Hv & _ & Hdot).
      apply list_elem_of_singleton in Hw as ->. simpl. eauto 10.
  - intros (<- & t & [= <-] & Hdot & [[Hk Hin]|(Hk & Hext & Hv)]).
    + left. rewrite (bool_decide_eq_true_2 _ Hin), Hdot. simpl.
      apply list_elem_of_singleton. destruct w as [fp kd]. simpl in *. by subst.
    + right. rewrite bool_decide_eq_true_2.
      * apply list_elem_of_singleton. destruct w as [fp kd]. simpl in *. by subst.
      * split_and!; try done. intros ->. done.
Qed.

(** The index that [index_writers] builds: the entry of a key lists, file
    after file in the order of the file list, a 'spark' writer when the
    header or an insertInto call of the file names the key and then a 'view'
    writer when the file is a [.sql] file whose CREATE VIEW names the key.
    Only keys with a dot are registered, files that cannot be read register
    nothing, and no key is registered with an empty list. *)
Theorem index_writers_entries (files : list string) :
  (∀ k, default [] (index_writers files !! k)
        = flat_map (λ p, index_contribution p k) files)
  ∧ (∀ k ws, index_writers files !! k = Some ws →
             ws ≠ [] ∧ contains_dot k = true)
  ∧ (∀ k w, w ∈ default [] (index_writers files !! k) ↔
       file_path w ∈ files
       ∧ ∃ text, read_text (file_path w) = Some text ∧ contains_dot k = true
           ∧ ((kind w = "spark" ∧ k ∈ declared_outputs text)
              ∨ (kind w = "view"
                 ∧ str_lower (path_splitext_ext (file_path w)) = ".sql"
                 ∧ parse_view_name text = Some k))).
Proof.
  assert (∀ k w, w ∈ flat_map (λ p, index_contribution p k) files ↔
       file_path w ∈ files
       ∧ ∃ text, read_text (file_path w) = Some text ∧ contains_dot k = true
           ∧ ((kind w = "spark" ∧ k ∈ declared_outputs text)
              ∨ (kind w = "view"
                 ∧ str_lower (path_splitext_ext (file_path w)) = ".sql"
                 ∧ parse_view_name text = Some k))) as Hmem.
  { intros k w. rewrite elem_of_flat_map. split.
    - intros (p & Hp & (<- & Hw)%elem_of_index_contribution). eauto.
    - intros (Hp & Hw). exists (file_path w). split; [done|].
      apply elem_of_index_contribution. eauto. }
  assert (∀ k, default [] (index_writers files !! k)
               = flat_map (λ p, index_contribution p k) files) as Hlist.
  { intros k. rewrite index_writers_lookup. by destruct decide as [->|]. }
  split_and!; [done| |].
  - intros k ws. rewrite index_writers_lookup.
    destruct decide as [|Hne]; [done|]. intros [= <-]. split; [done|].
    destruct (flat_map _ files) as [|w ws] eqn:Hfm; [done|].
    assert (w ∈ flat_map (λ p, index_contribution p k) files) as Hw
      by (rewrite Hfm; by left).
    by apply Hmem in Hw as (_ & text & _ & Hdot & _).
  - intros k w. by rewrite Hlist.
Qed.

End IndexFacts.

(** ** The lookup over the index of the corpus *)

Section BuiltIndex.
Context `{RT : Runtime} `{FS : FileSystem} `{ORD : SetOrder}.

(** The elements of the result of [find_writers_for_table]. *)
Lemma elem_of_find_writers (t : string) (files : list string)
    (index : gmap string (list WriterInfo)) (w : WriterInfo) :
  let t' := str_lower t in
  let candidates := filter_candidate_files_by_name files t' in
  let indexed w := w ∈ default [] (index !! t') ∧ file_path w ∈ candidates in
  w ∈ find_writers_for_table t files index ↔
  indexed w
  ∨ ((∀ w', ¬ indexed w') ∧ ∃ p, p ∈ candidates ∧ w ∈ direct_parse t' p).
Proof.
  intros t' candidates indexed. unfold find_writers_for_table.
  fold t'. fold candidates. rewrite elem_of_dedup_first.
  set (ws := match index !! t' with Some ws => _ | None => [] end).
  assert (∀ w, w ∈ ws ↔ indexed w) as Hws.
  { intros w0. subst ws indexed. simpl. destruct (index !! t') as [l|]; simpl.
    - by rewrite list_elem_of_In, filter_In, <- list_elem_of_In, bool_decide_eq_true.
    - rewrite elem_of_nil. naive_solver. }
  case_bool_decide as Hnil.
  - rewrite elem_of_flat_map. split.
    + intros Hp. right. split; [|done].
      intros w' Hw'%Hws. rewrite Hnil in Hw'. by apply elem_of_nil in Hw'.
    + intros [Hw%Hws|[_ ?]]; [|done]. rewrite Hnil in Hw. by apply elem_of_nil in Hw.
  - rewrite Hws. split; [by left|]. intros [?|[Hno _]]; [done|].
    destruct ws as [|w0 ws0]; [done|]. exfalso. apply (Hno w0), Hws. by left.
Qed.

(** Over the index of the same file list, a table has a writer exactly
    when some readable file of the list that mentions it (between word
    boundaries, in lower case) declares it in its header or an insertInto
    call or names it in its CREATE VIEW; and every writer that the lookup
    returns is such a file. *)
Theorem find_writers_over_built_index (t : string) (files : list string) :
  let t' := str_lower t in
  let writers := find_writers_for_table t files (index_writers files) in
  (∀ w, w ∈ writers →
     file_path w ∈ filter_candidate_files_by_name files t'
     ∧ ∃ text, read_text (file_path w) = Some text
         ∧ ((kind w = "spark" ∧ t' ∈ declared_outputs text)
            ∨ (kind w = "view" ∧ parse_view_name text = Some t')))
  ∧ (writers ≠ [] ↔
     ∃ p text, p ∈ filter_candidate_files_by_name files t'
       ∧ read_text p = Some text
       ∧ (t' ∈ declared_outputs text ∨ parse_view_name text = Some t')).
Proof.
  intros t' writers. subst t'.
  pose proof (index_writers_entries files) as (_ & _ & Hidx).
  assert (∀ w, w ∈ writers →
     file_path w ∈ filter_candidate_files_by_name files (str_lower t)
     ∧ ∃ text, read_text (file_path w) = Some text
         ∧ ((kind w = "spark" ∧ (str_lower t) ∈ declared_outputs text)
            ∨ (kind w = "view" ∧ parse_view_name text = Some (str_lower t)))) as Hsound.
  { intros w Hw. apply elem_of_find_writers in Hw as [[Hw Hc]|[_ (p & Hp & Hw)]].
    - split; [done|]. apply Hidx in Hw as (_ & text & Hr & _ & Hk).
      exists text. split; [done|]. destruct Hk as [?|(? & _ & ?)]; eauto.
    - apply elem_of_direct_parse in Hw as (<- & text & Hr & Hk). split; [done|].
      exists text. split; [done|]. destruct Hk as [?|(? & _ & ?)]; eauto. }
  split; [done|]. split.
  - intros Hne. destruct writers as [|w ws] eqn:Hw; [done|].
    destruct (Hsound w) as (Hc & text & Hr & Hk); [by left|].
    exists (file_path w), text. split_and!; [done..|]. destruct Hk as [[_ ?]|[_ ?]]; eauto.
  - intros (p & text & Hc & Hr & Hdecl).
    set (indexed w := w ∈ default [] (index_writers files !! (str_lower t))
                      ∧ file_path w ∈ filter_candidate_files_by_name files (str_lower t)).
    assert (∃ w, w ∈ writers) as [w Hw]; [|intros Hnil; rewrite Hnil in Hw;
                                           by apply elem_of_nil in Hw].
    destruct (decide ((str_lower t) ∈ declared_outputs text)) as [Hin|Hout].
    + destruct (contains_dot (str_lower t)) eqn:Hdot.
      * exists (mkWriterInfo p "spark"). apply elem_of_find_writers. left.
        split; [|done]. apply Hidx. simpl. split.
        -- by apply elem_of_candidates in Hc as [? _].
        -- exists text. eauto 10.
      * exists (mkWriterInfo p "spark"). apply elem_of_find_writers. right. split.
        -- intros w' [Hw' _]. apply Hidx in Hw' as (_ & ? & _ & Hd & _).
           congruence.
        -- exists p. split; [done|]. apply elem_of_direct_parse. simpl.
           split; [done|]. exists text. eauto 10.
    + destruct Hdecl as [?|Hview]; [done|].
      destruct (default [] (index_writers files !! (str_lower t))) as [|w0 l] eqn:Hl.
      * exists (mkWriterInfo p "view"). apply elem_of_find_writers. right. split.
        -- intros w' [Hw' _]. rewrite Hl in Hw'. by apply elem_of_nil in Hw'.
        -- exists p. split; [done|]. apply elem_of_direct_parse. simpl.
           split; [done|]. exists text. eauto 10.
      * destruct (List.filter (λ w, bool_decide
                    (file_path w ∈ filter_candidate_files_by_name files (str_lower t)))
                    (w0 :: l)) as [|w1 l1] eqn:Hf.
        -- exists (mkWriterInfo p "view"). apply elem_of_find_writers. right. split.
           ++ intros w' [Hw' Hc']. rewrite Hl in Hw'.
              assert (w' ∈ List.filter (λ w, bool_decide
                        (file_path w ∈ filter_candidate_files_by_name files (str_lower t)))
                        (w0 :: l)) as Hin.
              { rewrite list_elem_of_In, filter_In, <- list_elem_of_In,
                  bool_decide_eq_true. done. }
              rewrite Hf in Hin. by apply elem_of_nil in Hin.
           ++ exists p. split; [done|]. apply elem_of_direct_parse. simpl.
              split; [done|]. exists text. eauto 10.
        -- exists w1. apply elem_of_find_writers. left.
           assert (w1 ∈ List.filter (λ w, bool_decide
                     (file_path w ∈ filter_candidate_files_by_name files (str_lower t)))
                     (w0 :: l)) as Hin by (rewrite Hf; by left).
           rewrite list_elem_of_In, filter_In, <- list_elem_of_In,
             bool_decide_eq_true in Hin.
           by rewrite Hl.
Qed.

End BuiltIndex.

(** ** The order of the files does not matter *)

Section FileOrder.
Context `{RT : Runtime} `{FS : FileSystem} `{ORD : SetOrder}.

Lemma union_upstreams_same (ws ws' : list WriterInfo) :
  (∀ w, w ∈ ws ↔ w ∈ ws') → union_upstreams ws = union_upstreams ws'.
Proof.
  intros Hsame. apply set_eq. intros x. rewrite !elem_of_union_upstreams.
  split; intros (w & Hw & Hx); exists w; split; try done; by apply Hsame.
Qed.

Lemma nil_same {A} (l l' : list A) : (∀ x, x ∈ l ↔ x ∈ l') → l = [] ↔ l' = [].
Proof.
  intros Hsame. split; intros ->.
  - destruct l' as [|x l']; [done|]. exfalso. eapply elem_of_nil, Hsame. by left.
  - destruct l as [|x l]; [done|]. exfalso. eapply elem_of_nil, Hsame. by left.
Qed.

(** The writers of a table, as a set, depend on the file list and on the
    index entries only as sets. *)
Lemma find_writers_same (t : string) (files files' : list string)
    (index index' : gmap string (list WriterInfo)) :
  (∀ p, p ∈ files ↔ p ∈ files') →
  (∀ k w, w ∈ default [] (index !! k) ↔ w ∈ default [] (index' !! k)) →
  ∀ w, w ∈ find_writers_for_table t files index
       ↔ w ∈ find_writers_for_table t files' index'.
Proof.
  intros Hfiles Hindex w. rewrite !elem_of_find_writers. cbv zeta.
  assert (∀ p, p ∈ filter_candidate_files_by_name files (str_lower t)
               ↔ p ∈ filter_candidate_files_by_name files' (str_lower t)) as Hc.
  { intros p. rewrite !elem_of_candidates. by rewrite Hfiles. }
  rewrite Hindex, Hc.
  assert ((∀ w', ¬ (w' ∈ default [] (index !! str_lower t)
                    ∧ file_path w' ∈ filter_candidate_files_by_name files (str_lower t)))
          ↔ (∀ w', ¬ (w' ∈ default [] (index' !! str_lower t)
                      ∧ file_path w' ∈ filter_candidate_files_by_name files' (str_lower t))))
    as ->.
  { split; intros Hno w'; specialize (Hno w'); by rewrite ?Hindex, ?Hc in *. }
  assert ((∃ p, p ∈ filter_candidate_files_by_name files (str_lower t)
                ∧ w ∈ direct_parse (str_lower t) p)
          ↔ (∃ p, p ∈ filter_candidate_files_by_name files' (str_lower t)
                  ∧ w ∈ direct_parse (str_lower t) p)) as ->; [|done].
  split; intros (p & Hp & Hw); exists p; split; try done; by apply Hc.
Qed.

Lemma dfs_same_files (files files' : list string)
    (index index' : gmap string (list WriterInfo)) :
  (∀ p, p ∈ files ↔ p ∈ files') →
  (∀ k w, w ∈ default [] (index !! k) ↔ w ∈ default [] (index' !! k)) →
  ∀ fuel start visited cache,
    dfs_lineage_paths fuel start files index visited cache
    = dfs_lineage_paths fuel start files' index' visited cache.
Proof.
  intros Hfiles Hindex. induction fuel as [|fuel IH]; intros start visited cache;
    [done|].
  rewrite !dfs_unfold. cbv zeta.
  pose proof (find_writers_same (str_lower start) files files' index index'
                Hfiles Hindex) as Hws.
  rewrite (union_upstreams_same _ _ Hws).
  assert (bool_decide (find_writers_for_table (str_lower start) files index = [])
          = bool_decide (find_writers_for_table (str_lower start) files' index' = []))
    as -> by (apply bool_decide_ext; by apply nil_same).
  case_bool_decide; [done|]. destruct (_ || _); [done|].
  apply branch_loop_ext. intros up v c. apply IH.
Qed.

(** The result does not depend on the order in which [os.walk] lists the
    files, nor on a file being listed more than once: two file lists with the
    same files give indexes with the same writers for every key and the same
    keys, hence the same resolved targets, the same paths and cache for
    every call of the enumerator, and the same rows. *)
Theorem file_order_irrelevant (files files' : list string) :
  (∀ p, p ∈ files ↔ p ∈ files') →
  (∀ k w, w ∈ default [] (index_writers files !! k)
          ↔ w ∈ default [] (index_writers files' !! k))
  ∧ dom (index_writers files) = dom (index_writers files')
  ∧ (∀ targets, resolve_targets (index_writers files) targets
                = resolve_targets (index_writers files') targets)
  ∧ (∀ fuel start visited cache,
       dfs_lineage_paths fuel start files (index_writers files) visited cache
       = dfs_lineage_paths fuel start files' (index_writers files') visited cache)
  ∧ (∀ fuel targets,
       lineage_rows fuel files (index_writers files) targets
       = lineage_rows fuel files' (index_writers files') targets).
Proof.
  intros Hfiles.
  assert (∀ k w, w ∈ default [] (index_writers files !! k)
                 ↔ w ∈ default [] (index_writers files' !! k)) as Hindex.
  { intros k w.
    pose proof (index_writers_entries files) as (_ & _ & ->).
    pose proof (index_writers_entries files') as (_ & _ & ->).
    by rewrite Hfiles. }
  assert (dom (index_writers files) = dom (index_writers files')) as Hdom.
  { apply set_eq. intros k. rewrite !elem_of_dom.
    assert (∀ fs, is_Some (index_writers fs !! k)
                  ↔ default [] (index_writers fs !! k) ≠ []) as Hsome.
    { intros fs. pose proof (index_writers_entries fs) as (_ & Hne & _).
      destruct (index_writers fs !! k) as [ws|] eqn:Hk; simpl.
      - split; [intros _; by apply (Hne k ws)|eauto].
      - split; [by intros [? ?]|done]. }
    rewrite !Hsome.
    pose proof (nil_same _ _ (Hindex k)). tauto. }
  pose proof (dfs_same_files files files' _ _ Hfiles Hindex) as Hdfs.
  split_and!; [done|done| |done|].
  - intros targets. unfold resolve_targets, _expand_bare_table. by rewrite Hdom.
  - intros fuel targets. induction targets as [|t targets IH]; simpl; [done|].
    by rewrite Hdfs, IH.
Qed.

End FileOrder.

(** ** The targets of a run *)

Lemma contains_dot_cons (c : ascii) (s : string) :
  contains_dot s = true → contains_dot (String c s) = true.
Proof. intros Hs. simpl. by destruct decide. Qed.

Lemma substring_contains_dot (k : string) (i m : nat) (rest : string) :
  String.substring i m k = String "." rest → contains_dot k = true.
Proof.
  revert i m. induction k as [|a k IH]; intros i m.
  - by destruct i, m.
  - destruct i as [|i]; simpl.
    + destruct m as [|m]; [done|]. intros [= -> _]. reflexivity.
    + intros Hs. apply contains_dot_cons. by eapply IH.
Qed.

Lemma endswith_contains_dot (k bare : string) :
  endswith k ("." +:+ bare) = true → contains_dot k = true.
Proof.
  unfold endswith. destruct decide; [|done]. intros Hs%bool_decide_eq_true.
  by eapply substring_contains_dot.
Qed.

Section Targets.
Context `{RT : Runtime} `{FS : FileSystem} `{ORD : SetOrder}.

Lemma elem_of_expand_bare_table (index : gmap string (list WriterInfo))
    (tbl_bare t : string) :
  t ∈ _expand_bare_table index tbl_bare ↔
  t ∈ dom index ∧ endswith t ("." +:+ str_lower (str_strip tbl_bare)) = true.
Proof.
  unfold _expand_bare_table. cbv zeta. rewrite elem_of_sorted, elem_of_filter. tauto.
Qed.

(** The resolved targets of a run: the list is in increasing order without
    repetition; every target has a dot, that is, it is fully qualified; a
    target is either the stripped, lower-cased form of a raw target that has
    a dot, or a key of the writer index that ends with a dot followed by
    the stripped, lower-cased form of a raw target without dot.  A bare
    name that no key ends with contributes nothing. *)
Theorem resolve_targets_qualified (index : gmap string (list WriterInfo))
    (targets : option string) :
  let fqtn_targets := resolve_targets index targets in
  Sorted String.le fqtn_targets ∧ NoDup fqtn_targets
  ∧ (∀ t, t ∈ fqtn_targets → contains_dot t = true)
  ∧ (∀ t, t ∈ fqtn_targets ↔
       ∃ x, x ∈ raw_targets targets
         ∧ if contains_dot (str_lower (str_strip x))
           then t = str_lower (str_strip x)
           else t ∈ dom index
                ∧ endswith t ("." +:+ str_lower (str_strip x)) = true).
Proof.
  intros fqtn_targets.
  assert (∀ t, t ∈ fqtn_targets ↔
       ∃ x, x ∈ raw_targets targets
         ∧ if contains_dot (str_lower (str_strip x))
           then t = str_lower (str_strip x)
           else t ∈ dom index
                ∧ endswith t ("." +:+ str_lower (str_strip x)) = true) as Hmem.
  { intros t. unfold fqtn_targets, resolve_targets. cbv zeta.
    fold (raw_targets targets).
    rewrite elem_of_sorted, elem_of_list_to_set, elem_of_flat_map.
    assert (∀ x, t ∈ match _normalize_fqtn_or_none x with
                     | Some fq => if bool_decide (fq ≠ "") then [fq]
                                  else _expand_bare_table index x
                     | None => _expand_bare_table index x
                     end
                 ↔ if contains_dot (str_lower (str_strip x))
                   then t = str_lower (str_strip x)
                   else t ∈ dom index
                        ∧ endswith t ("." +:+ str_lower (str_strip x)) = true)
      as Hone.
    { intros x. unfold _normalize_fqtn_or_none. cbv zeta.
      destruct (contains_dot (str_lower (str_strip x))) eqn:Hdot.
      - rewrite bool_decide_eq_true_2 by (intros Hemp; by rewrite Hemp in Hdot).
        apply list_elem_of_singleton.
      - apply elem_of_expand_bare_table. }
    split; intros (x & Hx & Ht); exists x; (split; [done|]); by apply Hone. }
  split_and!; [apply Sorted_sorted|apply NoDup_sorted| |done].
  intros t (x & _ & Ht)%Hmem.
  destruct (contains_dot (str_lower (str_strip x))) eqn:Hdot.
  - by rewrite Ht.
  - destruct Ht as [_ Ht]. by eapply endswith_contains_dot.
Qed.

End Targets.

(** ** Rows and records *)

(** The row of a path that has an element. *)
Lemma shape_path_some (target : string) (p : list string) :
  p ≠ [] →
  ∃ leaf, last p = Some leaf
    ∧ shape_path target p
      = Some (<["Source Table" := leaf]>
                (foldl (λ row (e : nat * string), <[layer_key e.1 := e.2]> row)
                       (<["Target Table" := target]> ∅)
                       (zip (seq 1 (length (drop 1 (take (length p - 1) p))))
                            (drop 1 (take (length p - 1) p))))).
Proof.
  intros Hne. destruct (last_is_Some p) as [_ [leaf Hleaf]]; [done|].
  exists leaf. split; [done|]. unfold shape_path. case_bool_decide as Hlen.
  - destruct p as [|x [|y p]]; try done. simpl in *. by injection Hleaf as <-.
  - by rewrite Hleaf.
Qed.

Lemma shape_path_none (target : string) (p : list string) :
  shape_path target p = None ↔ p = [].
Proof.
  split; [|by intros ->].
  intros Hnone. destruct p as [|x p]; [done|].
  destruct (shape_path_some target (x :: p)) as (leaf & _ & Hs); [done|].
  by rewrite Hs in Hnone.
Qed.

(** The fields of the row of a path. *)
Lemma shape_path_fields (target : string) (p : list string)
    (row : gmap string string) :
  shape_path target p = Some row →
  let inter := drop 1 (take (length p - 1) p) in
  row !! "Target Table" = Some target
  ∧ row !! "Source Table" = last p
  ∧ (∀ i, row !! layer_key (S i) = inter !! i)
  ∧ (∀ k, is_Some (row !! k) →
       k = "Target Table" ∨ k = "Source Table"
       ∨ ∃ i, i < length inter ∧ k = layer_key (S i)).
Proof.
  intros Hrow inter.
  assert (p ≠ []) as Hne by (intros ->; done).
  destruct (shape_path_some target p Hne) as (leaf & Hleaf & Hs).
  rewrite Hs in Hrow. injection Hrow as <-. fold inter. split_and!.
  - rewrite lookup_insert_ne by done.
    rewrite foldl_layers_other; [apply lookup_insert_eq|].
    intros i _ Heq. by eapply layer_key_not_target.
  - by rewrite lookup_insert_eq.
  - intros i. rewrite lookup_insert_ne by (intros Heq; by eapply layer_key_not_source).
    destruct (decide (i < length inter)) as [Hi|Hi].
    + apply (foldl_layers_lookup _ 1 inter i Hi).
    + rewrite foldl_layers_other.
      * rewrite lookup_insert_ne by (intros Heq; by eapply layer_key_not_target).
        rewrite lookup_empty. symmetry. apply lookup_ge_None. lia.
      * intros j Hj Heq%layer_key_inj. lia.
  - intros k Hk. destruct (decide (k = "Source Table")) as [->|Hsrc]; [by auto|].
    rewrite lookup_insert_ne in Hk by done.
    apply foldl_layers_is_Some in Hk as [Hk|(i & Hi & ->)].
    + destruct (decide (k = "Target Table")) as [->|Ht]; [by auto|].
      rewrite lookup_insert_ne, lookup_empty in Hk by done. by destruct Hk.
    + eauto.
Qed.

(** The shaper raises exactly on an empty path ([p[-1]] of an empty list);
    otherwise it returns one row for every path, in the order of the paths:
    the Target field of the row is the target that was passed, whatever the
    path starts with, its Source field is the last element of the path, and
    a path of one element gives a row with these two fields only. *)
Theorem shape_paths_raises_on_empty_path (target : string)
    (paths : list (list string)) :
  (shape_paths_to_rows target paths = None ↔ [] ∈ paths)
  ∧ (∀ rows, shape_paths_to_rows target paths = Some rows →
       length rows = length paths
       ∧ ∀ i p, paths !! i = Some p →
           ∃ row, rows !! i = Some row
             ∧ row !! "Target Table" = Some target
             ∧ row !! "Source Table" = last p
             ∧ (length p = 1 →
                ∀ k, k ≠ "Target Table" → k ≠ "Source Table" → row !! k = None)).
Proof.
  unfold shape_paths_to_rows. split.
  - rewrite mapM_None, Exists_exists. split.
    + intros (p & Hp & ->%shape_path_none). done.
    + intros Hin. exists []. done.
  - intros rows Hrows%mapM_Some_1. split; [symmetry; by eapply Forall2_length|].
    intros i p Hp.
    destruct (Forall2_lookup_l _ _ _ _ _ Hrows Hp) as (row & Hrow & Hshape).
    exists row. split; [done|].
    destruct (shape_path_fields target p row Hshape) as (Ht & Hs & _ & Hkeys).
    split_and!; [done..|].
    intros Hlen k Hk1 Hk2. apply eq_None_not_Some. intros Hk.
    apply Hkeys in Hk as [?|[?|(j & Hj & _)]]; [done..|].
    rewrite length_drop, length_take in Hj. lia.
Qed.

(** *** The Layer columns *)

Lemma startswith_layer_key (i : nat) : startswith (layer_key i) "Layer " = true.
Proof.
  unfold startswith, layer_key. generalize (pretty i). intros s.
  change ("Layer " +:+ s)
    with (String "L" (String "a" (String "y" (String "e" (String "r" (String " " s)))))).
  by destruct s.
Qed.

Lemma fmap_seq_lookup {A} (g : nat → A) (l : list A) (a : nat) :
  (∀ i x, l !! i = Some x → g (a + i) = x) → g <$> seq a (length l) = l.
Proof.
  revert a. induction l as [|x l IH]; intros a Hg; simpl; [done|]. f_equal.
  - rewrite <- (Hg 0 x); [|done]. f_equal. lia.
  - apply IH. intros i y Hi. rewrite <- (Hg (S i) y Hi). f_equal. lia.
Qed.

Lemma fmap_seq_const {A} (g : nat → A) (a n : nat) (c : A) :
  (∀ i, i < n → g (a + i) = c) → g <$> seq a n = replicate n c.
Proof.
  revert a. induction n as [|n IH]; intros a Hg; simpl; [done|]. f_equal.
  - rewrite <- (Hg 0); [|lia]. f_equal. lia.
  - apply IH. intros i Hi. rewrite <- (Hg (S i)); [|lia]. f_equal. lia.
Qed.

Lemma max_inter_cons (p : list string) (paths : list (list string)) :
  max_inter (p :: paths) = (length p - 2) `max` max_inter paths.
Proof. reflexivity. Qed.

Lemma max_inter_ge (paths : list (list string)) (p : list string) :
  p ∈ paths → length p - 2 ≤ max_inter paths.
Proof.
  induction paths as [|q paths IH]; [by intros ?%elem_of_nil|].
  intros [->|Hp]%elem_of_cons; simpl; [lia|]. specialize (IH Hp). lia.
Qed.

Section CsvFacts.
Context `{RT : Runtime}.

(** The inner loop of [write_csv] over the keys of one row: the result is
    the start value or the number of a Layer key, and no smaller than
    either. *)
Lemma max_layer_keys (keys : list string) (m : Z) :
  let r := foldl (λ max_layer k,
                    if startswith k "Layer " then
                      match layer_number k with
                      | Some n => Z.max max_layer n
                      | None => max_layer
                      end
                    else max_layer) m keys in
  (m ≤ r)%Z
  ∧ (∀ k n, k ∈ keys → startswith k "Layer " = true → layer_number k = Some n →
            (n ≤ r)%Z)
  ∧ (r = m ∨ ∃ k, k ∈ keys ∧ startswith k "Layer " = true
                  ∧ layer_number k = Some r).
Proof.
  revert m. induction keys as [|k keys IH]; intros m; simpl.
  - split_and!; [lia| |by left]. by intros k n ?%elem_of_nil.
  - set (m' := if startswith k "Layer " then _ else m).
    destruct (IH m') as (Hge & Hall & Hatt). cbv zeta.
    set (r := foldl _ m' keys) in *.
    assert (m ≤ m')%Z as Hm.
    { subst m'. destruct (startswith k "Layer "); [|lia].
      destruct (layer_number k); lia. }
    split_and!; [lia| |].
    + intros k' n [->|Hk']%elem_of_cons Hpre Hn; [|by eapply Hall].
      subst m'. rewrite Hpre, Hn in Hge. lia.
    + destruct Hatt as [Hr|(k' & Hk' & Hpre & Hn)].
      * subst m'. destruct (startswith k "Layer ") eqn:Hpre; [|by left].
        destruct (layer_number k) as [n|] eqn:Hn; [|by left].
        destruct (Z.max_spec m n) as [[_ Hmax]|[_ Hmax]].
        -- right. exists k. split_and!; [by left|done|]. by rewrite Hn, Hr, Hmax.
        -- left. by rewrite Hr, Hmax.
      * right. exists k'. split_and!; [by right|done..].
Qed.

(** The inner loop over the row of a path, when [int] and [split] read the
    number of its Layer keys back. *)
Lemma max_layer_row (target : string) (p : list string) (row : gmap string string)
    (m : Z) :
  shape_path target p = Some row →
  (∀ i, 1 ≤ i ≤ length p - 2 → layer_number (layer_key i) = Some (Z.of_nat i)) →
  (0 ≤ m)%Z →
  foldl (λ max_layer k,
           if startswith k "Layer " then
             match layer_number k with
             | Some n => Z.max max_layer n
             | None => max_layer
             end
           else max_layer) m (map_to_list row).*1
  = Z.max m (Z.of_nat (length p - 2)).
Proof.
  intros Hrow Hint Hm.
  destruct (shape_path_fields target p row Hrow) as (_ & _ & Hlayers & Hkeys).
  set (inter := drop 1 (take (length p - 1) p)) in *.
  assert (length inter = length p - 2) as Hlen.
  { subst inter. rewrite length_drop, length_take. lia. }
  assert (∀ k, k ∈ (map_to_list row).*1 ↔ is_Some (row !! k)) as Hin.
  { intros k. rewrite list_elem_of_fmap. split.
    - intros ([k' v] & -> & Hkv%elem_of_map_to_list). by exists v.
    - intros [v Hv]. exists (k, v). split; [done|]. by apply elem_of_map_to_list. }
  destruct (max_layer_keys (map_to_list row).*1 m) as (Hge & Hall & Hatt).
  set (r := foldl _ m _) in *.
  assert (r ≤ Z.max m (Z.of_nat (length p - 2)))%Z.
  { destruct Hatt as [->|(k & Hk%Hin & Hpre & Hn)]; [lia|].
    apply Hkeys in Hk as [->|[->|(i & Hi & ->)]]; [done..|].
    rewrite Hint in Hn by lia. injection Hn as <-. lia. }
  assert (Z.of_nat (length p - 2) ≤ r)%Z.
  { destruct (decide (length p - 2 = 0)) as [->|Hpos]; [simpl; lia|].
    apply (Hall (layer_key (length p - 2))).
    - apply Hin. destruct (length p - 2) as [|n] eqn:Hn; [done|].
      rewrite Hlayers. apply lookup_lt_is_Some. lia.
    - apply startswith_layer_key.
    - apply Hint. lia. }
  lia.
Qed.

(** The loop of [write_csv] that computes [max_layer], over the rows of
    pairs of a target and a path. *)
Lemma max_layer_of_shaped (tps : list (string * list string))
    (rows : list (gmap string string)) :
  Forall2 (λ tp row, shape_path tp.1 tp.2 = Some row) tps rows →
  (∀ i, 1 ≤ i ≤ max_inter tps.*2 → layer_number (layer_key i) = Some (Z.of_nat i)) →
  max_layer_of rows = Z.of_nat (max_inter tps.*2).
Proof.
  intros HF Hint. unfold max_layer_of.
  assert (∀ m, (0 ≤ m)%Z →
            foldl (λ max_layer r,
                     foldl (λ max_layer k,
                              if startswith k "Layer " then
                                match layer_number k with
                                | Some n => Z.max max_layer n
                                | None => max_layer
                                end
                              else max_layer) max_layer (map_to_list r).*1) m rows
            = Z.max m (Z.of_nat (max_inter tps.*2))) as Hgen.
  { induction HF as [|[t p] row tps rows Hrow HF IH]; intros m Hm.
    - simpl. lia.
    - rewrite fmap_cons, max_inter_cons in Hint |- *. cbn [foldl snd] in Hint |- *.
      rewrite (max_layer_row t p row m Hrow); [|intros; apply Hint; lia|done].
      rewrite IH; [lia|intros; apply Hint; lia|lia]. }
  rewrite Hgen by done. lia.
Qed.

(** The record that [write_csv] writes for the row of a path under a header
    with [M] Layer columns, [M] at least the number of intermediate tables
    of the path. *)
Lemma record_of_shaped (target : string) (p : list string)
    (row : gmap string string) (M : nat) :
  shape_path target p = Some row → length p - 2 ≤ M →
  (λ c, default "" (row !! c)) <$> csv_header M = path_record M target p.
Proof.
  intros Hrow HM.
  destruct (shape_path_fields target p row Hrow) as (Ht & Hs & Hlayers & _).
  set (inter := drop 1 (take (length p - 1) p)) in *.
  assert (length inter = length p - 2) as Hlen.
  { subst inter. rewrite length_drop, length_take. lia. }
  unfold csv_header, path_record. fold inter.
  rewrite !fmap_app, <- list_fmap_compose. simpl. rewrite Ht, Hs. simpl. f_equal.
  rewrite (app_assoc inter). f_equal.
  replace M with (length inter + (M - length inter)) at 1 by lia.
  rewrite seq_app, fmap_app. f_equal.
  - apply fmap_seq_lookup. intros i x Hi. simpl. by rewrite Hlayers, Hi.
  - apply fmap_seq_const. intros i Hi. simpl.
    replace (1 + length inter + i) with (S (length inter + i)) by lia.
    rewrite Hlayers, (proj2 (lookup_ge_None _ _)); [done|lia].
Qed.

(** Shaping and writing, for pairs of a target and a path. *)
Lemma write_csv_shaped (tps : list (string * list string))
    (rows : list (gmap string string)) :
  Forall2 (λ tp row, shape_path tp.1 tp.2 = Some row) tps rows →
  (∀ i, 1 ≤ i ≤ max_inter tps.*2 → layer_number (layer_key i) = Some (Z.of_nat i)) →
  write_csv rows
  = csv_header (max_inter tps.*2)
    :: ((λ tp, path_record (max_inter tps.*2) tp.1 tp.2) <$> tps).
Proof.
  intros HF Hint. unfold write_csv.
  assert (csv_columns rows = csv_header (max_inter tps.*2)) as ->.
  { unfold csv_columns, csv_header.
    by rewrite (max_layer_of_shaped tps rows HF Hint), Nat2Z.id. }
  f_equal.
  assert (∀ tp, tp ∈ tps → length tp.2 - 2 ≤ max_inter tps.*2) as HM.
  { intros tp Htp. apply max_inter_ge, list_elem_of_fmap. eauto. }
  revert HM. generalize (max_inter tps.*2). intros M HM. clear Hint.
  induction HF as [|tp row tps rows Hrow HF IH]; [done|].
  rewrite !fmap_cons. f_equal.
  - apply record_of_shaped; [done|]. apply HM. by left.
  - apply IH. intros tp' Htp'. apply HM. by right.
Qed.

(** The CSV of the paths of one target.  Provided [int(k.split()[1])]
    reads the number [i] back from the key ['Layer i'] for every [i] up to
    the largest number of intermediate tables of a path, shaping paths
    (none of them empty) and writing the rows gives the header with that
    many Layer columns and, path by path, the record of the target, the
    intermediate tables of the path, empty cells up to the last Layer
    column, and the last table of the path. *)
Theorem csv_of_shaped_paths (target : string) (paths : list (list string)) :
  (∀ i, 1 ≤ i ≤ max_inter paths → layer_number (layer_key i) = Some (Z.of_nat i)) →
  (∀ p, p ∈ paths → p ≠ []) →
  ∃ rows, shape_paths_to_rows target paths = Some rows
    ∧ write_csv rows
      = csv_header (max_inter paths)
        :: (path_record (max_inter paths) target <$> paths).
Proof.
  intros Hint Hne.
  destruct (shape_paths_returns target paths Hne) as (rows & Hrows & _).
  exists rows. split; [done|].
  unfold shape_paths_to_rows in Hrows. apply mapM_Some_1 in Hrows.
  assert ((pair target <$> paths).*2 = paths) as Hsnd.
  { rewrite <- list_fmap_compose. apply list_fmap_id. }
  rewrite (write_csv_shaped (pair target <$> paths) rows).
  - rewrite Hsnd. f_equal. by rewrite <- list_fmap_compose.
  - by apply Forall2_fmap_l.
  - by rewrite Hsnd.
Qed.

End CsvFacts.

(** ** The records of a run *)

Lemma max_inter_le (paths : list (list string)) (N : nat) :
  (∀ p, p ∈ paths → length p - 2 ≤ N) → max_inter paths ≤ N.
Proof.
  induction paths as [|p paths IH]; intros Hle; simpl; [lia|].
  assert (length p - 2 ≤ N) by (apply Hle; by left).
  assert (max_inter paths ≤ N) by (apply IH; intros q Hq; apply Hle; by right).
  lia.
Qed.

Lemma concat_zip_pair_snd {A B} (ts : list A) (ls : list (list B)) :
  length ts = length ls →
  (concat (zip_with (λ t l, pair t <$> l) ts ls)).*2 = concat ls.
Proof.
  revert ls. induction ts as [|t ts IH]; intros [|l ls] Hlen; try done.
  cbn [zip_with concat]. rewrite fmap_app, IH by (simpl in Hlen; lia). f_equal.
  rewrite <- list_fmap_compose. apply list_fmap_id.
Qed.

Lemma concat_zip_pair_fmap {A B C} (f : A → B → C) (ts : list A)
    (ls : list (list B)) :
  (λ tp : A * B, f tp.1 tp.2) <$> concat (zip_with (λ t l, pair t <$> l) ts ls)
  = concat (zip_with (λ t l, f t <$> l) ts ls).
Proof.
  revert ls. induction ts as [|t ts IH]; intros [|l ls]; try done.
  cbn [zip_with concat]. rewrite fmap_app, IH. f_equal.
  by rewrite <- list_fmap_compose.
Qed.

Section RunRecords.
Context `{RT : Runtime} `{FS : FileSystem} `{ORD : SetOrder}.

(** Step 4 of [tracer]: the paths of every target and their rows. *)
Lemma lineage_rows_shaped (fuel : nat) (files : list string)
    (index : gmap string (list WriterInfo)) (targets : list string) :
  (∀ t, lineage_fuel t files ∅ ≤ fuel) →
  ∃ (pathss : list (list (list string))) (rows : list (gmap string string)),
    Forall2 (λ t paths, ∃ c, dfs_lineage_paths fuel t files index [] ∅
                             = Some (paths, c)) targets pathss
    ∧ lineage_rows fuel files index targets = Some (Some rows)
    ∧ Forall2 (λ tp row, shape_path tp.1 tp.2 = Some row)
              (concat (zip_with (λ t paths, pair t <$> paths) targets pathss)) rows.
Proof.
  intros Hfuel. induction targets as [|t targets IH].
  - exists [], []. split_and!; [constructor|done|constructor].
  - destruct IH as (pathss & all_rows & HF & Hrows & Hshaped).
    destruct (dfs_returns fuel t files index [] ∅ (Hfuel t)) as (paths & c & Hr).
    pose proof (dfs_paths_ok _ _ _ _ _ _ _ _ Hr) as [_ Hok].
    destruct (shape_paths_returns t paths) as (rows & Hshape & _).
    { intros p Hp. by destruct (Hok p Hp) as (rest & -> & _). }
    exists (paths :: pathss), (rows ++ all_rows). split_and!.
    + constructor; eauto.
    + cbn [lineage_rows]. by rewrite Hr, Hshape, Hrows.
    + cbn [zip_with concat]. apply Forall2_app; [|done].
      apply Forall2_fmap_l. unfold shape_paths_to_rows in Hshape.
      by apply mapM_Some_1 in Hshape.
Qed.

(** The output of a run.  With a depth that suffices, and provided
    [int(k.split()[1])] reads the number [i] back from the key ['Layer i']
    for the numbers that can occur, a run either has no resolved target and
    exits with status 2, or writes the header with as many Layer columns as
    the longest path has intermediate tables and then, target after target
    in the order of the resolved targets and path after path in the order
    of the enumeration, one record per path: the target, the intermediate
    tables of the path, empty cells up to the last Layer column, and the
    last table of the path. *)
Theorem tracer_records (fuel : nat) (root : string) (targets : option string) :
  tracer_fuel root ≤ fuel →
  (∀ i, 1 ≤ i ≤ tracer_fuel root →
        layer_number (layer_key i) = Some (Z.of_nat i)) →
  let files := list_code_files root in
  let index := index_writers files in
  let fqtn_targets := resolve_targets index targets in
  ∃ pathss : list (list (list string)),
    Forall2 (λ t paths, ∃ c, dfs_lineage_paths fuel t files index [] ∅
                             = Some (paths, c)) fqtn_targets pathss
    ∧ tracer fuel root targets
      = Some (if decide (fqtn_targets = []) then SysExit 2
              else
                let max_layer := max_inter (concat pathss) in
                Written (csv_header max_layer
                         :: concat (zip_with
                                      (λ t paths, path_record max_layer t <$> paths)
                                      fqtn_targets pathss))).
Proof.
  intros Hfuel Hint files index fqtn_targets.
  destruct (lineage_rows_shaped fuel files index fqtn_targets)
    as (pathss & rows & HF & Hrows & Hshaped).
  { intros t. etrans; [apply lineage_fuel_le_corpus_fuel|done]. }
  exists pathss. split; [done|].
  unfold tracer. fold files. fold index. fold fqtn_targets.
  destruct (decide (fqtn_targets = [])) as [Hnil|Hne].
  { by rewrite bool_decide_eq_true_2. }
  rewrite bool_decide_eq_false_2 by done. rewrite Hrows. do 2 f_equal. cbv zeta.
  set (tps := concat (zip_with (λ t paths, pair t <$> paths) fqtn_targets pathss)) in *.
  assert (tps.*2 = concat pathss) as Hsnd.
  { apply concat_zip_pair_snd. by eapply Forall2_length. }
  rewrite (write_csv_shaped tps rows Hshaped).
  - rewrite Hsnd. f_equal.
    apply (concat_zip_pair_fmap (path_record (max_inter (concat pathss)))).
  - rewrite Hsnd. intros i [Hi1 Hi2]. apply Hint. split; [done|].
    etrans; [done|]. apply max_inter_le. intros p Hp.
    apply elem_of_concat in Hp as (paths & Hp & Hpaths).
    apply list_elem_of_lookup in Hpaths as [j Hj].
    destruct (Forall2_lookup_r _ _ _ _ _ HF Hj) as (t & _ & c & Hr).
    pose proof (dfs_path_length _ _ _ _ _ _ _ _ _ Hr Hp) as [_ Hlen].
    pose proof (lineage_fuel_le_corpus_fuel files t). unfold tracer_fuel. fold files.
    lia.
Qed.

End RunRecords.

(** ** The header parser *)

Section HeaderFacts.
Context `{RT : Runtime}.

(** The tables that the two loops of [parse_output_tables_from_header]
    collect from the line [i]: the inner loop is running there, because it
    was running at the start ([in_section]) or was started by an Output
    header at a line [j] before, and has consumed every line since. *)
Lemma elem_of_scan_output_sections (lines : list (string * string))
    (in_section : bool) (x : string) :
  x ∈ scan_output_sections in_section lines ↔
  ∃ i line, lines !! i = Some line ∧ x ∈ line_tables line.2
    ∧ ((in_section = true
        ∧ ∀ k l, k ≤ i → lines !! k = Some l → section_line l = true)
       ∨ ∃ j h, j < i ∧ lines !! j = Some h ∧ _is_output_header h.2 = true
           ∧ ∀ k l, j < k ≤ i → lines !! k = Some l → section_line l = true).
Proof.
  revert in_section. induction lines as [|[raw norm] rest IH]; intros b.
  { simpl. split; [by intros ?%elem_of_nil|]. by intros (i & line & ? & _). }
  cbn [scan_output_sections].
  assert (b && _is_comment_or_blank raw
          && negb (_is_section_break norm && negb (_is_output_header norm))
          = b && section_line (raw, norm)) as -> by (unfold section_line; simpl; by destruct b).
  destruct (b && section_line (raw, norm)) eqn:Hcons.
  - apply andb_true_iff in Hcons as [-> Hcons].
    rewrite elem_of_app, IH. split.
    + intros [Hx|(i & line & Hi & Hx & Hsec)].
      * exists 0, (raw, norm). split_and!; [done|done|]. left. split; [done|].
        intros k l Hk Hl. assert (k = 0) as -> by lia. by injection Hl as <-.
      * exists (S i), line. split_and!; [done|done|].
        destruct Hsec as [[_ Hall]|(j & h & Hj & Hh & Hhead & Hall)].
        -- left. split; [done|]. intros [|k] l Hk Hl; [by injection Hl as <-|].
           eapply (Hall k); [lia|done].
        -- right. exists (S j), h. split_and!; [lia|done|done|].
           intros [|k] l Hk Hl; [lia|]. eapply (Hall k); [lia|done].
    + intros ([|i] & line & Hi & Hx & Hsec).
      * left. by injection Hi as <-.
      * right. exists i, line. split_and!; [done|done|].
        destruct Hsec as [[_ Hall]|([|j] & h & Hj & Hh & Hhead & Hall)].
        -- left. split; [done|]. intros k l Hk Hl. apply (Hall (S k)); [lia|done].
        -- left. split; [done|]. intros k l Hk Hl. apply (Hall (S k)); [lia|done].
        -- right. exists j, h. split_and!; [lia|done|done|].
           intros k l Hk Hl. apply (Hall (S k)); [lia|done].
  - assert (∀ i line, ((raw, norm) :: rest) !! i = Some line →
              (b = true ∧ ∀ k l, k ≤ i → ((raw, norm) :: rest) !! k = Some l →
                                  section_line l = true) → False) as Hnot.
    { intros i line _ [-> Hall]. rewrite (Hall 0 (raw, norm)) in Hcons; [done|lia|done]. }
    destruct (_is_output_header norm) eqn:Hhead; rewrite IH; split.
    + intros (i & line & Hi & Hx & Hsec). exists (S i), line. split_and!; [done|done|].
      right. destruct Hsec as [[_ Hall]|(j & h & Hj & Hh & Hhd & Hall)].
      * exists 0, (raw, norm). split_and!; [lia|done|done|].
        intros [|k] l Hk Hl; [lia|]. eapply (Hall k); [lia|done].
      * exists (S j), h. split_and!; [lia|done|done|].
        intros [|k] l Hk Hl; [lia|]. eapply (Hall k); [lia|done].
    + intros (i & line & Hi & Hx & [Hsec|([|j] & h & Hj & Hh & Hhd & Hall)]).
      * by destruct (Hnot i line).
      * destruct i as [|i]; [lia|]. exists i, line. split_and!; [done|done|].
        left. split; [done|]. intros k l Hk Hl. apply (Hall (S k)); [lia|done].
      * destruct i as [|i]; [lia|]. exists i, line. split_and!; [done|done|].
        right. exists j, h. split_and!; [lia|done|done|].
        intros k l Hk Hl. apply (Hall (S k)); [lia|done].
    + intros (i & line & Hi & Hx & Hsec). exists (S i), line. split_and!; [done|done|].
      right. destruct Hsec as [[? _]|(j & h & Hj & Hh & Hhd & Hall)]; [done|].
      exists (S j), h. split_and!; [lia|done|done|].
      intros [|k] l Hk Hl; [lia|]. eapply (Hall k); [lia|done].
    + intros (i & line & Hi & Hx & [Hsec|([|j] & h & Hj & Hh & Hhd & Hall)]).
      * by destruct (Hnot i line).
      * injection Hh as <-. simpl in Hhd. by rewrite Hhead in Hhd.
      * destruct i as [|i]; [lia|]. exists i, line. split_and!; [done|done|].
        right. exists j, h. split_and!; [lia|done|done|].
        intros k l Hk Hl. apply (Hall (S k)); [lia|done].
Qed.

(** The output tables that a header declares: a table is collected exactly
    when it is a [db.tbl] token of a (normalised) line that comes after a
    line with an Output header, with nothing between the header and the line
    (the line included) but comment or blank lines that start no other
    section.  So a text without an Output header declares nothing, and a
    line of code or another section label ends a section for good: tokens
    below it count only after a new Output header. *)
Theorem parse_output_tables_sections (text : string) (x : string) :
  let lines := header_lines text in
  x ∈ parse_output_tables_from_header text ↔
  ∃ j i h line,
    j < i ∧ lines !! j = Some h ∧ _is_output_header h.2 = true
    ∧ lines !! i = Some line ∧ x ∈ line_tables line.2
    ∧ ∀ k l, j < k ≤ i → lines !! k = Some l → section_line l = true.
Proof.
  intros lines. unfold parse_output_tables_from_header. cbv zeta.
  fold (header_lines text). fold lines.
  rewrite elem_of_list_to_set, elem_of_scan_output_sections. split.
  - intros (i & line & Hi & Hx & [[? _]|(j & h & Hj & Hh & Hhd & Hall)]); [done|].
    exists j, i, h, line. done.
  - intros (j & i & h & line & Hj & Hh & Hhd & Hi & Hx & Hall).
    exists i, line. split_and!; [done|done|]. right. exists j, h. done.
Qed.

End HeaderFacts.

(** ** The cache of the enumerator *)

Section CacheInvariant.
Context `{RT : Runtime} `{FS : FileSystem} `{ORD : SetOrder}.

(** What a call does to the cache: it keeps every entry and adds entries
    that hold the union of the upstream sets of the writers of their key. *)
Lemma dfs_cache_grows (files : list string) (index : gmap string (list WriterInfo))
    (fuel : nat) :
  ∀ start visited cache paths cache',
    dfs_lineage_paths fuel start files index visited cache = Some (paths, cache') →
    cache ⊆ cache'
    ∧ ∀ k u, cache' !! k = Some u →
        cache !! k = Some u
        ∨ (cache !! k = None ∧ u = upstreams_of files index k).
Proof.
  induction fuel as [|fuel IH]; intros start visited cache paths cache'; [done|].
  rewrite dfs_unfold. cbv zeta. set (s := str_lower start).
  case_bool_decide as Hvis; [intros [= <- <-]; split; [done|eauto]|].
  set (u := default _ (cache !! s)).
  set (cache1 := match cache !! s with Some _ => cache | None => _ end).
  assert (cache ⊆ cache1
          ∧ ∀ k v, cache1 !! k = Some v →
              cache !! k = Some v
              ∨ (cache !! k = None ∧ v = upstreams_of files index k)) as [Hsub1 Hnew1].
  { subst cache1 u. destruct (cache !! s) as [v0|] eqn:Hc; simpl.
    - split; [done|eauto].
    - split; [by apply insert_subseteq|].
      intros k v [[<- <-]|[_ Hk]]%lookup_insert_Some; [right|by left]. done. }
  destruct (_ || _); [intros [= <- <-]; done|].
  intros Hloop.
  set (I := λ c : gmap string (gset string),
         cache ⊆ c
         ∧ ∀ k v, c !! k = Some v →
             cache !! k = Some v
             ∨ (cache !! k = None ∧ v = upstreams_of files index k)).
  assert (∀ up c sub c', up ∈ sorted u → I c →
            dfs_lineage_paths fuel up files index (visited ++ [s]) c = Some (sub, c') →
            I c' ∧ True) as Hrec.
  { intros up c sub c' _ [Hsub Hnew] Hr. apply IH in Hr as [Hsub' Hnew'].
    split; [|done]. split; [by etrans|].
    intros k v Hk. apply Hnew' in Hk as [Hk|[Hk ->]]; [by apply Hnew|].
    right. split; [|done].
    destruct (cache !! k) as [v'|] eqn:Hck; [|done].
    by rewrite (lookup_weaken _ _ _ _ Hck Hsub) in Hk. }
  destruct (branch_loop_inv I (λ _ _, True)
              (λ up v c, dfs_lineage_paths fuel up files index v c)
              s visited (sorted u) Hrec (sorted u) [] cache1 paths cache')
    as [HI _]; [done|by split|done|]. done.
Qed.

(** The memo cache of the enumerator.  A call never removes or changes an
    entry of the cache; every entry it adds holds, for its key, the union
    of the upstream sets of the writers of the key; and when the entries
    that the call finds are of that kind (in particular when it starts from
    the empty cache), the cache has no influence on the result: the call
    returns the paths of the enumeration that computes every union anew. *)
Theorem dfs_cache_transparent (fuel : nat) (start : string) (files : list string)
    (index : gmap string (list WriterInfo)) (visited : list string)
    (cache : gmap string (gset string)) :
  lineage_fuel start files cache ≤ fuel →
  ∃ paths cache',
    dfs_lineage_paths fuel start files index visited cache = Some (paths, cache')
    ∧ cache ⊆ cache'
    ∧ (∀ k u, cache' !! k = Some u →
         cache !! k = Some u
         ∨ (cache !! k = None
            ∧ u = union_upstreams (find_writers_for_table k files index)))
    ∧ (cache_sound files index cache →
       cache_sound files index cache'
       ∧ paths_without_cache fuel start files index visited = Some paths).
Proof.
  intros Hfuel.
  destruct (dfs_returns fuel start files index visited cache Hfuel)
    as (paths & cache' & Hr).
  exists paths, cache'. split; [done|].
  destruct (dfs_cache_grows files index fuel _ _ _ _ _ Hr) as [Hsub Hnew].
  split_and!; [done|done|].
  intros Hsound. by destruct (dfs_without_cache _ _ _ _ _ _ _ _ Hsound Hr).
Qed.

End CacheInvariant.

(** ** The CSV of arbitrary rows *)

Section CsvShape.
Context `{RT : Runtime}.

Lemma NoDup_csv_header (n : nat) : NoDup (csv_header n).
Proof.
  unfold csv_header. apply NoDup_app. split_and!.
  - apply NoDup_singleton.
  - intros k ->%list_elem_of_singleton [Hk|Hk]%elem_of_app.
    + apply list_elem_of_fmap in Hk as (i & Hi & _). symmetry in Hi.
      by eapply layer_key_not_target.
    + by apply list_elem_of_singleton in Hk.
  - apply NoDup_app. split_and!.
    + apply NoDup_fmap_2; [|apply NoDup_seq]. intros i j. apply layer_key_inj.
    + intros k (i & -> & _)%list_elem_of_fmap Hk%list_elem_of_singleton.
      by eapply layer_key_not_source.
    + apply NoDup_singleton.
Qed.

(** The loop of [write_csv] that computes [max_layer]: the result is 0 or
    the number of a Layer key of some row, and no smaller than the number of
    any Layer key whose number can be read. *)
Lemma max_layer_of_spec (rows : list (gmap string string)) :
  (0 ≤ max_layer_of rows)%Z
  ∧ (∀ row k n, row ∈ rows → is_Some (row !! k) → startswith k "Layer " = true →
                layer_number k = Some n → (n ≤ max_layer_of rows)%Z)
  ∧ (max_layer_of rows = 0%Z
     ∨ ∃ row k, row ∈ rows ∧ is_Some (row !! k) ∧ startswith k "Layer " = true
                ∧ layer_number k = Some (max_layer_of rows)).
Proof.
  unfold max_layer_of.
  cut (∀ m : Z,
         let r := foldl (λ max_layer (r : gmap string string),
                    foldl (λ max_layer k,
                             if startswith k "Layer " then
                               match layer_number k with
                               | Some n => Z.max max_layer n
                               | None => max_layer
                               end
                             else max_layer) max_layer (map_to_list r).*1) m rows in
         (m ≤ r)%Z
         ∧ (∀ row k n, row ∈ rows → is_Some (row !! k) →
                       startswith k "Layer " = true →
                       layer_number k = Some n → (n ≤ r)%Z)
         ∧ (r = m
            ∨ ∃ row k, row ∈ rows ∧ is_Some (row !! k)
                       ∧ startswith k "Layer " = true ∧ layer_number k = Some r)).
  { intros Hgen. apply (Hgen 0%Z). }
  induction rows as [|row rows IH]; intros m.
  - simpl. split_and!; [lia| |by left]. by intros row k n ?%elem_of_nil.
  - cbn [foldl]. cbv zeta.
    destruct (max_layer_keys (map_to_list row).*1 m) as (Hge & Hall & Hatt).
    set (m' := foldl _ m (map_to_list row).*1) in *.
    destruct (IH m') as (Hge' & Hall' & Hatt').
    set (r := foldl _ m' rows) in *.
    assert (∀ k, k ∈ (map_to_list row).*1 ↔ is_Some (row !! k)) as Hin.
    { intros k. rewrite list_elem_of_fmap. split.
      - intros ([k' v] & -> & Hkv%elem_of_map_to_list). by exists v.
      - intros [v Hv]. exists (k, v). split; [done|]. by apply elem_of_map_to_list. }
    split_and!; [lia| |].
    + intros row' k n [->|Hrow]%elem_of_cons Hk Hpre Hn; [|by eapply Hall'].
      apply Hin in Hk. specialize (Hall k n Hk Hpre Hn). lia.
    + destruct Hatt' as [Hr|(row' & k & Hrow & Hk & Hpre & Hn)].
      * destruct Hatt as [Hm|(k & Hk%Hin & Hpre & Hn)].
        -- left. by rewrite Hr, Hm.
        -- right. exists row, k. rewrite Hr. split_and!; [by left|done..].
      * right. exists row', k. split_and!; [by right|done..].
Qed.

(** Whatever the rows are, [write_csv] writes a rectangular table: the
    header, then one record for every row in the order of the rows, each
    with as many cells as the header has columns.  The columns are Target
    Table, the Layer columns numbered from 1 without a gap, and Source
    Table, all different.  The number of Layer columns is the largest
    number that [int(k.split()[1])] reads from a key [k] of a row that
    starts with ['Layer '] (keys on which it raises are passed over), or 0.
    A cell holds the field of the row for its column, or the empty text when
    the row has no such field; a field of a row that is no column is not
    written. *)
Theorem write_csv_rectangular (rows : list (gmap string string)) :
  ∃ (n : nat) (data : list (list string)),
    write_csv rows = csv_header n :: data
    ∧ NoDup (csv_header n)
    ∧ length data = length rows
    ∧ (∀ r, r ∈ data → length r = length (csv_header n))
    ∧ (∀ i row, rows !! i = Some row →
         ∃ r, data !! i = Some r
           ∧ ∀ j c, csv_header n !! j = Some c → r !! j = Some (default "" (row !! c)))
    ∧ (∀ row k m, row ∈ rows → is_Some (row !! k) → startswith k "Layer " = true →
                  layer_number k = Some m → (m ≤ Z.of_nat n)%Z)
    ∧ (n = 0
       ∨ ∃ row k, row ∈ rows ∧ is_Some (row !! k) ∧ startswith k "Layer " = true
                  ∧ layer_number k = Some (Z.of_nat n)).
Proof.
  destruct (max_layer_of_spec rows) as (Hge & Hall & Hatt).
  exists (Z.to_nat (max_layer_of rows)),
         ((λ r : gmap string string,
             (λ c, default "" (r !! c)) <$> csv_header (Z.to_nat (max_layer_of rows)))
            <$> rows).
  rewrite Z2Nat.id by done.
  split_and!.
  - reflexivity.
  - apply NoDup_csv_header.
  - by rewrite length_fmap.
  - intros r (row & -> & _)%list_elem_of_fmap. by rewrite length_fmap.
  - intros i row Hi. eexists. split.
    + rewrite list_lookup_fmap, Hi. reflexivity.
    + intros j c Hj. by rewrite list_lookup_fmap, Hj.
  - done.
  - destruct Hatt as [->|?]; [by left|by right].
Qed.

End CsvShape.

(** ** The candidate filter on ASCII text *)

Module CandidateFacts.
Import PyAscii CliqueFacts.

Lemma lit_prefix_inv (l : string) (prev prev' : option ascii) (s s' : string) :
  lit_prefix l prev s = Some (prev', s') → s = l +:+ s' ∧ prev' = last_char prev l.
Proof.
  revert prev s. induction l as [|c l IH]; intros prev s; simpl.
  - by intros [= <- <-].
  - destruct s as [|d s]; [done|]. case_decide as Hcd; [|done]. subst d.
    intros [-> ->]%IH. by str_norm.
Qed.

Lemma search_from_inv (r : regex) (prev : option ascii) (s : string) :
  is_Some (search_from r prev s) →
  ∃ pre s', s = pre +:+ s' ∧ is_Some (match_at r (last_char prev pre) s').
Proof.
  revert prev. induction s as [|c s IH]; intros prev; cbn [search_from].
  - destruct (match_at r prev "") eqn:Hm; [|by intros [? ?]].
    intros _. exists "", "". cbn [last_char]. rewrite Hm. eauto.
  - destruct (match_at r prev (String c s)) eqn:Hm.
    + intros _. exists "", (String c s). cbn [last_char]. rewrite Hm. eauto.
    + intros (pre & s' & -> & Hs')%IH. exists (String c pre), s'. by str_norm.
Qed.

(** A match of [\b] + the literal [name] + [\b] at a position. *)
Lemma match_at_word_boundary (name : string) (prev : option ascii) (s : string) :
  is_Some (match_at (word_boundary_pattern_fqtn name) prev s) ↔
  ∃ post, s = name +:+ post
    ∧ xorb (word_before prev) (word_after s) = true
    ∧ xorb (word_before (last_char prev name)) (word_after post) = true.
Proof.
  unfold match_at, word_boundary_pattern_fqtn, Seqs. cbn [foldr rmatch].
  destruct (xorb (word_before prev) (word_after s)) eqn:Hb1.
  2:{ split; [by intros [? ?]|]. by intros (? & _ & ? & _). }
  destruct (lit_prefix name prev s) as [[prev' s']|] eqn:Hl.
  - apply lit_prefix_inv in Hl as [-> ->].
    destruct (xorb (word_before (last_char prev name)) (word_after s')) eqn:Hb2.
    + cbn [lit_prefix]. split; [|eauto]. intros _. exists s'. done.
    + split; [by intros [? ?]|]. intros (post & Heq & _ & Hb).
      assert (post = s') as ->; [|by rewrite Hb2 in Hb].
      clear -Heq. induction name as [|c name IH]; [done|].
      revert Heq. str_norm. intros [= Heq]. by apply IH.
  - split; [by intros [? ?]|]. intros (post & -> & _).
    by rewrite lit_prefix_app in Hl.
Qed.

Section Candidates.
Context `{FS : FileSystem}.

(** On ASCII text, the candidate files of a table name are the readable
    files of the list whose lower-cased text contains the name as a piece
    that starts and ends at a word boundary: of the character before the
    piece and its first character exactly one is a word character (letter,
    digit, underscore), and likewise of its last character and the character
    after it; the start and the end of the text count as no word
    character. *)
Theorem candidate_files_contain_name (files : list string) (name p : string) :
  p ∈ filter_candidate_files_by_name files name ↔
  p ∈ files
  ∧ ∃ text pre post,
      read_text p = Some text
      ∧ lower text = pre +:+ name +:+ post
      ∧ xorb (word_before (last_char None pre)) (word_after (name +:+ post)) = true
      ∧ xorb (word_before (last_char None (pre +:+ name))) (word_after post) = true.
Proof.
  rewrite elem_of_candidates. cbn [re_search str_lower runtime].
  split; intros [Hp Hrest]; (split; [done|]).
  - destruct Hrest as (text & Hr & Hs%bool_decide_eq_true).
    apply search_from_inv in Hs as (pre & s' & Heq & Hm).
    apply match_at_word_boundary in Hm as (post & -> & Hb1 & Hb2).
    exists text, pre, post. by rewrite last_char_app.
  - destruct Hrest as (text & pre & post & Hr & Heq & Hb1 & Hb2).
    exists text. split; [done|]. apply bool_decide_eq_true. rewrite Heq.
    apply search_from_later, match_at_word_boundary. exists post.
    by rewrite <- last_char_app.
Qed.

End Candidates.

End CandidateFacts.

(** ** The contract of the writer lookup *)

Section LookupContract.
Context `{RT : Runtime} `{FS : FileSystem}.


End LookupContract.

Module LookupRuns.


End LookupRuns.

(** ** Instances of the further properties on the concrete corpora *)

Module MoreRuns.

Lemma dfs_paths_are_walks_witness :
  lineage_fuel (FS := cycle_disk) "db.a" cycle_files ∅ ≤ 5
  ∧ ∃ paths cache',
      dfs_lineage_paths (FS := cycle_disk) 5 "db.a" cycle_files cycle_index [] ∅
      = Some (paths, cache')
      ∧ ∀ p, p ∈ paths ↔
             lineage_walk (FS := cycle_disk) cycle_files cycle_index []
               (str_lower "db.a") p.
Proof.
  assert (lineage_fuel (FS := cycle_disk) "db.a" cycle_files ∅ ≤ 5) as H
    by (vm_compute; lia).
  split; [exact H|].
  exact (dfs_paths_are_walks (FS := cycle_disk) 5 "db.a" cycle_files cycle_index [] H).
Defined.

(** The files of the chain in another order, one of them twice. *)
Lemma file_order_irrelevant_witness :
  (∀ p, p ∈ chain_files ↔ p ∈ ["etl/v.sql"; "etl/b.py"; "etl/a.py"; "etl/b.py"])
  ∧ (∀ k w, w ∈ default [] (index_writers (FS := chain_disk) chain_files !! k)
            ↔ w ∈ default [] (index_writers (FS := chain_disk)
                                ["etl/v.sql"; "etl/b.py"; "etl/a.py"; "etl/b.py"] !! k))
  ∧ dom (index_writers (FS := chain_disk) chain_files)
    = dom (index_writers (FS := chain_disk)
             ["etl/v.sql"; "etl/b.py"; "etl/a.py"; "etl/b.py"])
  ∧ (∀ targets,
       resolve_targets (index_writers (FS := chain_disk) chain_files) targets
       = resolve_targets (index_writers (FS := chain_disk)
                            ["etl/v.sql"; "etl/b.py"; "etl/a.py"; "etl/b.py"]) targets)
  ∧ (∀ fuel start visited cache,
       dfs_lineage_paths (FS := chain_disk) fuel start chain_files
         (index_writers (FS := chain_disk) chain_files) visited cache
       = dfs_lineage_paths (FS := chain_disk) fuel start
           ["etl/v.sql"; "etl/b.py"; "etl/a.py"; "etl/b.py"]
           (index_writers (FS := chain_disk)
              ["etl/v.sql"; "etl/b.py"; "etl/a.py"; "etl/b.py"]) visited cache)
  ∧ (∀ fuel targets,
       lineage_rows (FS := chain_disk) fuel chain_files
         (index_writers (FS := chain_disk) chain_files) targets
       = lineage_rows (FS := chain_disk) fuel
           ["etl/v.sql"; "etl/b.py"; "etl/a.py"; "etl/b.py"]
           (index_writers (FS := chain_disk)
              ["etl/v.sql"; "etl/b.py"; "etl/a.py"; "etl/b.py"]) targets).
Proof.
  assert (∀ p, p ∈ chain_files
               ↔ p ∈ ["etl/v.sql"; "etl/b.py"; "etl/a.py"; "etl/b.py"]) as H.
  { intros p. unfold chain_files. rewrite !elem_of_cons, elem_of_nil. tauto. }
  split; [exact H|].
  exact (file_order_irrelevant (FS := chain_disk) chain_files
           ["etl/v.sql"; "etl/b.py"; "etl/a.py"; "etl/b.py"] H).
Defined.

Lemma csv_of_shaped_paths_witness :
  (∀ i, 1 ≤ i ≤ max_inter [["rpt.v_a"; "rpt.a"; "base.b"; "dv.c"]; ["rpt.v_a"; "ext.t"]] →
        layer_number (layer_key i) = Some (Z.of_nat i))
  ∧ (∀ p, p ∈ [["rpt.v_a"; "rpt.a"; "base.b"; "dv.c"]; ["rpt.v_a"; "ext.t"]] → p ≠ [])
  ∧ ∃ rows,
      shape_paths_to_rows "rpt.v_a"
        [["rpt.v_a"; "rpt.a"; "base.b"; "dv.c"]; ["rpt.v_a"; "ext.t"]] = Some rows
      ∧ write_csv rows
        = csv_header
            (max_inter [["rpt.v_a"; "rpt.a"; "base.b"; "dv.c"]; ["rpt.v_a"; "ext.t"]])
          :: (path_record
                (max_inter [["rpt.v_a"; "rpt.a"; "base.b"; "dv.c"]; ["rpt.v_a"; "ext.t"]])
                "rpt.v_a"
              <$> [["rpt.v_a"; "rpt.a"; "base.b"; "dv.c"]; ["rpt.v_a"; "ext.t"]]).
Proof.
  assert (∀ i, 1 ≤ i ≤ max_inter [["rpt.v_a"; "rpt.a"; "base.b"; "dv.c"];
                                   ["rpt.v_a"; "ext.t"]] →
               layer_number (layer_key i) = Some (Z.of_nat i)) as H1.
  { intros i Hi. assert (i = 1 ∨ i = 2) as [->| ->] by (simpl in Hi; lia);
      vm_compute; reflexivity. }
  assert (∀ p, p ∈ [["rpt.v_a"; "rpt.a"; "base.b"; "dv.c"]; ["rpt.v_a"; "ext.t"]] →
               p ≠ []) as H2.
  { intros p Hp ->. rewrite !elem_of_cons, elem_of_nil in Hp.
    by destruct Hp as [?|[?|?]]. }
  split; [exact H1|]. split; [exact H2|].
  exact (csv_of_shaped_paths "rpt.v_a"
           [["rpt.v_a"; "rpt.a"; "base.b"; "dv.c"]; ["rpt.v_a"; "ext.t"]] H1 H2).
Defined.

(** The records of the instance above. *)
Example csv_of_two_paths :
  csv_header 2 = ["Target Table"; "Layer 1"; "Layer 2"; "Source Table"]
  ∧ path_record 2 "rpt.v_a" ["rpt.v_a"; "rpt.a"; "base.b"; "dv.c"]
    = ["rpt.v_a"; "rpt.a"; "base.b"; "dv.c"]
  ∧ path_record 2 "rpt.v_a" ["rpt.v_a"; "ext.t"] = ["rpt.v_a"; ""; ""; "ext.t"].
Proof. split_and!; vm_compute; reflexivity. Qed.

Lemma tracer_records_witness :
  tracer_fuel (FS := chain_disk) "etl" ≤ 6
  ∧ (∀ i, 1 ≤ i ≤ tracer_fuel (FS := chain_disk) "etl" →
          layer_number (layer_key i) = Some (Z.of_nat i))
  ∧ let files := list_code_files (FS := chain_disk) "etl" in
    let index := index_writers (FS := chain_disk) files in
    let fqtn_targets := resolve_targets index (Some "rpt.v_a, b") in
    ∃ pathss : list (list (list string)),
      Forall2 (λ t paths, ∃ c, dfs_lineage_paths (FS := chain_disk) 6 t files index [] ∅
                               = Some (paths, c)) fqtn_targets pathss
      ∧ tracer (FS := chain_disk) 6 "etl" (Some "rpt.v_a, b")
        = Some (if decide (fqtn_targets = []) then SysExit 2
                else
                  let max_layer := max_inter (concat pathss) in
                  Written (csv_header max_layer
                           :: concat (zip_with
                                        (λ t paths, path_record max_layer t <$> paths)
                                        fqtn_targets pathss))).
Proof.
  assert (tracer_fuel (FS := chain_disk) "etl" = 5) as Hfuel
    by (vm_compute; reflexivity).
  assert (tracer_fuel (FS := chain_disk) "etl" ≤ 6) as H1 by (rewrite Hfuel; lia).
  assert (∀ i, 1 ≤ i ≤ tracer_fuel (FS := chain_disk) "etl" →
               layer_number (layer_key i) = Some (Z.of_nat i)) as H2.
  { intros i Hi. rewrite Hfuel in Hi.
    assert (i = 1 ∨ i = 2 ∨ i = 3 ∨ i = 4 ∨ i = 5) as [->|[->|[->|[->| ->]]]] by lia;
      vm_compute; reflexivity. }
  split; [exact H1|]. split; [exact H2|].
  exact (tracer_records (FS := chain_disk) 6 "etl" (Some "rpt.v_a, b") H1 H2).
Defined.

Lemma dfs_cache_transparent_witness :
  lineage_fuel (FS := cycle_disk) "db.a" cycle_files ∅ ≤ 5
  ∧ ∃ paths cache',
      dfs_lineage_paths (FS := cycle_disk) 5 "db.a" cycle_files cycle_index [] ∅
      = Some (paths, cache')
      ∧ ∅ ⊆ cache'
      ∧ (∀ k u, cache' !! k = Some u →
           (∅ : gmap string (gset string)) !! k = Some u
           ∨ ((∅ : gmap string (gset string)) !! k = None
              ∧ u = union_upstreams (FS := cycle_disk)
                      (find_writers_for_table (FS := cycle_disk) k cycle_files
                         cycle_index)))
      ∧ (cache_sound (FS := cycle_disk) cycle_files cycle_index ∅ →
         cache_sound (FS := cycle_disk) cycle_files cycle_index cache'
         ∧ paths_without_cache (FS := cycle_disk) 5 "db.a" cycle_files cycle_index []
           = Some paths).
Proof.
  assert (lineage_fuel (FS := cycle_disk) "db.a" cycle_files ∅ ≤ 5) as H
    by (vm_compute; lia).
  split; [exact H|].
  exact (dfs_cache_transparent (FS := cycle_disk) 5 "db.a" cycle_files cycle_index
           [] ∅ H).
Defined.

(** The cache that the enumeration of [db.a] leaves on the cycle. *)
Example cycle_cache :
  snd <$> dfs_lineage_paths (FS := cycle_disk) 5 "db.a" cycle_files cycle_index [] ∅
  = Some {[ "db.a" := {[ "db.b" ]}; "db.b" := {[ "db.a" ]} ]}.
Proof. vm_compute. reflexivity. Qed.

End MoreRuns.

(** ** What the patterns of the script capture, on ASCII text *)

Module CaptureFacts.
Import PyAscii CliqueFacts CandidateFacts.

Lemma all_chars_app (Q : ascii → bool) (a b : string) :
  all_chars Q (a +:+ b) = all_chars Q a && all_chars Q b.
Proof.
  induction a as [|c a IH]; str_norm; simpl; [done|]. by rewrite IH, andb_assoc.
Qed.

(** A match of [r] consumes a piece [w] of the subject, at least
    [min_len r] characters long, hands the groups that it closes to its
    continuation, and the continuation gives the result. *)
Lemma rmatch_consumes (Q : ascii → bool) (n : nat) (r : regex) :
  ∀ (A : Type) (prev : option ascii) (s : string) (caps : list string)
    (k : option ascii → string → list string → option A) (a : A),
    rmatch A r prev s caps k = Some a →
    ∃ prev' s' caps' w,
      s = w +:+ s' ∧ min_len r ≤ String.length w
      ∧ (only_chars Q r → all_chars Q w = true)
      ∧ (groups_ok Q n r →
         Forall (λ g, all_chars Q g = true ∧ n ≤ String.length g) caps')
      ∧ k prev' s' (caps ++ caps') = Some a.
Proof.
  induction r as [l|items| | | |r1 IH1 r2 IH2|r1 IH1 r2 IH2|r' IH|r' IH|r' IH|r' IH];
    intros A prev s caps k a; cbn [rmatch min_len only_chars groups_ok].
  - destruct (lit_prefix l prev s) as [[prev' s']|] eqn:Hl; [|done].
    apply lit_prefix_inv in Hl as [-> _]. intros Hk.
    exists prev', s', [], l. rewrite app_nil_r. split_and!; auto.
  - destruct s as [|c s']; [done|]. destruct (cls_matches items c) eqn:Hc; [|done].
    intros Hk. exists (Some c), s', [], (String c ""). rewrite app_nil_r.
    split_and!; auto.
    intros HQ. simpl. by rewrite (HQ c Hc).
  - destruct prev; [done|]. intros Hk. exists None, s, [], "".
    rewrite app_nil_r. split_and!; auto.
  - case_decide; [|done]. intros Hk. exists prev, s, [], "".
    rewrite app_nil_r. split_and!; auto.
  - destruct (xorb _ _); [|done]. intros Hk. exists prev, s, [], "".
    rewrite app_nil_r. split_and!; auto.
  - intros (prev1 & s1 & caps1 & w1 & -> & Hlen1 & HQ1 & HG1 & Hk)%IH1.
    apply IH2 in Hk as (prev2 & s2 & caps2 & w2 & -> & Hlen2 & HQ2 & HG2 & Hk).
    exists prev2, s2, (caps1 ++ caps2), (w1 +:+ w2).
    rewrite app_assoc_str, length_app_str, all_chars_app, app_assoc.
    split_and!; [done|lia| | |done].
    + intros [H1 H2]. by rewrite HQ1, HQ2.
    + intros [H1 H2]. apply Forall_app. auto.
  - destruct (rmatch A r1 prev s caps k) as [a1|] eqn:H1.
    + intros [= <-].
      apply IH1 in H1 as (prev1 & s1 & caps1 & w1 & -> & Hlen1 & HQ1 & HG1 & Hk).
      exists prev1, s1, caps1, w1. split_and!; [done|lia|tauto|tauto|done].
    + intros (prev2 & s2 & caps2 & w2 & -> & Hlen2 & HQ2 & HG2 & Hk)%IH2.
      exists prev2, s2, caps2, w2. split_and!; [done|lia|tauto|tauto|done].
  - generalize (String.length s). intros m. revert prev s caps.
    induction m as [|m IHm]; intros prev s caps; cbn [star_loop].
    + intros Hk. exists prev, s, [], "". rewrite app_nil_r. split_and!; auto with lia.
    + destruct (rmatch A r' prev s caps _) as [a1|] eqn:H1.
      * intros [= <-].
        apply IH in H1 as (prev1 & s1 & caps1 & w1 & -> & _ & HQ1 & HG1 & Hk).
        case_decide; [|done].
        apply IHm in Hk as (prev2 & s2 & caps2 & w2 & -> & _ & HQ2 & HG2 & Hk).
        exists prev2, s2, (caps1 ++ caps2), (w1 +:+ w2).
        rewrite app_assoc_str, all_chars_app, app_assoc.
        split_and!; [done|lia| | |done].
        -- intros HQ. by rewrite HQ1, HQ2.
        -- intros HG. apply Forall_app. auto.
      * intros Hk. exists prev, s, [], "". rewrite app_nil_r.
        split_and!; auto with lia.
  - destruct (rmatch A r' prev s caps k) as [a1|] eqn:H1.
    + intros [= <-].
      apply IH in H1 as (prev1 & s1 & caps1 & w1 & -> & _ & HQ1 & HG1 & Hk).
      exists prev1, s1, caps1, w1. split_and!; [done|lia|done|done|done].
    + intros Hk. exists prev, s, [], "". rewrite app_nil_r. split_and!; auto with lia.
  - intros (prev1 & s1 & caps1 & w1 & -> & Hlen1 & HQ1 & HG1 & Hk)%IH.
    rewrite consumed_app in Hk.
    exists prev1, s1, (caps1 ++ [w1]), w1. rewrite app_assoc.
    split_and!; [done|done|done| |done].
    intros (HQ & Hn & HG). apply Forall_app. split; [auto|].
    apply Forall_singleton. split; [auto|lia].
  - destruct (rmatch unit r' prev s caps _); [|done].
    intros Hk. exists prev, s, [], "". rewrite app_nil_r. split_and!; auto with lia.
Qed.

(** *** The matches of a search *)

Lemma search_from_match (r : regex) (prev : option ascii) (s start : string)
    (m : option ascii * string * list string) :
  search_from r prev s = Some (start, m) → ∃ prev0, match_at r prev0 start = Some m.
Proof.
  revert prev. induction s as [|c s IH]; intros prev; cbn [search_from].
  - destruct (match_at r prev "") eqn:Hm; [|done]. intros [= <- <-]. eauto.
  - destruct (match_at r prev (String c s)) eqn:Hm; [intros [= <- <-]; eauto|].
    apply IH.
Qed.

Lemma match_at_groups (Q : ascii → bool) (n : nat) (r : regex)
    (prev prev' : option ascii) (s s' : string) (caps : list string) :
  groups_ok Q n r → match_at r prev s = Some (prev', s', caps) →
  Forall (λ g, all_chars Q g = true ∧ n ≤ String.length g) caps.
Proof.
  intros Hok Hm. unfold match_at in Hm.
  apply (rmatch_consumes Q n) in Hm as (? & ? & caps' & ? & _ & _ & _ & HG & Hk).
  injection Hk as _ _ <-. by apply HG.
Qed.

Lemma findall_groups (Q : ascii → bool) (n : nat) (r : regex) (s : string)
    (caps : list string) :
  groups_ok Q n r → caps ∈ findall r s →
  Forall (λ g, all_chars Q g = true ∧ n ≤ String.length g) caps.
Proof.
  intros Hok. unfold findall. generalize (S (String.length s)) (@None ascii).
  intros fuel. revert s. induction fuel as [|fuel IH]; intros s prev;
    cbn [findall_go]; [by intros ?%elem_of_nil|].
  destruct (search_from r prev s) as [[start [[prev' s'] caps0]]|] eqn:Hs;
    [|by intros ?%elem_of_nil].
  apply search_from_match in Hs as [prev0 Hm].
  pose proof (match_at_groups Q n r _ _ _ _ _ Hok Hm) as Hcaps0.
  case_decide.
  - intros [->|Hin]%elem_of_cons; [done|]. by eapply IH.
  - destruct start as [|c t].
    + by intros ->%list_elem_of_singleton.
    + intros [->|Hin]%elem_of_cons; [done|]. by eapply IH.
Qed.

Lemma findall2_groups (Q : ascii → bool) (n : nat) (r : regex) (s a b : string) :
  groups_ok Q n r → (a, b) ∈ re_findall2 r s →
  (all_chars Q a = true ∧ n ≤ String.length a)
  ∧ (all_chars Q b = true ∧ n ≤ String.length b).
Proof.
  intros Hok. cbn [re_findall2 runtime]. rewrite list_elem_of_omap.
  intros (caps & Hcaps & Hpair).
  apply (findall_groups Q n r s caps Hok) in Hcaps.
  destruct caps as [|a' [|b' [|? ?]]]; try done. injection Hpair as -> ->.
  by apply Forall_cons in Hcaps as [? [? _]%Forall_cons].
Qed.

(** *** Names *)

Lemma name_char_code (c : ascii) :
  name_char c = true →
  97 ≤ code c ≤ 122 ∨ 48 ≤ code c ≤ 57 ∨ code c = 95 ∨ code c = 46.
Proof.
  unfold name_char, ident_char, cls_matches. cbn [existsb cls_item_matches].
  change (code "a") with 97. change (code "z") with 122.
  change (code "0") with 48. change (code "9") with 57.
  rewrite orb_false_r, !orb_true_iff, !andb_true_iff, !Nat.leb_le,
    !bool_decide_eq_true.
  intros [[?|[?| ->]]| ->]; auto.
Qed.

Lemma lower_char_name (c : ascii) : name_char c = true → lower_char c = c.
Proof.
  intros Hc%name_char_code. unfold lower_char.
  destruct (Nat.leb 65 (code c) && Nat.leb (code c) 90) eqn:Hup; [|done].
  apply andb_true_iff in Hup as [H1%Nat.leb_le H2%Nat.leb_le]. lia.
Qed.

Lemma lower_name (s : string) : all_chars name_char s = true → lower s = s.
Proof.
  induction s as [|c s IH]; simpl; [done|].
  intros [Hc Hs]%andb_true_iff. by rewrite lower_char_name, IH.
Qed.

Lemma all_chars_impl (Q Q' : ascii → bool) (s : string) :
  (∀ c, Q c = true → Q' c = true) → all_chars Q s = true → all_chars Q' s = true.
Proof.
  intros HQ. induction s as [|c s IH]; simpl; [done|].
  intros [Hc Hs]%andb_true_iff. by rewrite (HQ c Hc), IH.
Qed.

Lemma ident_name_char (c : ascii) : ident_char c = true → name_char c = true.
Proof. unfold name_char. by intros ->. Qed.

Lemma is_ident_groups (g : string) :
  all_chars ident_char g = true ∧ 1 ≤ String.length g → is_ident g = true.
Proof.
  intros [Hg Hlen]. unfold is_ident. rewrite Hg. simpl. apply bool_decide_eq_true.
  intros ->. simpl in Hlen. lia.
Qed.

(** A qualified name built from two identifiers. *)
Lemma qualified_name (a b : string) :
  is_ident a = true → is_ident b = true →
  to_fqtn a b = a +:+ "." +:+ b ∧ lower (a +:+ "." +:+ b) = a +:+ "." +:+ b.
Proof.
  intros [Ha _]%andb_true_iff [Hb _]%andb_true_iff.
  assert (lower a = a) as Hla
    by (apply lower_name, (all_chars_impl ident_char); [apply ident_name_char|done]).
  assert (lower b = b) as Hlb
    by (apply lower_name, (all_chars_impl ident_char); [apply ident_name_char|done]).
  unfold to_fqtn. cbn [str_lower runtime].
  rewrite !lower_app, Hla, Hlb. done.
Qed.

Lemma groups_ok_two_idents :
  groups_ok ident_char 1 RE_SPARK_TABLE_L ∧ groups_ok ident_char 1 RE_FROM_JOIN_L
  ∧ groups_ok ident_char 1 RE_INSERT_INTO_L ∧ groups_ok ident_char 1 RE_FQTN_INLINE_L.
Proof.
  assert (∀ c, cls_matches [CRange "a" "z"; CRange "0" "9"; CChar "_"] c = true →
               ident_char c = true) as Hc by done.
  split_and!; simpl; repeat split; try done; lia.
Qed.

Lemma groups_ok_view : groups_ok name_char 1 RE_CREATE_VIEW_L.
Proof.
  assert (∀ c, cls_matches [CRange "a" "z"; CRange "0" "9"; CChar "_"] c = true →
               name_char c = true) as Hc by (intros c Hc; by apply ident_name_char).
  simpl. repeat split; try done; lia.
Qed.

Section Names.
Context `{FS : FileSystem}.

Lemma pair_of_findall2 (r : regex) (s x : string) :
  groups_ok ident_char 1 r →
  x ∈ (list_to_set (fqtn_of_pair <$> re_findall2 r s) : gset string) →
  ∃ db tbl, x = db +:+ "." +:+ tbl ∧ is_ident db = true ∧ is_ident tbl = true
            ∧ str_lower x = x.
Proof.
  intros Hok. rewrite elem_of_list_to_set, list_elem_of_fmap.
  intros ([a b] & -> & Hab).
  apply (findall2_groups ident_char 1 r s a b Hok) in Hab as [Ha Hb].
  apply is_ident_groups in Ha, Hb.
  destruct (qualified_name a b Ha Hb) as [Hq Hl].
  exists a, b. unfold fqtn_of_pair. simpl. by rewrite Hq.
Qed.

(** The names of the four extractors that return qualified names. *)
Lemma extracted_name_shape (text x : string) :
  x ∈ extract_upstreams_from_spark text ∪ extract_upstreams_from_view text
      ∪ parse_insertinto_targets text ∪ parse_output_tables_from_header text →
  ∃ db tbl, x = db +:+ "." +:+ tbl ∧ is_ident db = true ∧ is_ident tbl = true
            ∧ str_lower x = x.
Proof.
  destruct groups_ok_two_idents as (Hspark & Hfrom & Hins & Hinline).
  rewrite !elem_of_union. intros [[[Hx|Hx]|Hx]|Hx].
  - by apply (pair_of_findall2 RE_SPARK_TABLE_L) in Hx.
  - by apply (pair_of_findall2 RE_FROM_JOIN_L) in Hx.
  - by apply (pair_of_findall2 RE_INSERT_INTO_L) in Hx.
  - unfold parse_output_tables_from_header in Hx. cbv zeta in Hx.
    apply elem_of_list_to_set, elem_of_scan_output_sections in Hx
      as (i & line & _ & Hx & _).
    unfold line_tables in Hx. apply list_elem_of_fmap in Hx as ([a b] & -> & Hab).
    apply (findall2_groups ident_char 1 _ _ a b Hinline) in Hab as [Ha Hb].
    apply is_ident_groups in Ha, Hb.
    destruct (qualified_name a b Ha Hb) as [_ Hl]. exists a, b. done.
Qed.

(** The name of a CREATE VIEW. *)
Lemma view_name_shape (text v : string) :
  parse_view_name text = Some v →
  all_chars name_char v = true ∧ v ≠ "" ∧ str_lower v = v.
Proof.
  unfold parse_view_name. cbn [re_search1 str_lower runtime].
  destruct (search_from RE_CREATE_VIEW_L None (lower text))
    as [[start [[prev' s'] caps]]|] eqn:Hs; [|done].
  simpl. intros Hv. apply search_from_match in Hs as [prev0 Hm].
  apply (match_at_groups name_char 1 _ _ _ _ _ _ groups_ok_view) in Hm.
  apply list_elem_of_lookup_2 in Hv.
  rewrite Forall_forall in Hm. destruct (Hm v Hv) as [Hchars Hlen].
  split_and!; [done| |by apply lower_name].
  intros ->. simpl in Hlen. lia.
Qed.

(** On ASCII text every table name that the extractors read out of a text
    is canonical.  A name from [spark.table(...)], from FROM or JOIN, from
    [insertInto(...)] or from an Output header has the form [db.tbl] with
    [db] and [tbl] non-empty words over [[a-z0-9_]]; the name of a CREATE
    VIEW is a non-empty word over these characters and the dot; and
    [lower()] leaves all of them unchanged. *)
Theorem extracted_names_canonical (text : string) :
  (∀ x, x ∈ extract_upstreams_from_spark text ∪ extract_upstreams_from_view text
            ∪ parse_insertinto_targets text ∪ parse_output_tables_from_header text →
        ∃ db tbl, x = db +:+ "." +:+ tbl ∧ is_ident db = true ∧ is_ident tbl = true
                  ∧ str_lower x = x)
  ∧ (∀ v, parse_view_name text = Some v →
          all_chars name_char v = true ∧ v ≠ "" ∧ str_lower v = v).
Proof.
  split.
  - intros x Hx. by apply extracted_name_shape in Hx.
  - intros v Hv. by apply view_name_shape in Hv.
Qed.

Section Pipeline.
Context `{ORD : SetOrder}.

(** On ASCII text the names that the tracer works with are canonical: the
    keys of the writer index are non-empty words over [[a-z0-9_.]] that
    [lower()] leaves unchanged (so that the lookup by lower-cased name finds
    them), and on every path that the enumerator returns from an empty
    cache, every table after the first has the form [db.tbl] with [db] and
    [tbl] non-empty words over [[a-z0-9_]]. *)
Theorem index_and_path_names_canonical (fuel : nat) (start : string)
    (files : list string) (index : gmap string (list WriterInfo))
    (visited : list string) :
  lineage_fuel start files ∅ ≤ fuel →
  (∀ k, k ∈ dom (index_writers files) →
        all_chars name_char k = true ∧ k ≠ "" ∧ str_lower k = k)
  ∧ ∃ paths cache',
      dfs_lineage_paths fuel start files index visited ∅ = Some (paths, cache')
      ∧ ∀ p i x, p ∈ paths → p !! S i = Some x →
          ∃ db tbl, x = db +:+ "." +:+ tbl
                    ∧ is_ident db = true ∧ is_ident tbl = true.
Proof.
  intros Hfuel. split.
  - intros k [ws Hk]%elem_of_dom. rewrite index_writers_lookup in Hk.
    destruct decide as [|Hne]; [done|]. clear Hk.
    destruct (flat_map _ files) as [|w l] eqn:Hfm; [done|].
    assert (w ∈ flat_map (λ p, index_contribution p k) files) as Hw
      by (rewrite Hfm; by left).
    apply elem_of_flat_map in Hw as (p & _ & Hw).
    apply elem_of_index_contribution in Hw as (_ & text & _ & _ & Hdecl).
    destruct Hdecl as [[_ Hin]|(_ & _ & Hv)].
    + destruct (extracted_name_shape text k) as (db & tbl & -> & Hdb & Htbl & Hl).
      { unfold declared_outputs in Hin. set_solver. }
      split_and!; [|by destruct db|done].
      apply andb_true_iff in Hdb as [Hdb _]. apply andb_true_iff in Htbl as [Htbl _].
      rewrite !all_chars_app.
      rewrite (all_chars_impl ident_char name_char db ident_name_char Hdb).
      by rewrite (all_chars_impl ident_char name_char tbl ident_name_char Htbl).
    + by apply view_name_shape in Hv.
  - destruct (dfs_returns fuel start files index visited ∅ Hfuel)
      as (paths & cache' & Hr).
    exists paths, cache'. split; [done|]. intros p i x Hp Hx.
    apply dfs_paths_ok in Hr as [_ Hok].
    destruct (Hok p Hp) as (rest & -> & _ & _ & Hnames).
    simpl in Hx. apply list_elem_of_lookup_2 in Hx.
    destruct (Hnames x Hx) as (y & Hy & ->).
    rewrite cache_names_empty, (right_id_L ∅ (∪)) in Hy.
    apply elem_of_all_upstreams in Hy as (q & text & _ & _ & Hy).
    destruct (extracted_name_shape text y) as (db & tbl & Heq & Hdb & Htbl & Hl);
      [set_solver|].
    exists db, tbl. by rewrite Hl.
Qed.

End Pipeline.

End Names.

End CaptureFacts.

Module NameRuns.

Lemma index_and_path_names_canonical_witness :
  lineage_fuel (FS := chain_disk) "rpt.v_a" chain_files ∅ ≤ 5
  ∧ (∀ k, k ∈ dom (index_writers (FS := chain_disk) chain_files) →
          all_chars name_char k = true ∧ k ≠ "" ∧ str_lower k = k)
  ∧ ∃ paths cache',
      dfs_lineage_paths (FS := chain_disk) 5 "rpt.v_a" chain_files chain_index [] ∅
      = Some (paths, cache')
      ∧ ∀ p i x, p ∈ paths → p !! S i = Some x →
          ∃ db tbl, x = db +:+ "." +:+ tbl
                    ∧ is_ident db = true ∧ is_ident tbl = true.
Proof.
  assert (lineage_fuel (FS := chain_disk) "rpt.v_a" chain_files ∅ ≤ 5) as H
    by (vm_compute; lia).
  split; [exact H|].
  exact (CaptureFacts.index_and_path_names_canonical (FS := chain_disk)
           5 "rpt.v_a" chain_files chain_index [] H).
Defined.

End NameRuns.
